(** * chatflow-rt: the call modal (src/components/VideoCallModal.tsx) and the
      page that mounts it (src/pages/Chat.tsx)

    The component is a React function component.  Its handlers are closures
    over the values of one render; they act on three things:
    - the browser objects they hold references to (media tracks, the peer
      connection and its senders), which are shared and mutable;
    - the component's [useState] cells, written through the setters;
    - the console, the toast list and the page's open flag.

    The embedding passes all of this explicitly.  A handler takes the
    render it was created in (a [ModalState], the values its closure
    captured) and the current [Call] (browser plus component), and returns
    the next [Call].  A click runs the handler of the latest render. *)

From Stdlib Require Import String.
From stdpp Require Import base decidable option list strings relations.

Local Open Scope string_scope.
Local Open Scope list_scope.

(** ** Browser objects *)

Inductive TrackKind := audio | video.

Inductive ReadyState := live | ended.

#[global] Instance TrackKind_eq_dec : EqDecision TrackKind.
Proof. solve_decision. Defined.

#[global] Instance ReadyState_eq_dec : EqDecision ReadyState.
Proof. solve_decision. Defined.

(** A [MediaStream] as the component uses it: the tracks it was created
    with, by reference into the track store.  The component never adds to
    or removes from a stream. *)
Record MediaStream := mkStream { stream_tracks : list nat }.

(** A reference to one [RTCRtpSender]: the connection and the position in
    its [getSenders()] array. *)
Record SenderRef := mkSenderRef { sr_pc : nat; sr_idx : nat }.

(** The closure assigned to [videoTrack.onended] (lines 123-129): it keeps
    the [localStream] of the render that started the share and the sender
    found at that time. *)
Record EndedHandler := mkEndedHandler {
  eh_localStream : option MediaStream;
  eh_sender : option SenderRef
}.

Record Track := mkTrack {
  kind : TrackKind;
  enabled : bool;
  readyState : ReadyState;
  onended : option EndedHandler
}.

Definition Candidate := string.

Inductive SignalingMessage :=
| offer (sdp : string)
| answer (sdp : string)
| candidate (c : Candidate)
| hangup.

(** An [RTCPeerConnection].  [senders] is the [getSenders()] array, each
    entry the sender's current track.  [ontrack] and [onicecandidate] say
    whether the component has assigned the callback.  [remoteDescription]
    and [remoteCandidates] are what [setRemoteDescription] and
    [addIceCandidate] would fill. *)
Record PeerConnection := mkPC {
  iceServers : list string;
  senders : list (option nat);
  closed : bool;
  ontrack : bool;
  onicecandidate : bool;
  remoteDescription : option string;
  remoteCandidates : list Candidate
}.

Record Toast := mkToast {
  title : string;
  description : string;
  variant : string
}.

#[global] Instance Toast_eq_dec : EqDecision Toast.
Proof. solve_decision. Defined.

Inductive JsError :=
| TypeError
| NotAllowedError
| InvalidStateError
| InvalidAccessError.

#[global] Instance JsError_eq_dec : EqDecision JsError.
Proof. solve_decision. Defined.

(** What the code asks of the platform and what the platform does, in
    order. *)
Inductive Effect :=
| GetUserMedia (want_video want_audio : bool)
| GetDisplayMedia (want_video : bool)
| NewPeerConnection (pc : nat)
| AddTrack (pc track : nat)
| ReplaceTrack (pc idx : nat) (track : option nat)
| StopCalled (track : nat)
| DeviceReleased (track : nat)
| CloseCalled (pc : nat)
| ConnectionClosed (pc : nat)
| ConsoleLog (msg : string) (c : Candidate)
| ConsoleError (msg : string) (e : JsError)
| ToastShown (t : Toast).

#[global] Instance Effect_eq_dec : EqDecision Effect.
Proof. solve_decision. Defined.

(** The browser: the track store and the connection store (an object's
    reference is its position, a new object goes at the end), whether the
    user and the hardware grant camera/microphone and screen capture, the
    effects so far, and the messages handed to the signaling channel. *)
Record Browser := mkBrowser {
  tracks : list Track;
  pcs : list PeerConnection;
  device_ok : bool;
  screen_ok : bool;
  trace : list Effect;
  outbox : list SignalingMessage
}.

Definition set_tracks (ts : list Track) (b : Browser) : Browser :=
  mkBrowser ts (pcs b) (device_ok b) (screen_ok b) (trace b) (outbox b).

Definition set_pcs (ps : list PeerConnection) (b : Browser) : Browser :=
  mkBrowser (tracks b) ps (device_ok b) (screen_ok b) (trace b) (outbox b).

Definition emit (es : list Effect) (b : Browser) : Browser :=
  mkBrowser (tracks b) (pcs b) (device_ok b) (screen_ok b) (trace b ++ es)
            (outbox b).

Definition set_readyState (r : ReadyState) (t : Track) : Track :=
  mkTrack (kind t) (enabled t) r (onended t).

Definition set_enabled (e : bool) (t : Track) : Track :=
  mkTrack (kind t) e (readyState t) (onended t).

Definition set_onended (h : option EndedHandler) (t : Track) : Track :=
  mkTrack (kind t) (enabled t) (readyState t) h.

Definition set_senders (ss : list (option nat)) (p : PeerConnection)
  : PeerConnection :=
  mkPC (iceServers p) ss (closed p) (ontrack p) (onicecandidate p)
       (remoteDescription p) (remoteCandidates p).

Definition set_closed (c : bool) (p : PeerConnection) : PeerConnection :=
  mkPC (iceServers p) (senders p) c (ontrack p) (onicecandidate p)
       (remoteDescription p) (remoteCandidates p).

Definition set_callbacks (p : PeerConnection) : PeerConnection :=
  mkPC (iceServers p) (senders p) (closed p) true true
       (remoteDescription p) (remoteCandidates p).

(** *** Platform operations

    These follow the Media Capture and WebRTC interfaces the component
    calls. *)

Definition has_kind (b : Browser) (k : TrackKind) (t : nat) : bool :=
  match tracks b !! t with
  | Some tr => bool_decide (kind tr = k)
  | None => false
  end.

(** [stream.getAudioTracks()], [stream.getVideoTracks()]. *)
Definition getAudioTracks (b : Browser) (s : MediaStream) : list nat :=
  List.filter (has_kind b audio) (stream_tracks s).

Definition getVideoTracks (b : Browser) (s : MediaStream) : list nat :=
  List.filter (has_kind b video) (stream_tracks s).

(** [track.stop()]: a live track ends and its device is released; on a
    track that has ended the call does nothing.  No [ended] event is fired
    by [stop()]. *)
Definition track_stop (t : nat) (b : Browser) : Browser :=
  match tracks b !! t with
  | Some tr =>
      match readyState tr with
      | live =>
          emit [StopCalled t; DeviceReleased t]
               (set_tracks (<[t := set_readyState ended tr]> (tracks b)) b)
      | ended => emit [StopCalled t] b
      end
  | None => b
  end.

(** [pc.close()]: an open connection closes; on a closed one the call does
    nothing. *)
Definition pc_close (p : nat) (b : Browser) : Browser :=
  match pcs b !! p with
  | Some c =>
      if closed c then emit [CloseCalled p] b
      else emit [CloseCalled p; ConnectionClosed p]
                (set_pcs (<[p := set_closed true c]> (pcs b)) b)
  | None => b
  end.

(** A new track of the given kind: live and enabled. *)
Definition fresh_track (k : TrackKind) : Track := mkTrack k true live None.

(** [navigator.mediaDevices.getUserMedia({video, audio})] returns a
    promise.  When the platform settles it: if the device is granted, one
    new track per requested kind (audio first); otherwise it rejects. *)
Definition getUserMedia_settle (want_video want_audio : bool) (b : Browser)
  : Browser * (JsError + MediaStream) :=
  if device_ok b then
    let n := length (tracks b) in
    let a := if want_audio then [fresh_track audio] else [] in
    let v := if want_video then [fresh_track video] else [] in
    (set_tracks (tracks b ++ a ++ v) b, inr (mkStream (seq n (length (a ++ v)))))
  else (b, inl NotAllowedError).

(** [navigator.mediaDevices.getDisplayMedia({video: true})]. *)
Definition getDisplayMedia (b : Browser) : Browser * (JsError + MediaStream) :=
  let b1 := emit [GetDisplayMedia true] b in
  if screen_ok b then
    (set_tracks (tracks b ++ [fresh_track video]) b1,
     inr (mkStream [length (tracks b)]))
  else (b1, inl NotAllowedError).

Definition stun_servers : list string :=
  ["stun:stun.l.google.com:19302"; "stun:stun1.l.google.com:19302"].

(** [new RTCPeerConnection({iceServers})]. *)
Definition newPeerConnection (b : Browser) : Browser * nat :=
  let p := length (pcs b) in
  (emit [NewPeerConnection p]
        (set_pcs (pcs b ++ [mkPC stun_servers [] false false false None []]) b),
   p).

(** [pc.addTrack(track, stream)]: a new sender for the track.  It throws on
    a closed connection and on a track that already has a sender. *)
Definition addTrack (p t : nat) (b : Browser) : Browser * option JsError :=
  match pcs b !! p with
  | Some c =>
      if closed c then (b, Some InvalidStateError)
      else if bool_decide (Some t ∈ senders c) then (b, Some InvalidAccessError)
      else (emit [AddTrack p t]
                 (set_pcs (<[p := set_senders (senders c ++ [Some t]) c]> (pcs b)) b),
            None)
  | None => (b, Some TypeError)
  end.

(** [sender.replaceTrack(track)]: the sender's track becomes [track]; the
    session description is left alone.  On a closed connection the returned
    promise rejects and nothing changes; the component does not await the
    promise. *)
Definition replaceTrack (r : SenderRef) (t : option nat) (b : Browser)
  : Browser :=
  match pcs b !! sr_pc r with
  | Some c =>
      if closed c then b
      else if bool_decide (sr_idx r < length (senders c)) then
        emit [ReplaceTrack (sr_pc r) (sr_idx r) t]
             (set_pcs (<[sr_pc r := set_senders (<[sr_idx r := t]> (senders c)) c]>
                         (pcs b)) b)
      else b
  | None => b
  end.

(** [pc.getSenders()]: the senders of the transceivers that are not
    stopped.  [close()] stops every transceiver, so the array of a closed
    connection is empty; the sender objects themselves, which a closure may
    still hold, keep their track. *)
Definition getSenders (c : PeerConnection) : list (option nat) :=
  if closed c then [] else senders c.

(** [s.track?.kind === 'video'] *)
Definition is_video_sender (b : Browser) (s : option nat) : bool :=
  match s with
  | Some t => has_kind b video t
  | None => false
  end.

(** [peerConnection?.getSenders().find((s) => s.track?.kind === 'video')] *)
Definition find_video_sender (b : Browser) (pc : option nat)
  : option SenderRef :=
  match pc with
  | Some p =>
      match pcs b !! p with
      | Some c =>
          match list_find (fun s => is_video_sender b s = true)
                          (getSenders c) with
          | Some (i, _) => Some (mkSenderRef p i)
          | None => None
          end
      | None => None
      end
  | None => None
  end.

(** ** The component *)

(** The six [useState] cells (lines 15-20). *)
Record ModalState := mkModal {
  localStream : option MediaStream;
  remoteStream : option MediaStream;
  isMuted : bool;
  isVideoEnabled : bool;
  isScreenSharing : bool;
  peerConnection : option nat
}.

Definition initial_state (isVideoCall : bool) : ModalState :=
  mkModal None None false isVideoCall false None.

(** One mounted [VideoCallModal]: its props [isOpen] and [isVideoCall]
    ([isOpen] is the page's [showVideoCall] or [showAudioCall], and
    [onClose] sets it to false), its state, the render whose [cleanup] the
    effect of lines 26-34 returned last, and the constraints of the
    [initializeCall] runs that are suspended at [await getUserMedia]. *)
Record Component := mkComponent {
  isOpen : bool;
  isVideoCall : bool;
  st : ModalState;
  effect_render : ModalState;
  awaiting : list (bool * bool)
}.

Definition mount (isVideoCall : bool) : Component :=
  mkComponent false isVideoCall (initial_state isVideoCall)
              (initial_state isVideoCall) [].

Record Call := mkCall { env : Browser; me : Component }.

Definition with_env (b : Browser) (c : Call) : Call := mkCall b (me c).

Definition with_st (s : ModalState) (c : Call) : Call :=
  mkCall (env c)
         (mkComponent (isOpen (me c)) (isVideoCall (me c)) s
                      (effect_render (me c)) (awaiting (me c))).

Definition with_isOpen (o : bool) (c : Call) : Call :=
  mkCall (env c)
         (mkComponent o (isVideoCall (me c)) (st (me c))
                      (effect_render (me c)) (awaiting (me c))).

Definition with_effect_render (r : ModalState) (c : Call) : Call :=
  mkCall (env c)
         (mkComponent (isOpen (me c)) (isVideoCall (me c)) (st (me c)) r
                      (awaiting (me c))).

Definition with_awaiting (a : list (bool * bool)) (c : Call) : Call :=
  mkCall (env c)
         (mkComponent (isOpen (me c)) (isVideoCall (me c)) (st (me c))
                      (effect_render (me c)) a).

Definition setLocalStream (v : option MediaStream) (c : Call) : Call :=
  let s := st (me c) in
  with_st (mkModal v (remoteStream s) (isMuted s) (isVideoEnabled s)
                   (isScreenSharing s) (peerConnection s)) c.

Definition setRemoteStream (v : option MediaStream) (c : Call) : Call :=
  let s := st (me c) in
  with_st (mkModal (localStream s) v (isMuted s) (isVideoEnabled s)
                   (isScreenSharing s) (peerConnection s)) c.

Definition setIsMuted (v : bool) (c : Call) : Call :=
  let s := st (me c) in
  with_st (mkModal (localStream s) (remoteStream s) v (isVideoEnabled s)
                   (isScreenSharing s) (peerConnection s)) c.

Definition setIsVideoEnabled (v : bool) (c : Call) : Call :=
  let s := st (me c) in
  with_st (mkModal (localStream s) (remoteStream s) (isMuted s) v
                   (isScreenSharing s) (peerConnection s)) c.

Definition setIsScreenSharing (v : bool) (c : Call) : Call :=
  let s := st (me c) in
  with_st (mkModal (localStream s) (remoteStream s) (isMuted s)
                   (isVideoEnabled s) v (peerConnection s)) c.

Definition setPeerConnection (v : option nat) (c : Call) : Call :=
  let s := st (me c) in
  with_st (mkModal (localStream s) (remoteStream s) (isMuted s)
                   (isVideoEnabled s) (isScreenSharing s) v) c.

(** A handler either returns or throws; what it did before throwing
    stays. *)
Inductive Result :=
| Ok (c : Call)
| Throw (e : JsError) (c : Call).

(** A click on a button runs the handler of the latest render. *)
Definition click {A} (h : ModalState -> Call -> A) (c : Call) : A :=
  h (st (me c)) c.

(** *** cleanup (lines 83-89) *)

Definition stop_all (ts : list nat) (b : Browser) : Browser :=
  foldl (fun acc t => track_stop t acc) b ts.

Definition cleanup (r : ModalState) (c : Call) : Call :=
  let b1 := match localStream r with
            | Some s => stop_all (stream_tracks s) (env c)
            | None => env c
            end in
  let b2 := match peerConnection r with
            | Some p => pc_close p b1
            | None => b1
            end in
  setPeerConnection None (setRemoteStream None (setLocalStream None
    (with_env b2 c))).

(** *** initializeCall (lines 36-81)

    The two assignments to the [srcObject] of the video elements (lines
    44-46 and 61-63) only feed the rendering and are left out. *)

Definition error_toast (d : string) : Toast := mkToast "Error" d "destructive".

(** The [catch] block, lines 73-80. *)
Definition initializeCall_catch (e : JsError) (c : Call) : Call :=
  with_env (emit [ConsoleError "Error initializing call:" e;
                  ToastShown (error_toast "Failed to access camera/microphone")]
                 (env c)) c.

(** [stream.getTracks().forEach((track) => pc.addTrack(track, stream))] *)
Fixpoint addTracks (p : nat) (ts : list nat) (b : Browser)
  : Browser * option JsError :=
  match ts with
  | [] => (b, None)
  | t :: ts' =>
      match addTrack p t b with
      | (b', None) => addTracks p ts' b'
      | r => r
      end
  end.

(** Up to the [await]: the request is made with
    [{video: isVideoCall, audio: true}] and the run suspends. *)
Definition initializeCall (c : Call) : Call :=
  let v := isVideoCall (me c) in
  with_awaiting (awaiting (me c) ++ [(v, true)])
                (with_env (emit [GetUserMedia v true] (env c)) c).

(** After the [await], lines 43-72, or the [catch]. *)
Definition initializeCall_resume (o : JsError + MediaStream) (c : Call)
  : Call :=
  match o with
  | inr stream =>
      let c1 := setLocalStream (Some stream) c in
      let '(b2, p) := newPeerConnection (env c1) in
      match addTracks p (stream_tracks stream) b2 with
      | (b3, None) =>
          let b4 := set_pcs (alter set_callbacks p (pcs b3)) b3 in
          setPeerConnection (Some p) (with_env b4 c1)
      | (b3, Some e) => initializeCall_catch e (with_env b3 c1)
      end
  | inl e => initializeCall_catch e c
  end.

(** The platform settles the oldest outstanding [getUserMedia] promise and
    the suspended run continues. *)
Definition media_settled (c : Call) : Call :=
  match awaiting (me c) with
  | [] => c
  | (v, a) :: rest =>
      let '(b, o) := getUserMedia_settle v a (env c) in
      initializeCall_resume o (with_awaiting rest (with_env b c))
  end.

(** [pc.ontrack] (lines 59-64) and [pc.onicecandidate] (lines 66-70). *)
Definition pc_ontrack (streams : list MediaStream) (c : Call) : Call :=
  setRemoteStream (head streams) c.

Definition pc_onicecandidate (cand : option Candidate) (c : Call) : Call :=
  match cand with
  | Some k => with_env (emit [ConsoleLog "ICE candidate:" k] (env c)) c
  | None => c
  end.

(** The connection fires an event: the callback runs if one is assigned. *)
Definition fire_track (p : nat) (streams : list MediaStream) (c : Call)
  : Call :=
  match pcs (env c) !! p with
  | Some pc => if ontrack pc then pc_ontrack streams c else c
  | None => c
  end.

Definition fire_icecandidate (p : nat) (cand : option Candidate) (c : Call)
  : Call :=
  match pcs (env c) !! p with
  | Some pc => if onicecandidate pc then pc_onicecandidate cand c else c
  | None => c
  end.

(** *** toggleMute, toggleVideo (lines 91-105) *)

Definition track_enabled (b : Browser) (t : nat) : bool :=
  match tracks b !! t with
  | Some tr => enabled tr
  | None => false
  end.

(** [track.enabled = !track.enabled] *)
Definition flip_enabled (t : nat) (b : Browser) : Browser :=
  set_tracks (alter (fun tr => set_enabled (negb (enabled tr)) tr) t (tracks b)) b.

Definition toggleMute (r : ModalState) (c : Call) : Result :=
  match localStream r with
  | Some s =>
      match head (getAudioTracks (env c) s) with
      | Some audioTrack =>
          let b := flip_enabled audioTrack (env c) in
          Ok (setIsMuted (negb (track_enabled b audioTrack)) (with_env b c))
      | None => Throw TypeError c
      end
  | None => Ok c
  end.

Definition toggleVideo (r : ModalState) (c : Call) : Result :=
  match localStream r with
  | Some s =>
      match head (getVideoTracks (env c) s) with
      | Some videoTrack =>
          let b := flip_enabled videoTrack (env c) in
          Ok (setIsVideoEnabled (track_enabled b videoTrack) (with_env b c))
      | None => Throw TypeError c
      end
  | None => Ok c
  end.

(** *** toggleScreenShare (lines 107-151)

    The handler awaits [getDisplayMedia]; the promise is taken to settle
    before anything else happens. *)

Definition toggleScreenShare_catch (e : JsError) (c : Call) : Call :=
  with_env (emit [ConsoleError "Error sharing screen:" e;
                  ToastShown (error_toast "Failed to share screen")]
                 (env c)) c.

(** [localStream?.getVideoTracks()[0]] *)
Definition first_video_track (b : Browser) (s : option MediaStream)
  : option nat :=
  match s with
  | Some s => head (getVideoTracks b s)
  | None => None
  end.

(** [if (track && sender) sender.replaceTrack(track)] *)
Definition restore_camera (track : option nat) (sender : option SenderRef)
  (b : Browser) : Browser :=
  match track, sender with
  | Some t, Some s => replaceTrack s (Some t) b
  | _, _ => b
  end.

(** The closure of lines 123-129. *)
Definition screen_onended (h : EndedHandler) (c : Call) : Call :=
  let originalVideoTrack := first_video_track (env c) (eh_localStream h) in
  setIsScreenSharing false
    (with_env (restore_camera originalVideoTrack (eh_sender h) (env c)) c).

Definition toggleScreenShare (r : ModalState) (c : Call) : Call :=
  if negb (isScreenSharing r) then
    let '(b1, o) := getDisplayMedia (env c) in
    match o with
    | inr screenStream =>
        let videoTrack := head (getVideoTracks b1 screenStream) in
        let sender := find_video_sender b1 (peerConnection r) in
        let b2 := match sender with
                  | Some s => replaceTrack s videoTrack b1
                  | None => b1
                  end in
        match videoTrack with
        | Some vt =>
            let h := mkEndedHandler (localStream r) sender in
            let b3 := set_tracks (alter (set_onended (Some h)) vt (tracks b2)) b2 in
            setIsScreenSharing true (with_env b3 c)
        | None => toggleScreenShare_catch TypeError (with_env b2 c)
        end
    | inl e => toggleScreenShare_catch e (with_env b1 c)
    end
  else
    let videoTrack := first_video_track (env c) (localStream r) in
    let sender := find_video_sender (env c) (peerConnection r) in
    setIsScreenSharing false
      (with_env (restore_camera videoTrack sender (env c)) c).

(** The source of a track ends (the user stops the capture from the
    browser's own control, a device is unplugged): a live track becomes
    ended and its [onended] closure runs. *)
Definition track_ended (t : nat) (c : Call) : Call :=
  match tracks (env c) !! t with
  | Some tr =>
      match readyState tr with
      | live =>
          let c1 := with_env (set_tracks (<[t := set_readyState ended tr]>
                                             (tracks (env c))) (env c)) c in
          match onended tr with
          | Some h => screen_onended h c1
          | None => c1
          end
      | ended => c
      end
  | None => c
  end.

(** *** The effect on [isOpen] (lines 26-34), [onClose], endCall (153-156) *)

(** The page changes the [isOpen] prop.  The component renders with the
    state it has; the [cleanup] the previous effect returned runs (it is the
    [cleanup] of the render [effect_render]); the effect runs and returns
    the [cleanup] of this render. *)
Definition set_isOpen (o : bool) (c : Call) : Call :=
  if bool_decide (isOpen (me c) = o) then c
  else
    let render := st (me c) in
    let c1 := cleanup (effect_render (me c)) (with_isOpen o c) in
    let c2 := with_effect_render render c1 in
    if o then initializeCall c2 else c2.

(** [onClose] as the page passes it: [() => setShowVideoCall(false)]. *)
Definition onClose (c : Call) : Call := set_isOpen false c.

Definition endCall (r : ModalState) (c : Call) : Call :=
  onClose (cleanup r c).

(** *** Events

    Everything that can happen to a mounted component: the page changes
    [isOpen] (a call button, or the dialog's [onOpenChange], which is
    [onClose]); a pending [getUserMedia] settles; the connection fires
    [track] or [icecandidate]; a button is clicked; a track's source ends;
    the user changes what the browser grants; a message arrives on the
    room's signaling channel.  The component subscribes to no channel and
    has no handler for a message, so it is not run at all for one. *)
Inductive Event :=
| SetOpen (o : bool)
| MediaSettled
| TrackEvent (p : nat) (streams : list MediaStream)
| IceCandidate (p : nat) (cand : option Candidate)
| ClickMute
| ClickVideo
| ClickShare
| ClickEnd
| TrackEnded (t : nat)
| Permissions (device screen : bool)
| Signal (m : SignalingMessage).

Definition state_of (r : Result) : Call :=
  match r with
  | Ok c => c
  | Throw _ c => c
  end.

Definition set_permissions (d s : bool) (b : Browser) : Browser :=
  mkBrowser (tracks b) (pcs b) d s (trace b) (outbox b).

Definition handle (ev : Event) (c : Call) : Call :=
  match ev with
  | SetOpen o => set_isOpen o c
  | MediaSettled => media_settled c
  | TrackEvent p streams => fire_track p streams c
  | IceCandidate p cand => fire_icecandidate p cand c
  | ClickMute => state_of (click toggleMute c)
  | ClickVideo => state_of (click toggleVideo c)
  | ClickShare => click toggleScreenShare c
  | ClickEnd => click endCall c
  | TrackEnded t => track_ended t c
  | Permissions d s => with_env (set_permissions d s (env c)) c
  | Signal _ => c
  end.

Definition run (evs : list Event) (c : Call) : Call :=
  foldl (fun acc ev => handle ev acc) c evs.

(** A browser in which nothing has happened yet. *)
Definition new_browser (device screen : bool) : Browser :=
  mkBrowser [] [] device screen [] [].

Inductive reachable : Call -> Prop :=
| reachable_mount (d s v : bool) :
    reachable (mkCall (new_browser d s) (mount v))
| reachable_handle (ev : Event) (c : Call) :
    reachable c -> reachable (handle ev c).

(** *** The lifecycle of the specification, read off the component

    The component has no state variable for the lifecycle.  The five
    states of the specification correspond to its variables as follows:
    requesting while an acquisition is in flight (or a stream is held and
    no connection yet); connecting once the connection is stored; active
    once a remote stream is stored; and, with nothing in flight and nothing
    held, idle while the dialog is closed and ended while it is still
    open. *)
Inductive Phase := Idle | Requesting | Connecting | Active | Ended.

Definition phase (c : Call) : Phase :=
  match awaiting (me c) with
  | _ :: _ => Requesting
  | [] =>
      let s := st (me c) in
      match remoteStream s, peerConnection s, localStream s with
      | Some _, _, _ => Active
      | None, Some _, _ => Connecting
      | None, None, Some _ => Requesting
      | None, None, None => if isOpen (me c) then Ended else Idle
      end
  end.

(** ** Observations *)

Definition is_live (b : Browser) (t : nat) : bool :=
  match tracks b !! t with
  | Some tr => bool_decide (readyState tr = live)
  | None => false
  end.

Definition is_open (b : Browser) (p : nat) : bool :=
  match pcs b !! p with
  | Some c => negb (closed c)
  | None => false
  end.

(** How many times the device behind track [t] was released, and how many
    times connection [p] went from open to closed. *)
Definition released (b : Browser) (t : nat) : nat :=
  count_occ Effect_eq_dec (trace b) (DeviceReleased t).

Definition closings (b : Browser) (p : nat) : nat :=
  count_occ Effect_eq_dec (trace b) (ConnectionClosed p).

(** The tracks a render's [localStream] refers to. *)
Definition render_tracks (r : ModalState) : list nat :=
  match localStream r with
  | Some s => stream_tracks s
  | None => []
  end.

(** The number of senders in [getSenders()] of connection [p] that carry
    a video track. *)
Definition video_senders (b : Browser) (p : nat) : nat :=
  match pcs b !! p with
  | Some c => length (List.filter (is_video_sender b) (getSenders c))
  | None => 0
  end.



(** The track sender [r] carries. *)
Definition sender_track (b : Browser) (r : SenderRef) : option nat :=
  match pcs b !! sr_pc r with
  | Some c => mjoin (senders c !! sr_idx r)
  | None => None
  end.

(** The video track attached to connection [p]: the track of the first
    sender in [getSenders()] that carries one. *)
Definition attached_video (b : Browser) (p : nat) : option nat :=
  match find_video_sender b (Some p) with
  | Some r => sender_track b r
  | None => None
  end.

(** ** The page (src/pages/Chat.tsx) *)

(** With a room selected the page mounts two modals (lines 84-99): one
    with [isVideoCall = true] opened by [showVideoCall], one with
    [isVideoCall = false] opened by [showAudioCall].  They share the
    browser. *)
Inductive Which := VideoModal | AudioModal.

Record Page := mkPage {
  penv : Browser;
  videoModal : Component;
  audioModal : Component
}.

Definition chat_page (b : Browser) : Page :=
  mkPage b (mount true) (mount false).

Definition modal (w : Which) (pg : Page) : Component :=
  match w with
  | VideoModal => videoModal pg
  | AudioModal => audioModal pg
  end.

Definition other (w : Which) : Which :=
  match w with
  | VideoModal => AudioModal
  | AudioModal => VideoModal
  end.

(** Something happens in one of the modals. *)
Definition in_modal (w : Which) (f : Call -> Call) (pg : Page) : Page :=
  let c := f (mkCall (penv pg) (modal w pg)) in
  match w with
  | VideoModal => mkPage (env c) (me c) (audioModal pg)
  | AudioModal => mkPage (env c) (videoModal pg) (me c)
  end.

(** [onVideoCall = () => setShowVideoCall(true)] and
    [onAudioCall = () => setShowAudioCall(true)] (lines 69-70). *)
Definition onVideoCall (pg : Page) : Page :=
  in_modal VideoModal (set_isOpen true) pg.

Definition onAudioCall (pg : Page) : Page :=
  in_modal AudioModal (set_isOpen true) pg.

(** Starting a call in one modal: the page opens it, and the acquisition
    settles. *)
Definition start_call (w : Which) (pg : Page) : Page :=
  in_modal w media_settled (in_modal w (set_isOpen true) pg).

(** A modal holds the capture devices when its [localStream] has a live
    track. *)
Definition holds_capture (b : Browser) (m : Component) : bool :=
  existsb (is_live b) (render_tracks (st m)).

(** At most one of the two call sessions holds the capture devices. *)
Definition exclusive (pg : Page) : Prop :=
  ~ (holds_capture (penv pg) (videoModal pg) = true /\
     holds_capture (penv pg) (audioModal pg) = true).

(** ** Scenarios and predicates used in the statements *)

(** The browser [cleanup] leaves behind. *)
Definition cleanup_env (r : ModalState) (b : Browser) : Browser :=
  let b1 := match localStream r with
            | Some s => stop_all (stream_tracks s) b
            | None => b
            end in
  match peerConnection r with
  | Some p => pc_close p b1
  | None => b1
  end.

(** A call of the given kind, opened on a browser that grants everything,
    with media acquired and the connection created. *)
Definition started_call (isVideoCall : bool) : Call :=
  run [SetOpen true; MediaSettled]
      (mkCall (new_browser true true) (mount isVideoCall)).

(** The candidate has been handed to the signaling channel. *)
Definition forwarded (k : Candidate) (b : Browser) : Prop :=
  candidate k ∈ outbox b.

(** The candidate has been given to connection [p]. *)
Definition candidate_applied (k : Candidate) (p : nat) (b : Browser) : Prop :=
  exists pc, pcs b !! p = Some pc /\ k ∈ remoteCandidates pc.

(** ** Invariants of the browser

    In every state the component can reach, a sender refers to a track that
    exists, and the sender kept by an [onended] closure carries a video
    track. *)

Definition senders_exist (b : Browser) : Prop :=
  forall p pc t,
    pcs b !! p = Some pc -> Some t ∈ senders pc -> t < length (tracks b).

Definition is_video_at (b : Browser) (r : SenderRef) : bool :=
  match sender_track b r with
  | Some t => has_kind b video t
  | None => false
  end.

Definition handlers_video (b : Browser) : Prop :=
  forall t tr h r,
    tracks b !! t = Some tr -> onended tr = Some h -> eh_sender h = Some r ->
    is_video_at b r = true.

Definition wf (b : Browser) : Prop := senders_exist b /\ handlers_video b.

(** The number of sender objects of connection [p], open or closed, that
    carry a video track. *)
Definition video_slots (b : Browser) (p : nat) : nat :=
  match pcs b !! p with
  | Some c => length (List.filter (is_video_sender b) (senders c))
  | None => 0
  end.

(** [grows b b']: every track of [b] is in [b'] with its kind and its
    [onended]; every connection of [b] is in [b'] with its senders; what is
    new in [b'] has no [onended] and no sender. *)
Record grows (b b' : Browser) : Prop := mk_grows {
  grows_track : forall t tr,
    tracks b !! t = Some tr ->
    exists tr', tracks b' !! t = Some tr' /\ kind tr' = kind tr /\
                onended tr' = onended tr;
  grows_track_new : forall t tr',
    tracks b' !! t = Some tr' -> tracks b !! t = None -> onended tr' = None;
  grows_pc : forall p pc,
    pcs b !! p = Some pc ->
    exists pc', pcs b' !! p = Some pc' /\ senders pc' = senders pc;
  grows_pc_new : forall p pc',
    pcs b' !! p = Some pc' -> pcs b !! p = None -> senders pc' = []
}.

(** [preserves b b']: if [b] is well formed then so is [b'], and every
    connection of [b] is still there with as many video senders. *)
Definition preserves (b b' : Browser) : Prop :=
  wf b ->
  wf b' /\
  forall p, is_Some (pcs b !! p) ->
            is_Some (pcs b' !! p) /\ video_slots b' p = video_slots b p.

(** The [localStream] of the component refers to tracks that exist. *)

Definition stream_ok (b : Browser) (s : option MediaStream) : Prop :=
  forall s0, s = Some s0 ->
             Forall (fun t => t < length (tracks b)) (stream_tracks s0).

Definition keeps_stream (c c' : Call) : Prop :=
  stream_ok (env c) (localStream (st (me c))) ->
  stream_ok (env c') (localStream (st (me c'))).

Definition call_ok (c : Call) : Prop :=
  wf (env c) /\ stream_ok (env c) (localStream (st (me c))).

(** Two browsers whose tracks below [n] have the same kinds. *)
Definition same_kinds_below (n : nat) (b b' : Browser) : Prop :=
  forall t, t < n -> kind <$> tracks b' !! t = kind <$> tracks b !! t.


(** ** Further predicates *)

(** The call a component is in once an acquisition for a call of kind [v]
    has succeeded on browser [b]: the stream of the new tracks is stored,
    and so is the new connection, which has a sender per track. *)
Definition acquired_stream (b : Browser) (v : bool) : MediaStream :=
  mkStream (length (tracks b) :: if v then [S (length (tracks b))] else []).

Definition connected_env (b : Browser) (v : bool) : Browser :=
  mkBrowser
    (tracks b ++ fresh_track audio :: if v then [fresh_track video] else [])
    (pcs b ++ [mkPC stun_servers (Some <$> stream_tracks (acquired_stream b v))
                    false true true None []])
    (device_ok b) (screen_ok b)
    (trace b ++ NewPeerConnection (length (pcs b))
             :: (AddTrack (length (pcs b)) <$>
                 stream_tracks (acquired_stream b v)))
    (outbox b).

Definition connected_st (b : Browser) (v : bool) (s : ModalState)
  : ModalState :=
  mkModal (Some (acquired_stream b v)) (remoteStream s) (isMuted s)
          (isVideoEnabled s) (isScreenSharing s) (Some (length (pcs b))).

(** The three flags of the component that [cleanup] does not write. *)
Definition flags (s : ModalState) : bool * bool * bool :=
  (isMuted s, isVideoEnabled s, isScreenSharing s).

(** ** The operations on the browser

    [prim b b']: one operation that a handler of the component performs on
    the browser.  Every handler is a sequence of these. *)
Inductive prim : Browser -> Browser -> Prop :=
| prim_emit (es : list Effect) (b : Browser) : prim b (emit es b)
| prim_stop (t : nat) (b : Browser) : prim b (track_stop t b)
| prim_close (p : nat) (b : Browser) : prim b (pc_close p b)
| prim_settle (v a : bool) (b : Browser) :
    prim b (getUserMedia_settle v a b).1
| prim_display (b : Browser) : prim b (getDisplayMedia b).1
| prim_new (b : Browser) : prim b (newPeerConnection b).1
| prim_add (p t : nat) (b : Browser) : prim b (addTrack p t b).1
| prim_replace (r : SenderRef) (t : option nat) (b : Browser) :
    prim b (replaceTrack r t b)
| prim_flip (t : nat) (b : Browser) : prim b (flip_enabled t b)
| prim_onended (h : EndedHandler) (t : nat) (b : Browser) :
    prim b (set_tracks (alter (set_onended (Some h)) t (tracks b)) b)
| prim_callbacks (p : nat) (b : Browser) :
    prim b (set_pcs (alter set_callbacks p (pcs b)) b)
| prim_source_ended (t : nat) (tr : Track) (b : Browser) :
    tracks b !! t = Some tr ->
    prim b (set_tracks (<[t := set_readyState ended tr]> (tracks b)) b)
| prim_permissions (d s : bool) (b : Browser) :
    prim b (set_permissions d s b).

Definition steps : Browser -> Browser -> Prop := rtc prim.

(** No connection has been given a remote description or a remote
    candidate. *)
Definition no_remote (b : Browser) : Prop :=
  forall p pc, pcs b !! p = Some pc ->
               remoteDescription pc = None /\ remoteCandidates pc = [].

(** Every connection is configured with the two STUN servers. *)
Definition stun_only (b : Browser) : Prop :=
  forall p pc, pcs b !! p = Some pc -> iceServers pc = stun_servers.

(** The configuration of a connection: what it was created with and what
    signaling would give it. *)
Definition pc_config (pc : PeerConnection)
  : list string * option string * list Candidate :=
  (iceServers pc, remoteDescription pc, remoteCandidates pc).

(** Every connection of [b'] is a connection of [b] with the configuration
    it had, or has the configuration of a new connection. *)
Definition config_kept (b b' : Browser) : Prop :=
  forall p pc', pcs b' !! p = Some pc' ->
    (exists pc, pcs b !! p = Some pc /\ pc_config pc' = pc_config pc) \/
    pc_config pc' = (stun_servers, None, []).

(** The control buttons the component renders (lines 196-236): mute,
    then video and screen share for a video call only, then hang up. *)
Definition buttons (m : Component) : list Event :=
  ClickMute :: (if isVideoCall m then [ClickVideo; ClickShare] else [])
            ++ [ClickEnd].

(** The acquisitions in flight are for this component's kind of call, and
    a stored local stream is the stream of such an acquisition: an audio
    track, followed by a video track for a video call. *)
Definition stream_shape (c : Call) : Prop :=
  Forall (fun va => va = (isVideoCall (me c), true)) (awaiting (me c)) /\
  forall s, localStream (st (me c)) = Some s ->
    exists n,
      stream_tracks s = n :: (if isVideoCall (me c) then [S n] else []) /\
      has_kind (env c) audio n = true /\
      (isVideoCall (me c) = true -> has_kind (env c) video (S n) = true).

(** Track [t] belongs to no stream the component can still reach: neither
    the [localStream] of its state nor that of the render whose [cleanup]
    the effect holds. *)
Definition unowned (c : Call) (t : nat) : Prop :=
  (t ∉ render_tracks (st (me c))) /\
  (t ∉ render_tracks (effect_render (me c))).

(** ** The chat window (src/components/ChatWindow.tsx)

    The page renders the chat window of the selected room; its header
    carries the two call buttons.  Below are the message form and the typing
    indicator of that component. *)

(** A JavaScript string is a sequence of UTF-16 code units; [length] is
    the [length] property. *)
Definition JsString := list N.

(** The code units [String.prototype.trim] removes: white space (TAB, VT,
    FF, SP, NBSP, ZWNBSP, the space separators) and line terminators (LF,
    CR, LS, PS). *)
Definition is_space (u : N) : bool :=
  bool_decide (u ∈ [9; 10; 11; 12; 13; 32; 160; 5760; 8232; 8233; 8239;
                    8287; 12288; 65279]%N)
  || (N.leb 8192 u && N.leb u 8202).

Fixpoint trimStart (s : JsString) : JsString :=
  match s with
  | [] => []
  | u :: l => if is_space u then trimStart l else s
  end.

Fixpoint trimEnd (s : JsString) : JsString :=
  match s with
  | [] => []
  | u :: l =>
      match trimEnd l with
      | [] => if is_space u then [] else [u]
      | l' => u :: l'
      end
  end.

Definition trim (s : JsString) : JsString := trimEnd (trimStart s).

(** [messageSchema] (lines 32-37): the content is trimmed, then checked
    against [min(1)] and [max(5000)], each check adding its message to the
    issues.  [safeParse] succeeds with the trimmed content when there is no
    issue. *)
Definition schema_issues (t : JsString) : list string :=
  (if N.ltb (N.of_nat (length t)) 1 then ["Message cannot be empty"] else [])
  ++ (if N.ltb 5000 (N.of_nat (length t))
      then ["Message too long (max 5000 characters)"] else []).

Definition safeParse (content : JsString) : list string + JsString :=
  let t := trim content in
  match schema_issues t with
  | [] => inr t
  | issues => inl issues
  end.

(** What the component asks of the backend and shows to the user. *)
Inductive Request :=
| InsertMessage (content : JsString)
| UpsertTyping (is_typing : bool)
| ShowToast (t : Toast).

(** The part of the component's state the form and the typing indicator
    use: the draft, [isTyping], whether the timeout kept in
    [typingTimeoutRef] is still to fire, how many [sendMessage] runs are
    suspended at their insert, and the requests made so far. *)
Record ChatWindow := mkChatWindow {
  newMessage : JsString;
  cwTyping : bool;
  timeout_pending : bool;
  sending : nat;
  requests : list Request
}.

Definition chat_window : ChatWindow := mkChatWindow [] false false 0 [].

Definition request (r : Request) (w : ChatWindow) : ChatWindow :=
  mkChatWindow (newMessage w) (cwTyping w) (timeout_pending w) (sending w)
               (requests w ++ [r]).

(** [updateTypingStatus] (lines 157-166) *)
Definition updateTypingStatus (typing : bool) (w : ChatWindow) : ChatWindow :=
  request (UpsertTyping typing) w.

(** [handleInputChange] (lines 168-184): the draft is replaced; the first
    keystroke of a burst reports typing; the timeout is cleared and set
    again. *)
Definition handleInputChange (value : JsString) (w : ChatWindow)
  : ChatWindow :=
  let w1 := mkChatWindow value (cwTyping w) (timeout_pending w) (sending w)
                         (requests w) in
  let w2 := if cwTyping w then w1
            else updateTypingStatus true
                   (mkChatWindow value true (timeout_pending w) (sending w)
                                 (requests w)) in
  mkChatWindow (newMessage w2) (cwTyping w2) true (sending w2) (requests w2).

(** The timeout fires (lines 180-183). *)
Definition timeout_fired (w : ChatWindow) : ChatWindow :=
  if timeout_pending w then
    updateTypingStatus false
      (mkChatWindow (newMessage w) false false (sending w) (requests w))
  else w.

(** [sendMessage] (lines 186-217) up to its [await]: an invalid draft is
    refused with a toast; a valid one is trimmed and the insert is
    requested. *)
Definition sendMessage (w : ChatWindow) : ChatWindow :=
  match safeParse (newMessage w) with
  | inl issues =>
      request (ShowToast (mkToast "Invalid message" (default "" (head issues))
                                  "destructive")) w
  | inr content =>
      let w1 := request (InsertMessage content) w in
      mkChatWindow (newMessage w1) (cwTyping w1) (timeout_pending w1)
                   (S (sending w1)) (requests w1)
  end.

(** The backend answers an insert and the suspended [sendMessage]
    continues (lines 205-216). *)
Definition insert_settled (insert_ok : bool) (w : ChatWindow) : ChatWindow :=
  match sending w with
  | 0 => w
  | S n =>
      if insert_ok then
        updateTypingStatus false
          (mkChatWindow [] false (timeout_pending w) n (requests w))
      else
        request (ShowToast (error_toast "Failed to send message"))
          (mkChatWindow (newMessage w) (cwTyping w) (timeout_pending w) n
                        (requests w))
  end.

(** The send button is disabled when the trimmed draft is empty (line
    298). *)
Definition send_disabled (w : ChatWindow) : bool :=
  bool_decide (trim (newMessage w) = []).

Inductive ChatEvent :=
| InputChange (value : JsString)
| Submit
| InsertSettled (insert_ok : bool)
| TimeoutFired.

Definition chat_handle (ev : ChatEvent) (w : ChatWindow) : ChatWindow :=
  match ev with
  | InputChange v => handleInputChange v w
  | Submit => sendMessage w
  | InsertSettled ok => insert_settled ok w
  | TimeoutFired => timeout_fired w
  end.

Definition chat_run (evs : list ChatEvent) (w : ChatWindow) : ChatWindow :=
  foldl (fun acc ev => chat_handle ev acc) w evs.

(** The contents of the inserts among some requests, and the typing
    reports among them. *)
Definition inserted (rs : list Request) : list JsString :=
  omap (fun r => match r with InsertMessage c => Some c | _ => None end) rs.

Definition typing_reports (rs : list Request) : list bool :=
  omap (fun r => match r with UpsertTyping b => Some b | _ => None end) rs.

(** The characters of a string as the database counts them: a high
    surrogate followed by a low surrogate is one character, every other
    code unit is one. *)
Definition is_high_surrogate (u : N) : bool :=
  (N.leb 55296 u && N.leb u 56319)%N.

Definition is_low_surrogate (u : N) : bool :=
  (N.leb 56320 u && N.leb u 57343)%N.

Fixpoint code_points (s : JsString) : nat :=
  match s with
  | [] => 0
  | u :: rest =>
      match rest with
      | l :: rest' =>
          if is_high_surrogate u && is_low_surrogate l
          then S (code_points rest')
          else S (code_points rest)
      | [] => 1
      end
  end.

(** The constraint [message_length_check] of the messages table:
    [length(content) > 0 AND length(content) <= 5000], in characters. *)
Definition message_length_check (content : JsString) : Prop :=
  (0 < N.of_nat (code_points content) /\
   N.of_nat (code_points content) <= 5000)%N.

(** No white space at the start of [s]. *)
Definition no_leading_space (s : JsString) : Prop :=
  match s with
  | [] => True
  | u :: _ => is_space u = false
  end.

(** No two consecutive reports of typing. *)
Fixpoint no_repeated_typing (bs : list bool) : Prop :=
  match bs with
  | true :: ((true :: _) as l) => False
  | _ :: l => no_repeated_typing l
  | [] => True
  end.

(** What relates the typing flag, the timeout and the reports: while
    [isTyping] is set a timeout is pending; typing is never reported twice
    in a row; and when the last report says typing, [isTyping] is set. *)
Definition typing_inv (w : ChatWindow) : Prop :=
  (cwTyping w = true -> timeout_pending w = true) /\
  no_repeated_typing (typing_reports (requests w)) /\
  (last (typing_reports (requests w)) = Some true -> cwTyping w = true).

(** * Properties *)

(** ** Mute and video toggles *)

Lemma has_kind_flip_enabled (b : Browser) (k : TrackKind) (a t : nat) :
  has_kind (flip_enabled a b) k t = has_kind b k t.
Proof.
  unfold has_kind, flip_enabled. simpl.
  destruct (decide (a = t)) as [->|Hne].
  - rewrite list_lookup_alter_eq. destruct (tracks b !! t); reflexivity.
  - rewrite list_lookup_alter_ne by done. reflexivity.
Qed.

Lemma getAudioTracks_flip_enabled (b : Browser) (a : nat) (s : MediaStream) :
  getAudioTracks (flip_enabled a b) s = getAudioTracks b s.
Proof.
  unfold getAudioTracks. apply List.filter_ext. intros t.
  apply has_kind_flip_enabled.
Qed.

Lemma track_enabled_flip (b : Browser) (a : nat) :
  has_kind b audio a = true ->
  track_enabled (flip_enabled a b) a = negb (track_enabled b a).
Proof.
  unfold has_kind, track_enabled, flip_enabled. simpl.
  rewrite list_lookup_alter_eq. destruct (tracks b !! a); [reflexivity|discriminate].
Qed.

Lemma head_filter_holds {A} (f : A -> bool) (l : list A) (x : A) :
  head (List.filter f l) = Some x -> f x = true.
Proof.
  induction l as [|y l IH]; simpl; [discriminate|].
  destruct (f y) eqn:Hy; simpl; [|exact IH].
  intros [= ->]. exact Hy.
Qed.

(** C10.  With no local stream in the render of the handler (media not
    acquired yet, acquisition failed, or cleanup done), the mute toggle and
    the video toggle return normally and leave the browser and the component
    exactly as they were. *)
Theorem toggle_without_stream_unchanged (r : ModalState) (c : Call) :
  localStream r = None ->
  toggleMute r c = Ok c /\ toggleVideo r c = Ok c.
Proof.
  intros H. unfold toggleMute, toggleVideo. rewrite H. split; reflexivity.
Qed.

Lemma toggle_without_stream_unchanged_witness :
  let c := mkCall (new_browser true true) (mount true) in
  click toggleMute c = Ok c /\ click toggleVideo c = Ok c.
Proof.
  apply (toggle_without_stream_unchanged
           (st (mount true)) (mkCall (new_browser true true) (mount true))).
  reflexivity.
Defined.

(** C5.  With a local stream that has an audio track, two clicks on mute
    bring the track's [enabled] flag back to its value, and after each
    click [isMuted] is the negation of the flag. *)
Theorem mute_round_trip (c : Call) (s : MediaStream) (a : nat) :
  localStream (st (me c)) = Some s ->
  head (getAudioTracks (env c) s) = Some a ->
  exists c1 c2 : Call,
    click toggleMute c = Ok c1 /\
    click toggleMute c1 = Ok c2 /\
    track_enabled (env c1) a = negb (track_enabled (env c) a) /\
    isMuted (st (me c1)) = negb (track_enabled (env c1) a) /\
    track_enabled (env c2) a = track_enabled (env c) a /\
    isMuted (st (me c2)) = negb (track_enabled (env c2) a).
Proof.
  intros Hs Ha.
  pose proof (head_filter_holds _ _ _ Ha) as Hk.
  unfold click, toggleMute. rewrite Hs, Ha.
  eexists. eexists. split; [reflexivity|]. simpl.
  rewrite Hs, getAudioTracks_flip_enabled, Ha. simpl.
  split; [reflexivity|]. simpl.
  rewrite !track_enabled_flip by (rewrite ?has_kind_flip_enabled; exact Hk).
  rewrite !negb_involutive. auto.
Qed.

Lemma mute_round_trip_witness :
  let c := run [SetOpen true; MediaSettled]
               (mkCall (new_browser true true) (mount false)) in
  exists c1 c2 : Call,
    click toggleMute c = Ok c1 /\
    click toggleMute c1 = Ok c2 /\
    track_enabled (env c1) 0 = negb (track_enabled (env c) 0) /\
    isMuted (st (me c1)) = negb (track_enabled (env c1) 0) /\
    track_enabled (env c2) 0 = track_enabled (env c) 0 /\
    isMuted (st (me c2)) = negb (track_enabled (env c2) 0).
Proof.
  apply (mute_round_trip
           (run [SetOpen true; MediaSettled]
                (mkCall (new_browser true true) (mount false)))
           (mkStream [0]) 0); reflexivity.
Defined.

(** ** What stopping and closing leave alone *)

Lemma track_stop_frame (t : nat) (b : Browser) :
  pcs (track_stop t b) = pcs b /\
  device_ok (track_stop t b) = device_ok b /\
  screen_ok (track_stop t b) = screen_ok b /\
  outbox (track_stop t b) = outbox b /\
  length (tracks (track_stop t b)) = length (tracks b).
Proof.
  unfold track_stop. destruct (tracks b !! t) as [tr|]; [|done].
  destruct (readyState tr); simpl; rewrite ?length_insert; done.
Qed.

Lemma stop_all_frame (ts : list nat) (b : Browser) :
  pcs (stop_all ts b) = pcs b /\
  device_ok (stop_all ts b) = device_ok b /\
  screen_ok (stop_all ts b) = screen_ok b /\
  outbox (stop_all ts b) = outbox b /\
  length (tracks (stop_all ts b)) = length (tracks b).
Proof.
  revert b. induction ts as [|t ts IH]; intros b; [done|].
  unfold stop_all in *. simpl.
  destruct (IH (track_stop t b)) as (-> & -> & -> & -> & ->).
  apply track_stop_frame.
Qed.

Lemma pc_close_frame (p : nat) (b : Browser) :
  tracks (pc_close p b) = tracks b /\
  device_ok (pc_close p b) = device_ok b /\
  screen_ok (pc_close p b) = screen_ok b /\
  outbox (pc_close p b) = outbox b /\
  length (pcs (pc_close p b)) = length (pcs b).
Proof.
  unfold pc_close. destruct (pcs b !! p) as [c|]; [|done].
  destruct (closed c); simpl; rewrite ?length_insert; done.
Qed.

Lemma cleanup_env_eq (r : ModalState) (c : Call) :
  env (cleanup r c) = cleanup_env r (env c).
Proof. reflexivity. Qed.

Lemma cleanup_st (r : ModalState) (c : Call) :
  st (me (cleanup r c)) =
  mkModal None None (isMuted (st (me c))) (isVideoEnabled (st (me c)))
          (isScreenSharing (st (me c))) None.
Proof. reflexivity. Qed.

Lemma cleanup_env_frame (r : ModalState) (b : Browser) :
  device_ok (cleanup_env r b) = device_ok b /\
  screen_ok (cleanup_env r b) = screen_ok b /\
  outbox (cleanup_env r b) = outbox b /\
  length (tracks (cleanup_env r b)) = length (tracks b) /\
  length (pcs (cleanup_env r b)) = length (pcs b).
Proof.
  unfold cleanup_env.
  set (b1 := match localStream r with
             | Some s => stop_all (stream_tracks s) b
             | None => b
             end).
  assert (pcs b1 = pcs b /\ device_ok b1 = device_ok b /\
          screen_ok b1 = screen_ok b /\ outbox b1 = outbox b /\
          length (tracks b1) = length (tracks b)) as (H1 & H2 & H3 & H4 & H5).
  { subst b1. destruct (localStream r); [apply stop_all_frame|done]. }
  destruct (peerConnection r) as [p|].
  - destruct (pc_close_frame p b1) as (-> & -> & -> & -> & ->).
    rewrite H1. done.
  - rewrite H1. done.
Qed.

(** ** Candidate discovery *)

(** C1 does not hold: the connection of a started video call discovers a
    candidate, the callback runs, and the candidate is not sent. *)
Lemma discovered_candidate_not_forwarded :
  ~ forwarded "candidate:0 1 UDP 2122252543 192.0.2.1 54321 typ host"
      (env (handle (IceCandidate 0
                      (Some "candidate:0 1 UDP 2122252543 192.0.2.1 54321 typ host"))
                   (started_call true))).
Proof.
  unfold forwarded. vm_compute. intros H. inversion H.
Qed.

(** C1 as amended.  When the callback runs with a candidate, the candidate
    is written to the console, and nothing else happens: nothing is sent,
    the stores and the component are unchanged.  With no candidate (the end
    of gathering) the callback does nothing. *)
Theorem candidate_logged_not_sent (p : nat) (pc : PeerConnection)
    (k : Candidate) (c : Call) :
  pcs (env c) !! p = Some pc ->
  onicecandidate pc = true ->
  let c' := handle (IceCandidate p (Some k)) c in
  trace (env c') = trace (env c) ++ [ConsoleLog "ICE candidate:" k] /\
  outbox (env c') = outbox (env c) /\
  tracks (env c') = tracks (env c) /\
  pcs (env c') = pcs (env c) /\
  me c' = me c /\
  handle (IceCandidate p None) c = c.
Proof.
  intros Hp Hreg. simpl. unfold fire_icecandidate. rewrite Hp, Hreg.
  simpl. done.
Qed.

Lemma candidate_logged_not_sent_witness :
  let c := started_call true in
  let c' := handle (IceCandidate 0 (Some "candidate:0")) c in
  trace (env c') = trace (env c) ++ [ConsoleLog "ICE candidate:" "candidate:0"] /\
  outbox (env c') = outbox (env c) /\
  tracks (env c') = tracks (env c) /\
  pcs (env c') = pcs (env c) /\
  me c' = me c /\
  handle (IceCandidate 0 None) c = c.
Proof.
  apply (candidate_logged_not_sent 0
           (mkPC stun_servers [Some 0; Some 1] false true true None [])
           "candidate:0" (started_call true)); reflexivity.
Defined.

(** ** Media acquisition *)

Lemma addTrack_fresh (p t : nat) (c : PeerConnection) (b : Browser) :
  pcs b !! p = Some c ->
  closed c = false ->
  Some t ∉ senders c ->
  addTrack p t b =
  (emit [AddTrack p t]
        (set_pcs (<[p := set_senders (senders c ++ [Some t]) c]> (pcs b)) b),
   None).
Proof.
  intros Hp Hc Hn. unfold addTrack. rewrite Hp, Hc.
  rewrite bool_decide_eq_false_2 by exact Hn. reflexivity.
Qed.

Lemma addTrack_tracks (p t : nat) (b : Browser) :
  tracks (addTrack p t b).1 = tracks b /\
  outbox (addTrack p t b).1 = outbox b /\
  device_ok (addTrack p t b).1 = device_ok b /\
  screen_ok (addTrack p t b).1 = screen_ok b.
Proof.
  unfold addTrack. destruct (pcs b !! p) as [c|]; [|done].
  destruct (closed c); [done|]. case_bool_decide; done.
Qed.

Lemma addTracks_tracks (p : nat) (ts : list nat) (b : Browser) :
  tracks (addTracks p ts b).1 = tracks b /\
  outbox (addTracks p ts b).1 = outbox b /\
  device_ok (addTracks p ts b).1 = device_ok b /\
  screen_ok (addTracks p ts b).1 = screen_ok b.
Proof.
  revert b. induction ts as [|t ts IH]; intros b; [done|]. simpl.
  pose proof (addTrack_tracks p t b) as Ht.
  destruct (addTrack p t b) as [b' [e|]]; [exact Ht|].
  destruct (IH b') as (-> & -> & -> & ->). exact Ht.
Qed.

Lemma initializeCall_resume_tracks (o : JsError + MediaStream) (c : Call) :
  tracks (env (initializeCall_resume o c)) = tracks (env c) /\
  outbox (env (initializeCall_resume o c)) = outbox (env c).
Proof.
  unfold initializeCall_resume. destruct o as [e|stream]; [done|]. simpl.
  match goal with |- context [addTracks ?p ?l ?b] =>
    pose proof (addTracks_tracks p l b) as (Ht & Ho & _);
    destruct (addTracks p l b) as [b3 [e|]] end; simpl in *;
    rewrite Ht, Ho; done.
Qed.

Lemma initializeCall_resume_stream (stream : MediaStream) (c : Call) :
  localStream (st (me (initializeCall_resume (inr stream) c))) = Some stream.
Proof.
  unfold initializeCall_resume. simpl.
  match goal with |- context [addTracks ?p ?l ?b] =>
    destruct (addTracks p l b) as [b3 [e|]] end; reflexivity.
Qed.

(** C9.  [initializeCall] asks for [{video: isVideoCall, audio: true}]:
    camera and microphone for a video call, the microphone alone for an
    audio call.  When the device is granted, the stream stored as
    [localStream] has one audio track, and a video track exactly for a video
    call; after an audio call's acquisition it has none. *)
Theorem acquisition_constraints (c : Call) :
  awaiting (me c) = [] ->
  device_ok (env c) = true ->
  let c1 := initializeCall c in
  let c2 := media_settled c1 in
  let n := length (tracks (env c)) in
  trace (env c1) = trace (env c) ++ [GetUserMedia (isVideoCall (me c)) true] /\
  awaiting (me c1) = [(isVideoCall (me c), true)] /\
  exists s : MediaStream,
    localStream (st (me c2)) = Some s /\
    getAudioTracks (env c2) s = [n] /\
    getVideoTracks (env c2) s = if isVideoCall (me c) then [S n] else [].
Proof.
  destruct c as [[ts ps d sc tr ob] [o v s er aw]]. simpl.
  intros -> ->. split; [reflexivity|]. split; [reflexivity|].
  unfold media_settled, initializeCall, getUserMedia_settle.
  cbn -[initializeCall_resume].
  eexists. split; [apply initializeCall_resume_stream|].
  unfold getAudioTracks, getVideoTracks, has_kind.
  rewrite (proj1 (initializeCall_resume_tracks _ _)). simpl.
  rewrite list_lookup_middle by reflexivity. simpl.
  destruct v; simpl; [|done].
  rewrite lookup_app_r by lia.
  replace (S (length ts) - length ts) with 1 by lia. done.
Qed.

Lemma acquisition_constraints_witness :
  let c := with_isOpen true (mkCall (new_browser true true) (mount false)) in
  let c1 := initializeCall c in
  let c2 := media_settled c1 in
  trace (env c1) = trace (env c) ++ [GetUserMedia false true] /\
  awaiting (me c1) = [(false, true)] /\
  exists s : MediaStream,
    localStream (st (me c2)) = Some s /\
    getAudioTracks (env c2) s = [0] /\
    getVideoTracks (env c2) s = [].
Proof.
  apply (acquisition_constraints
           (with_isOpen true (mkCall (new_browser true true) (mount false))));
    reflexivity.
Defined.

Lemma phase_Idle_inv (c : Call) :
  phase c = Idle ->
  awaiting (me c) = [] /\ isOpen (me c) = false /\
  localStream (st (me c)) = None /\ remoteStream (st (me c)) = None /\
  peerConnection (st (me c)) = None.
Proof.
  unfold phase. destruct (awaiting (me c)); [|discriminate].
  destruct (remoteStream (st (me c))); [discriminate|].
  destruct (peerConnection (st (me c))); [discriminate|].
  destruct (localStream (st (me c))); [discriminate|].
  destruct (isOpen (me c)); [discriminate|]. done.
Qed.

(** C6.  The dialog is opened on an idle component and the device is
    refused.  The component is requesting while the acquisition is in
    flight and ended once it has failed; no connection is created, nothing
    is sent, and after whatever the effect's [cleanup] did, the only
    effects are the request, the console error and the error toast. *)
Theorem device_denied (c : Call) :
  phase c = Idle ->
  device_ok (env c) = false ->
  let c1 := handle (SetOpen true) c in
  let c2 := handle MediaSettled c1 in
  phase c1 = Requesting /\
  phase c2 = Ended /\
  length (pcs (env c1)) = length (pcs (env c)) /\
  length (pcs (env c2)) = length (pcs (env c)) /\
  outbox (env c1) = outbox (env c) /\
  outbox (env c2) = outbox (env c) /\
  trace (env c2) =
    trace (cleanup_env (effect_render (me c)) (env c)) ++
    [GetUserMedia (isVideoCall (me c)) true;
     ConsoleError "Error initializing call:" NotAllowedError;
     ToastShown (error_toast "Failed to access camera/microphone")].
Proof.
  intros Hidle Hdev.
  destruct (phase_Idle_inv c Hidle) as (Haw & Hop & Hl & Hr & Hp).
  destruct c as [b [o v s er aw]]. simpl in *. subst o aw.
  destruct (cleanup_env_frame er b) as (Hd & _ & Hob & _ & Hlen).
  unfold set_isOpen, media_settled, phase. simpl.
  unfold getUserMedia_settle. simpl. fold (cleanup_env er b).
  rewrite Hd, Hdev. simpl. fold (cleanup_env er b).
  rewrite Hob, Hlen, <- app_assoc. done.
Qed.

Lemma device_denied_witness :
  let c := mkCall (new_browser false true) (mount true) in
  let c1 := handle (SetOpen true) c in
  let c2 := handle MediaSettled c1 in
  phase c1 = Requesting /\
  phase c2 = Ended /\
  length (pcs (env c1)) = length (pcs (env c)) /\
  length (pcs (env c2)) = length (pcs (env c)) /\
  outbox (env c1) = outbox (env c) /\
  outbox (env c2) = outbox (env c) /\
  trace (env c2) =
    [GetUserMedia true true;
     ConsoleError "Error initializing call:" NotAllowedError;
     ToastShown (error_toast "Failed to access camera/microphone")].
Proof.
  apply (device_denied (mkCall (new_browser false true) (mount true)));
    reflexivity.
Defined.

(** ** Hanging up *)

Lemma released_emit (es : list Effect) (b : Browser) (t : nat) :
  released (emit es b) t =
  released b t + count_occ Effect_eq_dec es (DeviceReleased t).
Proof. unfold released. simpl. apply count_occ_app. Qed.

Lemma closings_emit (es : list Effect) (b : Browser) (p : nat) :
  closings (emit es b) p =
  closings b p + count_occ Effect_eq_dec es (ConnectionClosed p).
Proof. unfold closings. simpl. apply count_occ_app. Qed.

Ltac count_effects :=
  repeat match goal with
         | |- context [count_occ _ (?e :: _) ?x] =>
             first [ rewrite (count_occ_cons_neq Effect_eq_dec _ (x:=e) (y:=x))
                       by congruence
                   | rewrite (count_occ_cons_eq Effect_eq_dec _ (x:=e) (y:=x))
                       by congruence ]
         | |- context [count_occ _ [] _] => rewrite count_occ_nil
         end;
  unfold released, closings; simpl.

Lemma track_stop_released (t' t : nat) (b : Browser) :
  released (track_stop t' b) t =
  released b t + (if bool_decide (t' = t) && is_live b t then 1 else 0).
Proof.
  unfold track_stop, is_live. case_bool_decide as Heq.
  - subst t'. destruct (tracks b !! t) as [tr|]; [|simpl; lia].
    destruct (readyState tr); rewrite released_emit; count_effects; simpl; lia.
  - destruct (tracks b !! t') as [tr|]; [|simpl; lia].
    destruct (readyState tr); rewrite released_emit; count_effects; simpl; lia.
Qed.

Lemma track_stop_is_live (t' t : nat) (b : Browser) :
  is_live (track_stop t' b) t = is_live b t && negb (bool_decide (t' = t)).
Proof.
  unfold track_stop, is_live. case_bool_decide as Heq.
  - subst t'. destruct (tracks b !! t) as [tr|] eqn:Ht; [|rewrite Ht; done].
    destruct (readyState tr) eqn:Hr; simpl.
    + rewrite list_lookup_insert_eq by (eapply lookup_lt_Some; exact Ht).
      simpl. done.
    + rewrite Ht, Hr. done.
  - rewrite andb_true_r.
    destruct (tracks b !! t') as [tr|] eqn:Ht; [|done].
    destruct (readyState tr); simpl; [|done].
    rewrite list_lookup_insert_ne by done. done.
Qed.

Lemma track_stop_closings (t' p : nat) (b : Browser) :
  closings (track_stop t' b) p = closings b p /\
  is_open (track_stop t' b) p = is_open b p.
Proof.
  unfold track_stop, is_open.
  destruct (tracks b !! t') as [tr|]; [|done].
  destruct (readyState tr); rewrite closings_emit; count_effects; simpl;
    split; (lia || done).
Qed.

Lemma stop_all_released (ts : list nat) (t : nat) (b : Browser) :
  released (stop_all ts b) t =
  released b t + (if bool_decide (t ∈ ts) && is_live b t then 1 else 0) /\
  is_live (stop_all ts b) t = is_live b t && negb (bool_decide (t ∈ ts)).
Proof.
  revert b. induction ts as [|t' ts IH]; intros b.
  - simpl. rewrite andb_true_r. split; [lia|done].
  - unfold stop_all in *. simpl.
    destruct (IH (track_stop t' b)) as [-> ->].
    rewrite track_stop_released, track_stop_is_live.
    destruct (decide (t' = t)) as [->|Hne].
    + rewrite (bool_decide_eq_true_2 (t = t)) by done.
      rewrite (bool_decide_eq_true_2 (t ∈ t :: ts)) by apply list_elem_of_here.
      simpl. rewrite !andb_false_r. simpl.
      destruct (is_live b t); split; (lia || done).
    + rewrite (bool_decide_eq_false_2 (t' = t)) by done. simpl.
      rewrite andb_true_r.
      rewrite (bool_decide_ext (t ∈ t' :: ts) (t ∈ ts)).
      2:{ rewrite elem_of_cons. split; [intros [E|E]; [congruence|exact E]|auto]. }
      split; [lia|done].
Qed.

Lemma stop_all_closings (ts : list nat) (p : nat) (b : Browser) :
  closings (stop_all ts b) p = closings b p /\
  is_open (stop_all ts b) p = is_open b p.
Proof.
  revert b. induction ts as [|t' ts IH]; intros b; [done|].
  unfold stop_all in *. simpl.
  destruct (IH (track_stop t' b)) as [-> ->]. apply track_stop_closings.
Qed.

Lemma pc_close_released (p : nat) (t : nat) (b : Browser) :
  released (pc_close p b) t = released b t /\
  is_live (pc_close p b) t = is_live b t.
Proof.
  unfold pc_close, is_live. destruct (pcs b !! p) as [c|]; [|done].
  destruct (closed c); rewrite released_emit; count_effects; simpl;
    split; (lia || done).
Qed.

Lemma pc_close_closings (p' p : nat) (b : Browser) :
  closings (pc_close p' b) p =
  closings b p + (if bool_decide (p' = p) && is_open b p then 1 else 0) /\
  is_open (pc_close p' b) p = is_open b p && negb (bool_decide (p' = p)).
Proof.
  unfold pc_close, is_open. case_bool_decide as Heq.
  - subst p'. destruct (pcs b !! p) as [c|] eqn:Hp; [|rewrite Hp; simpl; split; [lia|done]].
    destruct (closed c) eqn:Hc; rewrite closings_emit; count_effects; simpl.
    + rewrite Hp, Hc. simpl. split; [lia|done].
    + rewrite list_lookup_insert_eq by (eapply lookup_lt_Some; exact Hp).
      simpl. split; [lia|done].
  - rewrite andb_true_r.
    destruct (pcs b !! p') as [c|] eqn:Hp; [|simpl; split; [lia|done]].
    destruct (closed c); rewrite closings_emit; count_effects; simpl.
    + split; [lia|done].
    + rewrite list_lookup_insert_ne by done. split; [lia|done].
Qed.

(** What one [cleanup] does to a track and to a connection: the device of
    a track is released if the track is live and belongs to the stream of the
    render, and not otherwise; likewise for the connection of the render. *)
Lemma cleanup_env_released (r : ModalState) (t : nat) (b : Browser) :
  released (cleanup_env r b) t =
  released b t +
  (if bool_decide (t ∈ render_tracks r) && is_live b t then 1 else 0) /\
  is_live (cleanup_env r b) t =
  is_live b t && negb (bool_decide (t ∈ render_tracks r)).
Proof.
  unfold cleanup_env, render_tracks.
  set (b1 := match localStream r with
             | Some s => stop_all (stream_tracks s) b
             | None => b
             end).
  assert (released b1 t =
          released b t +
          (if bool_decide (t ∈ match localStream r with
                               | Some s => stream_tracks s
                               | None => []
                               end) && is_live b t then 1 else 0) /\
          is_live b1 t =
          is_live b t && negb (bool_decide (t ∈ match localStream r with
                                                | Some s => stream_tracks s
                                                | None => []
                                                end))) as [H1 H2].
  { subst b1. destruct (localStream r) as [s|]; [apply stop_all_released|].
    rewrite bool_decide_eq_false_2 by apply not_elem_of_nil.
    simpl. rewrite andb_true_r. split; [lia|done]. }
  destruct (peerConnection r) as [p|]; [|done].
  destruct (pc_close_released p t b1) as [-> ->]. done.
Qed.

Lemma cleanup_env_closings (r : ModalState) (p : nat) (b : Browser) :
  closings (cleanup_env r b) p =
  closings b p +
  (if bool_decide (peerConnection r = Some p) && is_open b p then 1 else 0) /\
  is_open (cleanup_env r b) p =
  is_open b p && negb (bool_decide (peerConnection r = Some p)).
Proof.
  unfold cleanup_env.
  set (b1 := match localStream r with
             | Some s => stop_all (stream_tracks s) b
             | None => b
             end).
  assert (closings b1 p = closings b p /\ is_open b1 p = is_open b p)
    as [H1 H2].
  { subst b1. destruct (localStream r); [apply stop_all_closings|done]. }
  destruct (peerConnection r) as [p'|].
  - destruct (pc_close_closings p' p b1) as [-> ->]. rewrite H1, H2.
    rewrite (bool_decide_ext (Some p' = Some p) (p' = p))
      by (split; congruence).
    done.
  - rewrite bool_decide_eq_false_2 by done. simpl. rewrite andb_true_r.
    split; [lia|done].
Qed.

Lemma cleanup_env_ended (r : ModalState) (t : nat) (b : Browser) :
  is_live b t = false ->
  released (cleanup_env r b) t = released b t /\
  is_live (cleanup_env r b) t = false.
Proof.
  intros H. destruct (cleanup_env_released r t b) as [-> ->].
  rewrite H, andb_false_r. simpl. split; [lia|done].
Qed.

Lemma cleanup_env_closed (r : ModalState) (p : nat) (b : Browser) :
  is_open b p = false ->
  closings (cleanup_env r b) p = closings b p /\
  is_open (cleanup_env r b) p = false.
Proof.
  intros H. destruct (cleanup_env_closings r p b) as [-> ->].
  rewrite H, andb_false_r. simpl. split; [lia|done].
Qed.

Lemma set_isOpen_false_env (c : Call) :
  env (set_isOpen false c) =
  if isOpen (me c) then cleanup_env (effect_render (me c)) (env c) else env c.
Proof.
  unfold set_isOpen. destruct (isOpen (me c)); reflexivity.
Qed.

Lemma set_isOpen_false_isOpen (c : Call) :
  isOpen (me (set_isOpen false c)) = false.
Proof.
  unfold set_isOpen. destruct (isOpen (me c)) eqn:H; simpl; [done|exact H].
Qed.

Lemma endCall_when_closed (r : ModalState) (c : Call) :
  isOpen (me c) = false -> endCall r c = cleanup r c.
Proof.
  intros H. unfold endCall, onClose, set_isOpen. simpl. rewrite H. reflexivity.
Qed.

(** C2.  A call holds a stream with a live track [t] and an open
    connection [p].  The user hangs up, and [cleanup] is then entered a
    second time, from any render at all (the hang-up handler again, the
    effect's teardown, any other teardown).  The device behind [t] is
    released once and the connection goes from open to closed once, after
    the first hang-up and still after the second; the second hang-up is
    nothing but that second [cleanup], which like the first always returns.
    A second click on the button, which runs the handler of the new render,
    does not even call [stop] or [close]: the browser is untouched. *)
Theorem hangup_twice (c : Call) (r2 : ModalState) (s : MediaStream)
    (t p : nat) :
  localStream (st (me c)) = Some s ->
  t ∈ stream_tracks s ->
  is_live (env c) t = true ->
  peerConnection (st (me c)) = Some p ->
  is_open (env c) p = true ->
  let c1 := click endCall c in
  let c2 := endCall r2 c1 in
  released (env c1) t = S (released (env c) t) /\
  closings (env c1) p = S (closings (env c) p) /\
  c2 = cleanup r2 c1 /\
  released (env c2) t = S (released (env c) t) /\
  closings (env c2) p = S (closings (env c) p) /\
  is_live (env c2) t = false /\
  is_open (env c2) p = false /\
  env (click endCall c1) = env c1.
Proof.
  intros Hs Ht Hlive Hp Hopen c1 c2.
  assert (released (env c1) t = S (released (env c) t) /\
          is_live (env c1) t = false /\
          closings (env c1) p = S (closings (env c) p) /\
          is_open (env c1) p = false) as (R1 & L1 & C1 & O1).
  { subst c1. unfold click, endCall, onClose.
    rewrite set_isOpen_false_env. simpl.
    fold (cleanup_env (st (me c)) (env c)).
    destruct (cleanup_env_released (st (me c)) t (env c)) as [Ra La].
    destruct (cleanup_env_closings (st (me c)) p (env c)) as [Ca Oa].
    unfold render_tracks in Ra, La. rewrite Hs in Ra, La.
    rewrite Hp in Ca, Oa.
    rewrite bool_decide_eq_true_2 in Ra, La by exact Ht.
    rewrite bool_decide_eq_true_2 in Ca, Oa by reflexivity.
    rewrite Hlive in Ra, La. rewrite Hopen in Ca, Oa. simpl in *.
    destruct (isOpen (me c)).
    - destruct (cleanup_env_ended (effect_render (me c)) t _ La) as [-> ->].
      destruct (cleanup_env_closed (effect_render (me c)) p _ Oa) as [-> ->].
      repeat split; lia.
    - repeat split; (lia || assumption). }
  assert (c2 = cleanup r2 c1) as E.
  { subst c2. apply endCall_when_closed. subst c1.
    apply set_isOpen_false_isOpen. }
  split; [exact R1|]. split; [exact C1|]. split; [exact E|].
  assert (env (click endCall c1) = env c1) as E'.
  { assert (localStream (st (me c1)) = None /\
            peerConnection (st (me c1)) = None) as [Hl1 Hp1].
    { subst c1. unfold click, endCall, onClose, set_isOpen.
      case_bool_decide; simpl; done. }
    unfold click. rewrite endCall_when_closed
      by (subst c1; apply set_isOpen_false_isOpen).
    rewrite cleanup_env_eq. unfold cleanup_env. rewrite Hl1, Hp1.
    reflexivity. }
  rewrite E, cleanup_env_eq.
  destruct (cleanup_env_ended r2 t _ L1) as [-> ->].
  destruct (cleanup_env_closed r2 p _ O1) as [-> ->].
  auto 10.
Qed.

Lemma hangup_twice_witness :
  let c := started_call true in
  let c1 := click endCall c in
  let c2 := endCall (st (me c)) c1 in
  released (env c1) 1 = S (released (env c) 1) /\
  closings (env c1) 0 = S (closings (env c) 0) /\
  c2 = cleanup (st (me c)) c1 /\
  released (env c2) 1 = S (released (env c) 1) /\
  closings (env c2) 0 = S (closings (env c) 0) /\
  is_live (env c2) 1 = false /\
  is_open (env c2) 0 = false /\
  env (click endCall c1) = env c1.
Proof.
  apply (hangup_twice (started_call true) (st (me (started_call true)))
                      (mkStream [0; 1]) 1 0).
  - reflexivity.
  - vm_compute. apply list_elem_of_In. simpl. auto.
  - reflexivity.
  - reflexivity.
  - reflexivity.
Defined.

(** ** The invariants hold in every reachable state *)

Lemma grows_refl (b : Browser) : grows b b.
Proof.
  split.
  - intros t tr H. exists tr. auto.
  - intros t tr' H1 H2. congruence.
  - intros p pc H. exists pc. auto.
  - intros p pc' H1 H2. congruence.
Qed.

Lemma grows_trans (b1 b2 b3 : Browser) :
  grows b1 b2 -> grows b2 b3 -> grows b1 b3.
Proof.
  intros [K1 N1 P1 Q1] [K2 N2 P2 Q2]. split.
  - intros t tr H. destruct (K1 t tr H) as (tr2 & H2 & Hk & Ho).
    destruct (K2 t tr2 H2) as (tr3 & H3 & Hk3 & Ho3).
    exists tr3. repeat split; congruence.
  - intros t tr3 H3 H1. destruct (tracks b2 !! t) as [tr2|] eqn:H2.
    + destruct (K2 t tr2 H2) as (tr3' & H3' & _ & Ho).
      rewrite H3 in H3'. injection H3' as <-. rewrite Ho. eauto.
    + eauto.
  - intros p pc H. destruct (P1 p pc H) as (pc2 & H2 & Hs).
    destruct (P2 p pc2 H2) as (pc3 & H3 & Hs3).
    exists pc3. split; congruence.
  - intros p pc3 H3 H1. destruct (pcs b2 !! p) as [pc2|] eqn:H2.
    + destruct (P2 p pc2 H2) as (pc3' & H3' & Hs).
      rewrite H3 in H3'. injection H3' as <-. rewrite Hs. eauto.
    + eauto.
Qed.

Lemma has_kind_grows (b b' : Browser) (k : TrackKind) (t : nat) :
  grows b b' -> t < length (tracks b) -> has_kind b' k t = has_kind b k t.
Proof.
  intros G Ht. unfold has_kind.
  destruct (lookup_lt_is_Some_2 _ _ Ht) as [tr Htr].
  destruct (grows_track _ _ G t tr Htr) as (tr' & -> & -> & _).
  rewrite Htr. reflexivity.
Qed.

Lemma is_video_sender_grows (b b' : Browser) (s : option nat) :
  grows b b' ->
  (forall t, s = Some t -> t < length (tracks b)) ->
  is_video_sender b' s = is_video_sender b s.
Proof.
  intros G H. destruct s as [t|]; [|reflexivity].
  simpl. apply has_kind_grows; auto.
Qed.

Lemma grows_video_slots (b b' : Browser) (p : nat) :
  grows b b' -> senders_exist b -> is_Some (pcs b !! p) ->
  video_slots b' p = video_slots b p.
Proof.
  intros G W [pc Hp]. unfold video_slots.
  destruct (grows_pc _ _ G p pc Hp) as (pc' & -> & ->). rewrite Hp.
  f_equal. apply List.filter_ext_in. intros s Hin.
  apply is_video_sender_grows; [exact G|].
  intros t ->. apply (W p pc t Hp). apply list_elem_of_In. exact Hin.
Qed.

Lemma is_video_at_grows (b b' : Browser) (r : SenderRef) :
  grows b b' -> senders_exist b ->
  is_video_at b r = true -> is_video_at b' r = true.
Proof.
  intros G W. unfold is_video_at, sender_track.
  destruct (pcs b !! sr_pc r) as [pc|] eqn:Hp; [|discriminate].
  destruct (grows_pc _ _ G _ pc Hp) as (pc' & -> & ->).
  destruct (senders pc !! sr_idx r) as [[t|]|] eqn:Hs; simpl; try discriminate.
  intros H. rewrite (has_kind_grows b b'); [exact H|exact G|].
  apply (W _ pc t Hp). eapply list_elem_of_lookup_2. exact Hs.
Qed.

Lemma grows_wf (b b' : Browser) : grows b b' -> wf b -> wf b'.
Proof.
  intros G [W J]. split.
  - intros p pc' t Hp Ht.
    destruct (pcs b !! p) as [pc|] eqn:Hpb.
    + destruct (grows_pc _ _ G p pc Hpb) as (pc2 & Hp2 & Hs).
      rewrite Hp in Hp2. injection Hp2 as <-. rewrite Hs in Ht.
      pose proof (W p pc t Hpb Ht) as Hlt.
      destruct (lookup_lt_is_Some_2 _ _ Hlt) as [tr Htr].
      destruct (grows_track _ _ G t tr Htr) as (tr' & Htr' & _).
      eapply lookup_lt_Some. exact Htr'.
    + rewrite (grows_pc_new _ _ G p pc' Hp Hpb) in Ht.
      apply elem_of_nil in Ht. contradiction.
  - intros t tr' h r Ht Hh Hr.
    destruct (tracks b !! t) as [tr|] eqn:Htb.
    + destruct (grows_track _ _ G t tr Htb) as (tr2 & Ht2 & _ & Ho).
      rewrite Ht in Ht2. injection Ht2 as <-.
      apply (is_video_at_grows b b'); [exact G|exact W|].
      apply (J t tr h r Htb); congruence.
    + rewrite (grows_track_new _ _ G t tr' Ht Htb) in Hh. discriminate.
Qed.

Lemma grows_length (b b' : Browser) :
  grows b b' -> length (tracks b) <= length (tracks b').
Proof.
  intros G. destruct (length (tracks b)) as [|n] eqn:E; [lia|].
  assert (n < length (tracks b)) as Hn by lia.
  destruct (lookup_lt_is_Some_2 _ _ Hn) as [tr Htr].
  destruct (grows_track _ _ G n tr Htr) as (tr' & H' & _).
  apply lookup_lt_Some in H'. lia.
Qed.

Lemma grows_is_Some (b b' : Browser) (p : nat) :
  grows b b' -> is_Some (pcs b !! p) -> is_Some (pcs b' !! p).
Proof.
  intros G [pc Hp]. destruct (grows_pc _ _ G p pc Hp) as (pc' & H & _). eauto.
Qed.

Lemma grows_stores (b b1 b2 : Browser) :
  grows b b1 -> tracks b2 = tracks b1 -> pcs b2 = pcs b1 -> grows b b2.
Proof.
  intros [K N P Q] Ht Hp. split; rewrite ?Ht, ?Hp; assumption.
Qed.

Lemma grows_track_update (b : Browser) (t : nat) (tr tr' : Track) :
  tracks b !! t = Some tr -> kind tr' = kind tr -> onended tr' = onended tr ->
  grows b (set_tracks (<[t := tr']> (tracks b)) b).
Proof.
  intros Ht Hk Ho. pose proof (lookup_lt_Some _ _ _ Ht) as Hlt. split; simpl.
  - intros t0 tr0 H0. destruct (decide (t = t0)) as [<-|Hne].
    + rewrite list_lookup_insert_eq by exact Hlt. exists tr'.
      rewrite Ht in H0. injection H0 as <-. auto.
    + rewrite list_lookup_insert_ne by exact Hne. exists tr0. auto.
  - intros t0 tr0 H0 Hnone. destruct (decide (t = t0)) as [<-|Hne].
    + congruence.
    + rewrite list_lookup_insert_ne in H0 by exact Hne. congruence.
  - intros p pc H. exists pc. auto.
  - intros p pc H1 H2. congruence.
Qed.

Lemma grows_track_alter (b : Browser) (t : nat) (f : Track -> Track) :
  (forall tr, kind (f tr) = kind tr /\ onended (f tr) = onended tr) ->
  grows b (set_tracks (alter f t (tracks b)) b).
Proof.
  intros Hf. split; simpl.
  - intros t0 tr0 H0. destruct (decide (t = t0)) as [<-|Hne].
    + rewrite list_lookup_alter_eq, H0. simpl. exists (f tr0).
      destruct (Hf tr0). auto.
    + rewrite list_lookup_alter_ne by exact Hne. exists tr0. auto.
  - intros t0 tr0 H0 Hnone. destruct (decide (t = t0)) as [<-|Hne].
    + rewrite list_lookup_alter_eq, Hnone in H0. discriminate.
    + rewrite list_lookup_alter_ne in H0 by exact Hne. congruence.
  - intros p pc H. exists pc. auto.
  - intros p pc H1 H2. congruence.
Qed.

Lemma grows_tracks_app (b : Browser) (new : list Track) :
  Forall (fun tr => onended tr = None) new ->
  grows b (set_tracks (tracks b ++ new) b).
Proof.
  intros Hnew. split; simpl.
  - intros t tr H. exists tr. rewrite (lookup_app_l_Some _ _ _ _ H). auto.
  - intros t tr' H Hnone. apply lookup_ge_None_1 in Hnone.
    rewrite lookup_app_r in H by exact Hnone.
    rewrite Forall_forall in Hnew. apply Hnew.
    eapply list_elem_of_lookup_2. exact H.
  - intros p pc H. exists pc. auto.
  - intros p pc H1 H2. congruence.
Qed.

Lemma grows_pc_update (b : Browser) (p : nat) (pc pc' : PeerConnection) :
  pcs b !! p = Some pc -> senders pc' = senders pc ->
  grows b (set_pcs (<[p := pc']> (pcs b)) b).
Proof.
  intros Hp Hs. pose proof (lookup_lt_Some _ _ _ Hp) as Hlt. split; simpl.
  - intros t tr H. exists tr. auto.
  - intros t tr H1 H2. congruence.
  - intros p0 pc0 H0. destruct (decide (p = p0)) as [<-|Hne].
    + rewrite list_lookup_insert_eq by exact Hlt. exists pc'.
      rewrite Hp in H0. injection H0 as <-. auto.
    + rewrite list_lookup_insert_ne by exact Hne. exists pc0. auto.
  - intros p0 pc0 H0 Hnone. destruct (decide (p = p0)) as [<-|Hne].
    + congruence.
    + rewrite list_lookup_insert_ne in H0 by exact Hne. congruence.
Qed.

Lemma grows_pc_alter (b : Browser) (p : nat)
    (f : PeerConnection -> PeerConnection) :
  (forall pc, senders (f pc) = senders pc) ->
  grows b (set_pcs (alter f p (pcs b)) b).
Proof.
  intros Hf. split; simpl.
  - intros t tr H. exists tr. auto.
  - intros t tr H1 H2. congruence.
  - intros p0 pc0 H0. destruct (decide (p = p0)) as [<-|Hne].
    + rewrite list_lookup_alter_eq, H0. simpl. exists (f pc0). auto.
    + rewrite list_lookup_alter_ne by exact Hne. exists pc0. auto.
  - intros p0 pc0 H0 Hnone. destruct (decide (p = p0)) as [<-|Hne].
    + rewrite list_lookup_alter_eq, Hnone in H0. discriminate.
    + rewrite list_lookup_alter_ne in H0 by exact Hne. congruence.
Qed.

Lemma grows_pcs_app (b : Browser) (pc0 : PeerConnection) :
  senders pc0 = [] -> grows b (set_pcs (pcs b ++ [pc0]) b).
Proof.
  intros Hs. split; simpl.
  - intros t tr H. exists tr. auto.
  - intros t tr H1 H2. congruence.
  - intros p pc H. exists pc. rewrite (lookup_app_l_Some _ _ _ _ H). auto.
  - intros p pc' H Hnone. apply lookup_ge_None_1 in Hnone.
    rewrite lookup_app_r in H by exact Hnone.
    apply list_elem_of_lookup_2, list_elem_of_singleton in H. congruence.
Qed.

Lemma grows_emit (es : list Effect) (b : Browser) : grows b (emit es b).
Proof. apply (grows_stores b b); [apply grows_refl|reflexivity..]. Qed.

Lemma track_stop_grows (t : nat) (b : Browser) : grows b (track_stop t b).
Proof.
  unfold track_stop. destruct (tracks b !! t) as [tr|] eqn:Ht;
    [|apply grows_refl].
  destruct (readyState tr); [|apply grows_emit].
  eapply grows_stores;
    [apply (grows_track_update b t tr (set_readyState ended tr) Ht)|..];
    reflexivity.
Qed.

Lemma stop_all_grows (ts : list nat) (b : Browser) : grows b (stop_all ts b).
Proof.
  revert b. induction ts as [|t ts IH]; intros b; [apply grows_refl|].
  unfold stop_all in *. simpl.
  eapply grows_trans; [apply track_stop_grows|apply IH].
Qed.

Lemma pc_close_grows (p : nat) (b : Browser) : grows b (pc_close p b).
Proof.
  unfold pc_close. destruct (pcs b !! p) as [c|] eqn:Hp; [|apply grows_refl].
  destruct (closed c); [apply grows_emit|].
  eapply grows_stores;
    [apply (grows_pc_update b p c (set_closed true c) Hp)|..]; reflexivity.
Qed.

Lemma cleanup_env_grows (r : ModalState) (b : Browser) :
  grows b (cleanup_env r b).
Proof.
  unfold cleanup_env.
  eapply grows_trans with
    (b2 := match localStream r with
           | Some s => stop_all (stream_tracks s) b
           | None => b
           end).
  - destruct (localStream r); [apply stop_all_grows|apply grows_refl].
  - destruct (peerConnection r); [apply pc_close_grows|apply grows_refl].
Qed.

Lemma getUserMedia_settle_grows (v a : bool) (b : Browser) :
  grows b (getUserMedia_settle v a b).1.
Proof.
  unfold getUserMedia_settle. destruct (device_ok b); [|apply grows_refl].
  simpl. apply grows_tracks_app. destruct a, v; repeat constructor.
Qed.

Lemma getDisplayMedia_grows (b : Browser) : grows b (getDisplayMedia b).1.
Proof.
  unfold getDisplayMedia. destruct (screen_ok b); simpl; [|apply grows_emit].
  eapply grows_stores;
    [apply (grows_tracks_app b [fresh_track video])|reflexivity..].
  repeat constructor.
Qed.

Lemma newPeerConnection_grows (b : Browser) :
  grows b (newPeerConnection b).1.
Proof.
  unfold newPeerConnection. simpl.
  eapply grows_stores; [apply grows_pcs_app|reflexivity..]. reflexivity.
Qed.

Lemma flip_enabled_grows (t : nat) (b : Browser) : grows b (flip_enabled t b).
Proof. apply grows_track_alter. intros tr. split; reflexivity. Qed.

Lemma preserves_refl (b : Browser) : preserves b b.
Proof. intros H. split; [exact H|]. intros p Hp. split; [exact Hp|reflexivity]. Qed.

Lemma preserves_trans (b1 b2 b3 : Browser) :
  preserves b1 b2 -> preserves b2 b3 -> preserves b1 b3.
Proof.
  intros H12 H23 W1. destruct (H12 W1) as [W2 C2].
  destruct (H23 W2) as [W3 C3]. split; [exact W3|].
  intros p Hp. destruct (C2 p Hp) as [Hp2 E2].
  destruct (C3 p Hp2) as [Hp3 E3]. split; [exact Hp3|congruence].
Qed.

Lemma grows_preserves (b b' : Browser) : grows b b' -> preserves b b'.
Proof.
  intros G W. split; [apply (grows_wf b b' G W)|].
  intros p Hp. split; [apply (grows_is_Some b b' p G Hp)|].
  apply grows_video_slots; [exact G|apply W|exact Hp].
Qed.

Lemma preserves_stores (b b1 b2 : Browser) :
  preserves b b1 -> tracks b2 = tracks b1 -> pcs b2 = pcs b1 ->
  preserves b b2.
Proof.
  intros H Ht Hp W. destruct (H W) as [[W1 J1] C1].
  unfold wf, senders_exist, handlers_video, is_video_at, sender_track,
    video_slots, has_kind, is_video_sender, has_kind in *.
  rewrite Ht, Hp. auto.
Qed.

Lemma has_kind_lt (b : Browser) (k : TrackKind) (t : nat) :
  has_kind b k t = true -> t < length (tracks b).
Proof.
  unfold has_kind. destruct (tracks b !! t) eqn:H; [|discriminate].
  intros _. eapply lookup_lt_Some. exact H.
Qed.

Lemma elem_of_insert_inv {A} (l : list A) (i : nat) (x y : A) :
  x ∈ <[i := y]> l -> x = y \/ x ∈ l.
Proof.
  intros H. apply list_elem_of_lookup in H as [j Hj].
  apply list_lookup_insert_Some in Hj as [(-> & -> & _)|[_ Hj]].
  - left. reflexivity.
  - right. eapply list_elem_of_lookup_2. exact Hj.
Qed.

Lemma length_filter_insert {A} (f : A -> bool) (l : list A) (i : nat)
    (x y : A) :
  l !! i = Some x -> f y = f x ->
  length (List.filter f (<[i := y]> l)) = length (List.filter f l).
Proof.
  revert i. induction l as [|z l IH]; intros i Hi Hf; [discriminate|].
  destruct i as [|i]; simpl in *.
  - injection Hi as ->. rewrite Hf. destruct (f x); reflexivity.
  - destruct (f z); simpl; rewrite (IH i Hi Hf); reflexivity.
Qed.

(** *** addTrack *)

Lemma addTrack_keeps (p' t : nat) (b : Browser) :
  wf b -> t < length (tracks b) ->
  wf (addTrack p' t b).1 /\
  tracks (addTrack p' t b).1 = tracks b /\
  length (pcs (addTrack p' t b).1) = length (pcs b) /\
  forall p, p <> p' -> pcs (addTrack p' t b).1 !! p = pcs b !! p.
Proof.
  intros [W J] Ht. unfold addTrack.
  destruct (pcs b !! p') as [c|] eqn:Hp; [|done].
  destruct (closed c); [done|]. case_bool_decide; [done|]. simpl.
  pose proof (lookup_lt_Some _ _ _ Hp) as Hlt.
  split; [|split; [reflexivity|split; [apply length_insert|]]].
  - split.
    + intros p pc t0 Hpc Ht0. simpl in *.
      destruct (decide (p' = p)) as [<-|Hne].
      * rewrite list_lookup_insert_eq in Hpc by exact Hlt.
        injection Hpc as <-. simpl in Ht0.
        apply elem_of_app in Ht0 as [Ht0|Ht0]; [exact (W p' c t0 Hp Ht0)|].
        apply list_elem_of_singleton in Ht0. injection Ht0 as ->. exact Ht.
      * rewrite list_lookup_insert_ne in Hpc by exact Hne.
        exact (W p pc t0 Hpc Ht0).
    + intros t0 tr h r Ht0 Hh Hr. simpl in Ht0.
      pose proof (J t0 tr h r Ht0 Hh Hr) as Hv.
      unfold is_video_at, sender_track, has_kind in *. simpl.
      destruct (decide (p' = sr_pc r)) as [E|Hne].
      * rewrite <- E in *. rewrite Hp in Hv.
        rewrite list_lookup_insert_eq by exact Hlt. simpl.
        destruct (senders c !! sr_idx r) as [s|] eqn:Hs; [|discriminate].
        rewrite (lookup_app_l_Some _ _ _ _ Hs). exact Hv.
      * rewrite list_lookup_insert_ne by exact Hne. exact Hv.
  - intros p Hne. simpl. apply list_lookup_insert_ne. congruence.
Qed.

Lemma addTracks_keeps (p' : nat) (ts : list nat) (b : Browser) :
  wf b -> Forall (fun t => t < length (tracks b)) ts ->
  wf (addTracks p' ts b).1 /\
  tracks (addTracks p' ts b).1 = tracks b /\
  length (pcs (addTracks p' ts b).1) = length (pcs b) /\
  forall p, p <> p' -> pcs (addTracks p' ts b).1 !! p = pcs b !! p.
Proof.
  revert b. induction ts as [|t ts IH]; intros b Hwf Hts; [done|].
  apply Forall_cons in Hts as [Ht Hts]. simpl.
  destruct (addTrack_keeps p' t b Hwf Ht) as (W1 & T1 & L1 & P1).
  destruct (addTrack p' t b) as [b1 [e|]]; simpl in *; [done|].
  rewrite <- T1 in Hts.
  destruct (IH b1 W1 Hts) as (W2 & T2 & L2 & P2).
  split; [exact W2|]. split; [congruence|]. split; [congruence|].
  intros p Hne. rewrite (P2 p Hne). apply P1. exact Hne.
Qed.

Lemma video_slots_same (b b' : Browser) (p : nat) :
  tracks b' = tracks b -> pcs b' !! p = pcs b !! p ->
  video_slots b' p = video_slots b p.
Proof.
  intros Ht Hp. unfold video_slots, is_video_sender, has_kind.
  rewrite Ht, Hp. reflexivity.
Qed.

(** *** replaceTrack *)

Lemma find_video_sender_video (b : Browser) (pc : option nat) (r : SenderRef) :
  find_video_sender b pc = Some r ->
  pc = Some (sr_pc r) /\ is_video_at b r = true.
Proof.
  unfold find_video_sender. destruct pc as [p|]; [|discriminate].
  destruct (pcs b !! p) as [c|] eqn:Hp; [|discriminate].
  unfold getSenders. destruct (closed c); [discriminate|].
  destruct (list_find _ (senders c)) as [[i s]|] eqn:Hf; [|discriminate].
  intros [= <-]. simpl. split; [reflexivity|].
  apply list_find_Some in Hf as (Hi & Hv & _).
  unfold is_video_at, sender_track. simpl. rewrite Hp, Hi. simpl.
  destruct s as [t|]; [exact Hv|discriminate].
Qed.

Lemma replaceTrack_tracks (r : SenderRef) (v : option nat) (b : Browser) :
  tracks (replaceTrack r v b) = tracks b /\
  outbox (replaceTrack r v b) = outbox b /\
  length (pcs (replaceTrack r v b)) = length (pcs b).
Proof.
  unfold replaceTrack. destruct (pcs b !! sr_pc r) as [c|]; [|done].
  destruct (closed c); [done|]. case_bool_decide; [|done].
  simpl. rewrite length_insert. done.
Qed.

Lemma has_kind_same_tracks (b b' : Browser) (k : TrackKind) (t : nat) :
  tracks b' = tracks b -> has_kind b' k t = has_kind b k t.
Proof. intros H. unfold has_kind. rewrite H. reflexivity. Qed.

Lemma replaceTrack_is_video_at (r r0 : SenderRef) (v : nat) (b : Browser) :
  has_kind b video v = true ->
  is_video_at b r0 = true ->
  is_video_at (replaceTrack r (Some v) b) r0 = true.
Proof.
  intros Hv H0. unfold replaceTrack.
  destruct (pcs b !! sr_pc r) as [c|] eqn:Hp; [|exact H0].
  destruct (closed c); [exact H0|]. case_bool_decide as Hlt; [|exact H0].
  pose proof (lookup_lt_Some _ _ _ Hp) as Hplt.
  unfold is_video_at, sender_track, has_kind in *. simpl.
  destruct (decide (sr_pc r = sr_pc r0)) as [E|Hne].
  - rewrite <- E in *. rewrite Hp in H0.
    rewrite list_lookup_insert_eq by exact Hplt. simpl.
    destruct (decide (sr_idx r = sr_idx r0)) as [E'|Hne'].
    + rewrite <- E'. rewrite list_lookup_insert_eq by exact Hlt. exact Hv.
    + rewrite list_lookup_insert_ne by exact Hne'. exact H0.
  - rewrite list_lookup_insert_ne by exact Hne. exact H0.
Qed.

Lemma replaceTrack_preserves (r : SenderRef) (v : nat) (b : Browser) :
  is_video_at b r = true -> has_kind b video v = true ->
  preserves b (replaceTrack r (Some v) b).
Proof.
  intros Hr Hv.
  pose proof (fun r0 => replaceTrack_is_video_at r r0 v b Hv) as Hat.
  remember (replaceTrack r (Some v) b) as b' eqn:Eb.
  unfold replaceTrack in Eb.
  destruct (pcs b !! sr_pc r) as [c|] eqn:Hp;
    [|subst b'; apply preserves_refl].
  destruct (closed c); [subst b'; apply preserves_refl|].
  case_bool_decide as Hlt; [|subst b'; apply preserves_refl].
  intros [W J].
  pose proof (lookup_lt_Some _ _ _ Hp) as Hplt.
  assert (exists t0, senders c !! sr_idx r = Some (Some t0) /\
                     has_kind b video t0 = true) as (t0 & Hs & Hk0).
  { unfold is_video_at, sender_track in Hr. rewrite Hp in Hr.
    destruct (senders c !! sr_idx r) as [[t0|]|]; simpl in Hr;
      try discriminate. eauto. }
  split; [split|].
  - intros p pc t Hpc Ht. subst b'. simpl in *.
    destruct (decide (sr_pc r = p)) as [<-|Hne].
    + rewrite list_lookup_insert_eq in Hpc by exact Hplt.
      injection Hpc as <-. simpl in Ht.
      apply elem_of_insert_inv in Ht as [Ht|Ht].
      * injection Ht as ->. apply (has_kind_lt b video). exact Hv.
      * exact (W _ c t Hp Ht).
    + rewrite list_lookup_insert_ne in Hpc by exact Hne.
      exact (W p pc t Hpc Ht).
  - intros t tr h r0 Ht Hh Hr0. apply Hat.
    apply (J t tr h r0); [|exact Hh|exact Hr0]. subst b'. exact Ht.
  - intros p Hsome. subst b'. unfold video_slots. simpl.
    destruct (decide (sr_pc r = p)) as [<-|Hne].
    + rewrite list_lookup_insert_eq by exact Hplt. split; [eauto|].
      rewrite Hp. simpl.
      apply (length_filter_insert _ _ _ (Some t0)); [exact Hs|].
      simpl. unfold has_kind in *. simpl. congruence.
    + rewrite list_lookup_insert_ne by exact Hne. split; [exact Hsome|].
      reflexivity.
Qed.

Lemma restore_camera_preserves (b : Browser) (ls : option MediaStream)
    (sender : option SenderRef) :
  (forall r, sender = Some r -> is_video_at b r = true) ->
  preserves b (restore_camera (first_video_track b ls) sender b).
Proof.
  intros Hs. unfold restore_camera.
  destruct (first_video_track b ls) as [t|] eqn:Ht; [|apply preserves_refl].
  destruct sender as [r|]; [|apply preserves_refl].
  apply replaceTrack_preserves; [apply Hs; reflexivity|].
  unfold first_video_track in Ht. destruct ls as [s|]; [|discriminate].
  apply (head_filter_holds _ _ _ Ht).
Qed.

(** *** Assigning [onended] *)

Lemma set_onended_preserves (b : Browser) (vt : nat) (h : EndedHandler) :
  (forall r, eh_sender h = Some r -> is_video_at b r = true) ->
  preserves b (set_tracks (alter (set_onended (Some h)) vt (tracks b)) b).
Proof.
  intros Hh [W J].
  set (b' := set_tracks (alter (set_onended (Some h)) vt (tracks b)) b).
  assert (forall k t, has_kind b' k t = has_kind b k t) as Hk.
  { intros k t. unfold has_kind. simpl.
    destruct (decide (vt = t)) as [<-|Hne].
    - rewrite list_lookup_alter_eq. destruct (tracks b !! vt); reflexivity.
    - rewrite list_lookup_alter_ne by exact Hne. reflexivity. }
  assert (forall r, is_video_at b' r = is_video_at b r) as Hat.
  { intros r. unfold is_video_at, sender_track. simpl.
    destruct (pcs b !! sr_pc r) as [c|]; [|reflexivity].
    destruct (mjoin (senders c !! sr_idx r)); [apply Hk|reflexivity]. }
  split; [split|].
  - intros p pc t Hp Ht. simpl. rewrite length_alter. exact (W p pc t Hp Ht).
  - intros t tr h0 r Ht Hh0 Hr. rewrite Hat. simpl in Ht.
    destruct (decide (vt = t)) as [<-|Hne].
    + rewrite list_lookup_alter_eq in Ht.
      destruct (tracks b !! vt) as [tr0|]; [|discriminate].
      injection Ht as <-. simpl in Hh0. injection Hh0 as <-.
      apply Hh. exact Hr.
    + rewrite list_lookup_alter_ne in Ht by exact Hne.
      exact (J t tr h0 r Ht Hh0 Hr).
  - intros p Hp. split; [exact Hp|]. unfold video_slots. simpl.
    destruct (pcs b !! p) as [c|]; [|reflexivity]. f_equal.
    apply List.filter_ext. intros [t|]; [apply Hk|reflexivity].
Qed.

(** *** Every handler preserves the invariants *)

Lemma cleanup_preserves (r : ModalState) (c : Call) :
  preserves (env c) (env (cleanup r c)).
Proof. rewrite cleanup_env_eq. apply grows_preserves, cleanup_env_grows. Qed.

Lemma set_isOpen_preserves (o : bool) (c : Call) :
  preserves (env c) (env (set_isOpen o c)).
Proof.
  unfold set_isOpen. case_bool_decide; [apply preserves_refl|].
  destruct o; simpl; fold (cleanup_env (effect_render (me c)) (env c)).
  - eapply preserves_trans;
      [apply grows_preserves, cleanup_env_grows|apply grows_preserves, grows_emit].
  - apply grows_preserves, cleanup_env_grows.
Qed.

Lemma initializeCall_resume_preserves (o : JsError + MediaStream) (c : Call) :
  (forall s, o = inr s ->
             Forall (fun t => t < length (tracks (env c))) (stream_tracks s)) ->
  preserves (env c) (env (initializeCall_resume o c)).
Proof.
  intros Ho. unfold initializeCall_resume.
  destruct o as [e|stream]; [apply grows_preserves, grows_emit|].
  specialize (Ho stream eq_refl). simpl.
  set (b2 := emit [NewPeerConnection (length (pcs (env c)))]
                  (set_pcs (pcs (env c) ++
                            [mkPC stun_servers [] false false false None []])
                           (env c))).
  assert (grows (env c) b2) as G2 by exact (newPeerConnection_grows (env c)).
  intros W. pose proof (grows_wf _ _ G2 W) as W2.
  destruct (addTracks_keeps (length (pcs (env c))) (stream_tracks stream) b2
              W2 Ho) as (W3 & T3 & L3 & P3).
  assert (forall p, is_Some (pcs (env c) !! p) ->
                    is_Some (pcs (addTracks (length (pcs (env c)))
                                   (stream_tracks stream) b2).1 !! p) /\
                    video_slots (addTracks (length (pcs (env c)))
                                     (stream_tracks stream) b2).1 p =
                    video_slots (env c) p) as C3.
  { intros p Hp. pose proof (lookup_lt_is_Some_1 _ _ Hp) as Hlt.
    assert (p <> length (pcs (env c))) as Hne by lia.
    destruct (proj2 (grows_preserves _ _ G2 W) p Hp) as [Hp2 E2].
    rewrite <- E2. split.
    - rewrite (P3 p Hne). exact Hp2.
    - apply video_slots_same; [exact T3|exact (P3 p Hne)]. }
  destruct (addTracks (length (pcs (env c))) (stream_tracks stream) b2)
    as [b3 [e|]]; simpl in *.
  - pose proof (grows_preserves _ _ (grows_emit
      [ConsoleError "Error initializing call:" e;
       ToastShown (error_toast "Failed to access camera/microphone")] b3) W3)
      as [W4 C4].
    split; [exact W4|]. intros p Hp. destruct (C3 p Hp) as [Hp3 E3].
    destruct (C4 p Hp3) as [Hp4 E4]. split; [exact Hp4|congruence].
  - pose proof (grows_preserves _ _
      (grows_pc_alter b3 (length (pcs (env c))) set_callbacks
         (fun pc => eq_refl)) W3) as [W4 C4].
    split; [exact W4|]. intros p Hp. destruct (C3 p Hp) as [Hp3 E3].
    destruct (C4 p Hp3) as [Hp4 E4]. split; [exact Hp4|congruence].
Qed.

Lemma getUserMedia_settle_stream (v a : bool) (b : Browser) (s : MediaStream) :
  (getUserMedia_settle v a b).2 = inr s ->
  Forall (fun t => t < length (tracks (getUserMedia_settle v a b).1))
         (stream_tracks s).
Proof.
  unfold getUserMedia_settle. destruct (device_ok b); [|discriminate].
  simpl. intros [= <-]. simpl. apply Forall_forall. intros t Ht.
  apply elem_of_seq in Ht. rewrite length_app. lia.
Qed.

Lemma media_settled_preserves (c : Call) :
  preserves (env c) (env (media_settled c)).
Proof.
  unfold media_settled. destruct (awaiting (me c)) as [|[v a] rest];
    [apply preserves_refl|].
  pose proof (getUserMedia_settle_grows v a (env c)) as G.
  pose proof (getUserMedia_settle_stream v a (env c)) as Hs.
  destruct (getUserMedia_settle v a (env c)) as [b o]. simpl in *.
  eapply preserves_trans; [apply grows_preserves; exact G|].
  apply (initializeCall_resume_preserves o
           (with_awaiting rest (with_env b c))).
  exact Hs.
Qed.

Lemma toggleMute_preserves (r : ModalState) (c : Call) :
  preserves (env c) (env (state_of (toggleMute r c))).
Proof.
  unfold toggleMute. destruct (localStream r) as [s|]; [|apply preserves_refl].
  destruct (head (getAudioTracks (env c) s)); [|apply preserves_refl].
  apply grows_preserves, flip_enabled_grows.
Qed.

Lemma toggleVideo_preserves (r : ModalState) (c : Call) :
  preserves (env c) (env (state_of (toggleVideo r c))).
Proof.
  unfold toggleVideo. destruct (localStream r) as [s|]; [|apply preserves_refl].
  destruct (head (getVideoTracks (env c) s)); [|apply preserves_refl].
  apply grows_preserves, flip_enabled_grows.
Qed.

(** The stream [getDisplayMedia] resolves to has a video track, the new
    one. *)
Lemma getDisplayMedia_stream (b : Browser) (s : MediaStream) :
  (getDisplayMedia b).2 = inr s ->
  head (getVideoTracks (getDisplayMedia b).1 s) = Some (length (tracks b)).
Proof.
  unfold getDisplayMedia. destruct (screen_ok b); [|discriminate].
  simpl. intros [= <-]. unfold getVideoTracks, has_kind. simpl.
  rewrite list_lookup_middle by reflexivity. reflexivity.
Qed.

Lemma screen_onended_preserves (h : EndedHandler) (c : Call) :
  (forall r, eh_sender h = Some r -> is_video_at (env c) r = true) ->
  preserves (env c) (env (screen_onended h c)).
Proof.
  intros H. unfold screen_onended. simpl. apply restore_camera_preserves.
  exact H.
Qed.

Lemma toggleScreenShare_preserves (r : ModalState) (c : Call) :
  preserves (env c) (env (toggleScreenShare r c)).
Proof.
  unfold toggleScreenShare. destruct (isScreenSharing r); simpl.
  - apply restore_camera_preserves. intros r0 Hr0.
    apply (find_video_sender_video _ _ _ Hr0).
  - pose proof (getDisplayMedia_grows (env c)) as G.
    pose proof (getDisplayMedia_stream (env c)) as Hs.
    destruct (getDisplayMedia (env c)) as [b1 o]. simpl in *.
    eapply preserves_trans; [apply grows_preserves; exact G|].
    destruct o as [e|screenStream]; [apply grows_preserves, grows_emit|].
    rewrite (Hs screenStream eq_refl).
    pose proof (head_filter_holds _ _ _ (Hs screenStream eq_refl)) as Hv.
    simpl.
    destruct (find_video_sender b1 (peerConnection r)) as [sr|] eqn:Hf.
    + destruct (find_video_sender_video _ _ _ Hf) as [_ Hat].
      eapply preserves_trans;
        [apply (replaceTrack_preserves sr _ b1 Hat Hv)|].
      apply set_onended_preserves. simpl. intros r0 [= <-].
      apply replaceTrack_is_video_at; assumption.
    + apply set_onended_preserves. simpl. discriminate.
Qed.

Lemma track_ended_preserves (t : nat) (c : Call) :
  preserves (env c) (env (track_ended t c)).
Proof.
  unfold track_ended. destruct (tracks (env c) !! t) as [tr|] eqn:Ht;
    [|apply preserves_refl].
  destruct (readyState tr); [|apply preserves_refl].
  pose proof (grows_track_update (env c) t tr (set_readyState ended tr) Ht
                eq_refl eq_refl) as G.
  destruct (onended tr) as [h|] eqn:Hh; [|apply grows_preserves; exact G].
  set (b1 := set_tracks (<[t:=set_readyState ended tr]> (tracks (env c)))
                        (env c)) in *.
  intros W.
  refine (preserves_trans (env c) b1 _ (grows_preserves _ _ G) _ W).
  apply (screen_onended_preserves h (with_env b1 c)). simpl. intros r Hr.
  apply (is_video_at_grows (env c)); [exact G|apply W|].
  apply (proj2 W t tr h r Ht Hh Hr).
Qed.

Lemma handle_preserves (ev : Event) (c : Call) :
  preserves (env c) (env (handle ev c)).
Proof.
  destruct ev; simpl.
  - apply set_isOpen_preserves.
  - apply media_settled_preserves.
  - unfold fire_track. destruct (pcs (env c) !! p) as [pc|];
      [|apply preserves_refl].
    destruct (ontrack pc); apply preserves_refl.
  - unfold fire_icecandidate. destruct (pcs (env c) !! p) as [pc|];
      [|apply preserves_refl].
    destruct (onicecandidate pc); [|apply preserves_refl].
    destruct cand; [apply grows_preserves, grows_emit|apply preserves_refl].
  - apply toggleMute_preserves.
  - apply toggleVideo_preserves.
  - apply toggleScreenShare_preserves.
  - unfold click, endCall, onClose.
    eapply preserves_trans; [apply cleanup_preserves|apply set_isOpen_preserves].
  - apply track_ended_preserves.
  - apply grows_preserves. apply (grows_stores _ (env c));
      [apply grows_refl|reflexivity..].
  - apply preserves_refl.
Qed.


Lemma new_browser_wf (d s : bool) : wf (new_browser d s).
Proof.
  split.
  - intros p pc t H. discriminate.
  - intros t tr h r H. discriminate.
Qed.


Lemma reachable_run (evs : list Event) (c : Call) :
  reachable c -> reachable (run evs c).
Proof.
  revert c. induction evs as [|ev evs IH]; intros c H; [exact H|].
  unfold run in *. simpl. apply IH. constructor. exact H.
Qed.

Lemma keeps_stream_same (c c' : Call) :
  localStream (st (me c')) = localStream (st (me c)) ->
  length (tracks (env c)) <= length (tracks (env c')) ->
  keeps_stream c c'.
Proof.
  intros Hs Hl H s0 E. rewrite Hs in E. specialize (H s0 E).
  eapply Forall_impl; [exact H|]. simpl. intros t Ht. lia.
Qed.

Lemma keeps_stream_none (c c' : Call) :
  localStream (st (me c')) = None -> keeps_stream c c'.
Proof. intros Hs _ s0 E. congruence. Qed.

Lemma set_isOpen_stream (o : bool) (c : Call) : keeps_stream c (set_isOpen o c).
Proof.
  unfold set_isOpen. case_bool_decide.
  - apply keeps_stream_same; [reflexivity|lia].
  - apply keeps_stream_none. destruct o; reflexivity.
Qed.

Lemma media_settled_stream (c : Call) : keeps_stream c (media_settled c).
Proof.
  unfold media_settled. destruct (awaiting (me c)) as [|[v a] rest].
  - apply keeps_stream_same; [reflexivity|lia].
  - pose proof (getUserMedia_settle_stream v a (env c)) as Hs.
    pose proof (getUserMedia_settle_grows v a (env c)) as G.
    destruct (getUserMedia_settle v a (env c)) as [b o]. simpl in *.
    destruct o as [e|stream].
    + apply keeps_stream_same; [reflexivity|]. simpl.
      apply (grows_length _ _ G).
    + intros _ s0 E. rewrite initializeCall_resume_stream in E.
      injection E as <-.
      rewrite (proj1 (initializeCall_resume_tracks _ _)). simpl.
      apply Hs. reflexivity.
Qed.

Lemma restore_camera_tracks (t : option nat) (s : option SenderRef)
    (b : Browser) :
  tracks (restore_camera t s b) = tracks b /\
  outbox (restore_camera t s b) = outbox b.
Proof.
  unfold restore_camera. destruct t; [|done]. destruct s; [|done].
  destruct (replaceTrack_tracks s (Some n) b) as (-> & -> & _). done.
Qed.

Lemma toggleScreenShare_stream (r : ModalState) (c : Call) :
  keeps_stream c (toggleScreenShare r c).
Proof.
  unfold toggleScreenShare. destruct (isScreenSharing r); simpl.
  - apply keeps_stream_same; [reflexivity|]. simpl.
    rewrite (proj1 (restore_camera_tracks _ _ _)). lia.
  - pose proof (grows_length _ _ (getDisplayMedia_grows (env c))) as Hl.
    destruct (getDisplayMedia (env c)) as [b1 o]. simpl in Hl.
    destruct o as [e|screenStream];
      [apply keeps_stream_same; [reflexivity|exact Hl]|].
    destruct (head (getVideoTracks b1 screenStream));
      destruct (find_video_sender b1 (peerConnection r));
      apply keeps_stream_same; try reflexivity; simpl;
      rewrite ?length_alter, ?(proj1 (replaceTrack_tracks _ _ _)); exact Hl.
Qed.

Lemma track_ended_stream (t : nat) (c : Call) : keeps_stream c (track_ended t c).
Proof.
  unfold track_ended. destruct (tracks (env c) !! t) as [tr|];
    [|apply keeps_stream_same; [reflexivity|lia]].
  destruct (readyState tr); [|apply keeps_stream_same; [reflexivity|lia]].
  destruct (onended tr) as [h|]; apply keeps_stream_same; try reflexivity;
    simpl; rewrite ?(proj1 (restore_camera_tracks _ _ _)); simpl;
    rewrite length_insert; lia.
Qed.

Lemma handle_stream (ev : Event) (c : Call) : keeps_stream c (handle ev c).
Proof.
  destruct ev; simpl.
  - apply set_isOpen_stream.
  - apply media_settled_stream.
  - unfold fire_track. destruct (pcs (env c) !! p) as [pc|];
      [destruct (ontrack pc)|]; apply keeps_stream_same;
      try reflexivity; simpl; lia.
  - unfold fire_icecandidate. destruct (pcs (env c) !! p) as [pc|];
      [destruct (onicecandidate pc); [destruct cand|]|];
      apply keeps_stream_same; try reflexivity; simpl; lia.
  - unfold click, toggleMute. destruct (localStream (st (me c))) as [s|];
      [destruct (head (getAudioTracks (env c) s))|];
      apply keeps_stream_same; try reflexivity; simpl;
      rewrite ?length_alter; lia.
  - unfold click, toggleVideo. destruct (localStream (st (me c))) as [s|];
      [destruct (head (getVideoTracks (env c) s))|];
      apply keeps_stream_same; try reflexivity; simpl;
      rewrite ?length_alter; lia.
  - apply toggleScreenShare_stream.
  - apply keeps_stream_none. unfold click, endCall, onClose, set_isOpen.
    case_bool_decide; reflexivity.
  - apply track_ended_stream.
  - apply keeps_stream_same; [reflexivity|simpl; lia].
  - apply keeps_stream_same; [reflexivity|lia].
Qed.

Lemma reachable_ok (c : Call) : reachable c -> call_ok c.
Proof.
  induction 1 as [d s v|ev c _ [IHw IHs]].
  - split; [apply new_browser_wf|]. intros s0 E. discriminate.
  - split; [apply (handle_preserves ev c IHw)|apply (handle_stream ev c IHs)].
Qed.

(** ** Screen sharing *)








(** *** Tracks that produce video *)







Lemma has_kind_below (n : nat) (b b' : Browser) (k : TrackKind) (t : nat) :
  same_kinds_below n b b' -> t < n -> has_kind b' k t = has_kind b k t.
Proof.
  intros H Ht. specialize (H t Ht). unfold has_kind.
  destruct (tracks b' !! t), (tracks b !! t); simpl in H; try discriminate;
    [|reflexivity].
  injection H as ->. reflexivity.
Qed.

Lemma first_video_track_below (b b' : Browser) (s : option MediaStream) :
  same_kinds_below (length (tracks b)) b b' -> stream_ok b s ->
  first_video_track b' s = first_video_track b s.
Proof.
  intros H Hs. destruct s as [s|]; [|reflexivity]. simpl.
  unfold getVideoTracks. f_equal. apply List.filter_ext_in. intros t Ht.
  apply (has_kind_below _ _ _ _ _ H).
  specialize (Hs s eq_refl). rewrite Forall_forall in Hs. apply Hs.
  apply list_elem_of_In. exact Ht.
Qed.

Lemma is_video_sender_below (b b' : Browser) (p : nat) (pc : PeerConnection)
    (s : option nat) :
  same_kinds_below (length (tracks b)) b b' -> senders_exist b ->
  pcs b !! p = Some pc -> s ∈ senders pc ->
  is_video_sender b' s = is_video_sender b s.
Proof.
  intros H W Hp Hs. destruct s as [t|]; [|reflexivity]. simpl.
  apply (has_kind_below _ _ _ _ _ H). exact (W p pc t Hp Hs).
Qed.

Lemma list_find_ext_in {A} (P Q : A -> Prop) `{!forall x, Decision (P x)}
    `{!forall x, Decision (Q x)} (l : list A) :
  (forall x, x ∈ l -> (P x <-> Q x)) -> list_find P l = list_find Q l.
Proof.
  induction l as [|x l IH]; intros Hext; [reflexivity|]. simpl.
  rewrite (decide_ext (P x) (Q x)) by (apply Hext; apply list_elem_of_here).
  rewrite IH; [reflexivity|]. intros y Hy. apply Hext.
  apply list_elem_of_further. exact Hy.
Qed.

Lemma find_video_sender_below (b b' : Browser) (pc : option nat) :
  same_kinds_below (length (tracks b)) b b' -> senders_exist b ->
  pcs b' = pcs b ->
  find_video_sender b' pc = find_video_sender b pc.
Proof.
  intros H W Hp. unfold find_video_sender. rewrite Hp.
  destruct pc as [p|]; [|reflexivity].
  destruct (pcs b !! p) as [c|] eqn:Hc; [|reflexivity].
  rewrite (list_find_ext_in (fun s => is_video_sender b' s = true)
                            (fun s => is_video_sender b s = true));
    [reflexivity|].
  intros s Hs.
  assert (s ∈ senders c) as Hin.
  { unfold getSenders in Hs. destruct (closed c); [|exact Hs].
    apply not_elem_of_nil in Hs. contradiction. }
  rewrite (is_video_sender_below b b' p c s H W Hc Hin). tauto.
Qed.

Lemma replaceTrack_sender_track (r : SenderRef) (v : option nat)
    (b : Browser) (pc : PeerConnection) :
  pcs b !! sr_pc r = Some pc -> closed pc = false ->
  sr_idx r < length (senders pc) ->
  sender_track (replaceTrack r v b) r = v.
Proof.
  intros Hp Hc Hlt. unfold replaceTrack. rewrite Hp, Hc.
  rewrite bool_decide_eq_true_2 by exact Hlt.
  unfold sender_track. simpl.
  rewrite list_lookup_insert_eq by (eapply lookup_lt_Some; exact Hp).
  simpl. rewrite list_lookup_insert_eq by exact Hlt. reflexivity.
Qed.

Lemma track_ended_live (t : nat) (c : Call) (tr : Track) (h : EndedHandler) :
  tracks (env c) !! t = Some tr -> readyState tr = live ->
  onended tr = Some h ->
  track_ended t c =
  screen_onended h
    (with_env (set_tracks (<[t := set_readyState ended tr]> (tracks (env c)))
                          (env c)) c).
Proof.
  intros Ht Hr Hh. unfold track_ended. rewrite Ht, Hr, Hh. reflexivity.
Qed.

(** The claim of C7 does not hold as it is written.  The user shares the
    screen in a video call, hangs up, and starts a new call in the same
    modal, which becomes active.  The new call has its camera track (track
    4) on the video sender of its open connection, but [isScreenSharing] is
    still set: [cleanup] does not clear it.  A click on the share button
    now takes the branch that stops sharing: no capture is requested, no
    track is created, the camera track is put on the sender again and the
    flag is cleared. *)
Lemma stale_flag_starts_no_share :
  let c := run [TrackEvent 0 [mkStream []]; ClickShare; ClickEnd;
                SetOpen true; MediaSettled; TrackEvent 1 [mkStream []]]
               (started_call true) in
  let c1 := handle ClickShare c in
  (phase c = Active /\
   is_open (env c) 1 = true /\
   attached_video (env c) 1 = Some 4 /\
   first_video_track (env c) (localStream (st (me c))) = Some 4 /\
   screen_ok (env c) = true /\
   isScreenSharing (st (me c)) = true) /\
  (attached_video (env c1) 1 = Some 4 /\
   tracks (env c1) = tracks (env c) /\
   trace (env c1) = trace (env c) ++ [ReplaceTrack 1 1 (Some 4)] /\
   isScreenSharing (st (me c1)) = false).
Proof. vm_compute. auto 10. Qed.

(** C7 as amended.  A call has its camera track [cam] on the video
    sender [r] of an open connection and its sharing flag is clear.  A
    click on the share button puts the new screen track on [r], sets the
    sharing flag, and sends nothing: the effects are the capture request
    and the replacement.  From there, a second click, or the end of the
    screen capture, puts [cam] back on [r] and clears the flag, again
    sending nothing. *)
Theorem screen_share_round_trip (c : Call) (r : SenderRef) (cam : nat) :
  reachable c ->
  isScreenSharing (st (me c)) = false ->
  screen_ok (env c) = true ->
  find_video_sender (env c) (peerConnection (st (me c))) = Some r ->
  is_open (env c) (sr_pc r) = true ->
  sender_track (env c) r = Some cam ->
  first_video_track (env c) (localStream (st (me c))) = Some cam ->
  let screen := length (tracks (env c)) in
  let c1 := handle ClickShare c in
  let c2 := handle ClickShare c1 in
  let c2' := handle (TrackEnded screen) c1 in
  (sender_track (env c1) r = Some screen /\
   has_kind (env c1) video screen = true /\
   isScreenSharing (st (me c1)) = true /\
   outbox (env c1) = outbox (env c) /\
   trace (env c1) =
     trace (env c) ++
     [GetDisplayMedia true; ReplaceTrack (sr_pc r) (sr_idx r) (Some screen)]) /\
  (sender_track (env c2) r = Some cam /\
   isScreenSharing (st (me c2)) = false /\
   outbox (env c2) = outbox (env c)) /\
  (sender_track (env c2') r = Some cam /\
   isScreenSharing (st (me c2')) = false /\
   outbox (env c2') = outbox (env c)).
Proof.
  intros Hreach Hsh Hscreen Hfind Hopen Hcam Hfirst screen c1 c2 c2'.
  destruct (reachable_ok c Hreach) as [[W J] Hstream].
  destruct r as [p idx]. simpl in *.
  destruct (find_video_sender_video _ _ _ Hfind) as [Hpc _]. simpl in Hpc.
  unfold is_open in Hopen. unfold sender_track in Hcam. simpl in Hcam.
  destruct (pcs (env c) !! p) as [pc|] eqn:Hp; [|discriminate].
  destruct (closed pc) eqn:Hclosed; [discriminate|]. clear Hopen.
  destruct (senders pc !! idx) as [s0|] eqn:Hidx; [|discriminate].
  simpl in Hcam. subst s0.
  pose proof (lookup_lt_Some _ _ _ Hidx) as Hidxlt.
  pose proof (lookup_lt_Some _ _ _ Hp) as Hplt.
  set (b := env c) in *.
  set (b1 := set_tracks (tracks b ++ [fresh_track video])
                        (emit [GetDisplayMedia true] b)).
  assert (same_kinds_below (length (tracks b)) b b1) as K1.
  { intros t Ht. simpl. rewrite lookup_app_l by exact Ht. reflexivity. }
  assert (find_video_sender b1 (peerConnection (st (me c)))
          = Some (mkSenderRef p idx)) as Hfind1.
  { rewrite (find_video_sender_below b b1); [exact Hfind|exact K1|exact W|].
    reflexivity. }
  set (b2 := emit [ReplaceTrack p idx (Some screen)]
                  (set_pcs (<[p := set_senders (<[idx := Some screen]>
                                                  (senders pc)) pc]> (pcs b1))
                           b1)).
  set (h := mkEndedHandler (localStream (st (me c)))
                           (Some (mkSenderRef p idx))).
  set (b3 := set_tracks (alter (set_onended (Some h)) screen (tracks b2)) b2).
  assert (c1 = setIsScreenSharing true (with_env b3 c)) as E1.
  { subst c1. unfold click, toggleScreenShare. rewrite Hsh.
    unfold getDisplayMedia. fold b. rewrite Hscreen.
    cbn [negb]. fold b1.
    assert (head (getVideoTracks b1 (mkStream [length (tracks b)]))
            = Some screen) as ->.
    { unfold getVideoTracks, has_kind. simpl.
      rewrite list_lookup_middle by reflexivity. reflexivity. }
    rewrite Hfind1. unfold replaceTrack. cbn [sr_pc sr_idx].
    change (pcs b1) with (pcs b). rewrite Hp, Hclosed.
    rewrite bool_decide_eq_true_2 by exact Hidxlt. reflexivity. }
  set (pc' := set_senders (<[idx := Some screen]> (senders pc)) pc) in *.
  assert (pcs b3 !! p = Some pc') as Hp3.
  { simpl. apply list_lookup_insert_eq. exact Hplt. }
  assert (tracks b3 !! screen
          = Some (set_onended (Some h) (fresh_track video))) as Ht3.
  { simpl. rewrite list_lookup_alter_eq.
    rewrite list_lookup_middle by reflexivity. reflexivity. }
  assert (same_kinds_below (length (tracks b)) b b3) as K3.
  { intros t Ht. simpl. rewrite list_lookup_alter_ne by (unfold screen; lia).
    rewrite lookup_app_l by exact Ht. reflexivity. }
  assert (idx < length (senders pc')) as Hidxlt'.
  { simpl. rewrite length_insert. exact Hidxlt. }
  (* the sender that carried the camera is still the first video sender *)
  assert (forall b', pcs b' = pcs b3 ->
                     same_kinds_below (length (tracks b)) b b' ->
                     has_kind b' video screen = true ->
                     find_video_sender b' (Some p)
                     = Some (mkSenderRef p idx)) as Hfind3.
  { intros b' Epcs K' Hk'. unfold find_video_sender. rewrite Epcs, Hp3.
    unfold find_video_sender in Hfind. rewrite Hpc, Hp in Hfind.
    unfold getSenders in Hfind |- *. rewrite Hclosed in Hfind.
    replace (closed pc') with false by (symmetry; exact Hclosed).
    destruct (list_find _ (senders pc)) as [[i s0]|] eqn:Hl; [|discriminate].
    injection Hfind as ->.
    apply list_find_Some in Hl as (Hi & _ & Hleast).
    assert (list_find (fun s => is_video_sender b' s = true) (senders pc')
            = Some (idx, Some screen)) as ->; [|reflexivity].
    apply list_find_Some. split; [|split].
    - simpl. apply list_lookup_insert_eq. exact Hidxlt.
    - exact Hk'.
    - intros j y Hj Hlt. simpl in Hj.
      rewrite list_lookup_insert_ne in Hj by lia.
      rewrite (is_video_sender_below b b' p pc y K' W Hp).
      + exact (Hleast j y Hj Hlt).
      + eapply list_elem_of_lookup_2. exact Hj. }
  split; [|split].
  - rewrite E1. simpl.
    split. { unfold sender_track. cbn [sr_pc sr_idx]. rewrite Hp3. simpl.
             rewrite list_lookup_insert_eq by exact Hidxlt. reflexivity. }
    split. { unfold has_kind. rewrite Ht3. reflexivity. }
    split; [reflexivity|]. split; [reflexivity|].
    simpl. rewrite <- app_assoc. reflexivity.
  - subst c2. rewrite E1. unfold handle, click, toggleScreenShare. simpl.
    rewrite (first_video_track_below b b3 _ K3 Hstream), Hfirst.
    rewrite Hpc, (Hfind3 b3 eq_refl K3)
      by (unfold has_kind; rewrite Ht3; reflexivity).
    unfold restore_camera.
    split; [apply (replaceTrack_sender_track (mkSenderRef p idx) (Some cam)
                     b3 pc' Hp3 Hclosed Hidxlt')|].
    split; [reflexivity|].
    rewrite (proj1 (proj2 (replaceTrack_tracks _ _ _))). reflexivity.
  - subst c2'. rewrite E1. unfold handle.
    rewrite (track_ended_live screen (setIsScreenSharing true (with_env b3 c))
               (set_onended (Some h) (fresh_track video)) h Ht3 eq_refl
               eq_refl).
    cbn [env with_env setIsScreenSharing with_st].
    set (b4 := set_tracks _ b3).
    assert (same_kinds_below (length (tracks b)) b b4) as K4.
    { intros t Ht. subst b4. simpl.
      rewrite list_lookup_insert_ne by (unfold screen; lia).
      rewrite list_lookup_alter_ne by (unfold screen; lia).
      rewrite lookup_app_l by exact Ht. reflexivity. }
    unfold screen_onended. simpl.
    rewrite (first_video_track_below b b4 _ K4 Hstream), Hfirst.
    unfold restore_camera.
    split; [apply (replaceTrack_sender_track (mkSenderRef p idx) (Some cam)
                     b4 pc' Hp3 Hclosed Hidxlt')|].
    split; [reflexivity|].
    rewrite (proj1 (proj2 (replaceTrack_tracks _ _ _))). reflexivity.
Qed.

Lemma screen_share_round_trip_witness :
  let c := started_call true in
  let r := mkSenderRef 0 1 in
  let c1 := handle ClickShare c in
  let c2 := handle ClickShare c1 in
  let c2' := handle (TrackEnded 2) c1 in
  (sender_track (env c1) r = Some 2 /\
   has_kind (env c1) video 2 = true /\
   isScreenSharing (st (me c1)) = true /\
   outbox (env c1) = outbox (env c) /\
   trace (env c1) =
     trace (env c) ++ [GetDisplayMedia true; ReplaceTrack 0 1 (Some 2)]) /\
  (sender_track (env c2) r = Some 1 /\
   isScreenSharing (st (me c2)) = false /\
   outbox (env c2) = outbox (env c)) /\
  (sender_track (env c2') r = Some 1 /\
   isScreenSharing (st (me c2')) = false /\
   outbox (env c2') = outbox (env c)).
Proof.
  apply (screen_share_round_trip (started_call true) (mkSenderRef 0 1) 1).
  - apply reachable_run. constructor.
  - reflexivity.
  - reflexivity.
  - reflexivity.
  - reflexivity.
  - reflexivity.
  - reflexivity.
Defined.

(** C8 does not hold: the video call is started, then the audio call.
    Both modals now hold live tracks, and starting the second released
    nothing of the first. *)
Lemma two_sessions_hold_capture :
  let pg1 := in_modal VideoModal media_settled
               (onVideoCall (chat_page (new_browser true true))) in
  let pg2 := in_modal AudioModal media_settled (onAudioCall pg1) in
  ~ exclusive pg2 /\
  is_live (penv pg2) 0 = true /\ released (penv pg2) 0 = 0 /\
  is_live (penv pg2) 1 = true /\ released (penv pg2) 1 = 0.
Proof.
  split; [|vm_compute; auto].
  intros H. apply H. vm_compute. auto.
Qed.

Lemma addTrack_released (p t t0 : nat) (b : Browser) :
  released (addTrack p t b).1 t0 = released b t0.
Proof.
  unfold addTrack. destruct (pcs b !! p) as [c|]; [|done].
  destruct (closed c); [done|]. case_bool_decide; [done|]. simpl.
  rewrite released_emit. count_effects. lia.
Qed.

Lemma addTracks_released (p : nat) (ts : list nat) (t0 : nat) (b : Browser) :
  released (addTracks p ts b).1 t0 = released b t0.
Proof.
  revert b. induction ts as [|t ts IH]; intros b; [done|]. simpl.
  pose proof (addTrack_released p t t0 b) as H.
  destruct (addTrack p t b) as [b' [e|]]; simpl in *; [exact H|].
  rewrite IH. exact H.
Qed.

Lemma initializeCall_resume_released (o : JsError + MediaStream) (c : Call)
    (t : nat) :
  released (env (initializeCall_resume o c)) t = released (env c) t.
Proof.
  unfold initializeCall_resume. destruct o as [e|stream]; simpl.
  - rewrite released_emit. count_effects. lia.
  - match goal with |- context [addTracks ?p ?l ?b] =>
      pose proof (addTracks_released p l t b) as H;
      destruct (addTracks p l b) as [b3 [e|]] end; simpl in *.
    + rewrite released_emit, H, released_emit. count_effects. lia.
    + change (released b3 t = released (env c) t).
      rewrite H, released_emit. count_effects. lia.
Qed.

Lemma media_settled_live (c : Call) (t : nat) :
  is_live (env c) t = true ->
  is_live (env (media_settled c)) t = true /\
  released (env (media_settled c)) t = released (env c) t.
Proof.
  intros Hl. unfold media_settled.
  destruct (awaiting (me c)) as [|[v a] rest]; [done|].
  assert (is_live (getUserMedia_settle v a (env c)).1 t = true /\
          released (getUserMedia_settle v a (env c)).1 t = released (env c) t)
    as [H1 H2].
  { unfold getUserMedia_settle. destruct (device_ok (env c)); [|done].
    simpl. split; [|reflexivity]. unfold is_live in *. simpl.
    destruct (tracks (env c) !! t) as [tr|] eqn:Ht; [|discriminate].
    rewrite (lookup_app_l_Some _ _ _ _ Ht). exact Hl. }
  destruct (getUserMedia_settle v a (env c)) as [b o]. simpl in *.
  rewrite initializeCall_resume_released. split; [|exact H2].
  unfold is_live. rewrite (proj1 (initializeCall_resume_tracks _ _)).
  exact H1.
Qed.

Lemma set_isOpen_true_live (c : Call) (t : nat) :
  is_live (env c) t = true ->
  t ∉ render_tracks (effect_render (me c)) ->
  is_live (env (set_isOpen true c)) t = true /\
  released (env (set_isOpen true c)) t = released (env c) t.
Proof.
  intros Hl Hn. unfold set_isOpen. case_bool_decide; [done|]. simpl.
  fold (cleanup_env (effect_render (me c)) (env c)).
  destruct (cleanup_env_released (effect_render (me c)) t (env c)) as [R L].
  rewrite bool_decide_eq_false_2 in R, L by exact Hn.
  rewrite Hl in L. simpl in *. split.
  - exact L.
  - rewrite released_emit. count_effects. fold (released (env c) t) in *.
    change (count_occ Effect_eq_dec
              (trace (cleanup_env (effect_render (me c)) (env c)))
              (DeviceReleased t))
      with (released (cleanup_env (effect_render (me c)) (env c)) t).
    lia.
Qed.

Lemma call_eta (c : Call) : mkCall (env c) (me c) = c.
Proof. destruct c. reflexivity. Qed.

(** C8 as amended.  The two modals are independent.  Starting a call in
    one of them leaves the other modal as it is, and a track that is live
    stays live and unreleased, unless it belongs to the stream that the
    starting modal's own last effect render still refers to.  Nothing makes
    the two sessions exclusive. *)
Theorem modals_independent (w : Which) (pg : Page) (t : nat) :
  is_live (penv pg) t = true ->
  t ∉ render_tracks (effect_render (modal w pg)) ->
  let pg' := start_call w pg in
  modal (other w) pg' = modal (other w) pg /\
  is_live (penv pg') t = true /\
  released (penv pg') t = released (penv pg) t.
Proof.
  intros Hl Hn.
  destruct (set_isOpen_true_live (mkCall (penv pg) (modal w pg)) t Hl Hn)
    as [L1 R1].
  destruct (media_settled_live
              (set_isOpen true (mkCall (penv pg) (modal w pg))) t L1)
    as [L2 R2].
  unfold start_call, in_modal.
  destruct w; simpl in *; rewrite call_eta; (split; [reflexivity|]);
    (split; [exact L2|congruence]).
Qed.

Lemma modals_independent_witness :
  let pg := in_modal VideoModal media_settled
              (onVideoCall (chat_page (new_browser true true))) in
  let pg' := start_call AudioModal pg in
  modal VideoModal pg' = modal VideoModal pg /\
  is_live (penv pg') 1 = true /\
  released (penv pg') 1 = released (penv pg) 1.
Proof.
  apply (modals_independent AudioModal
           (in_modal VideoModal media_settled
              (onVideoCall (chat_page (new_browser true true)))) 1).
  - reflexivity.
  - vm_compute. apply not_elem_of_nil.
Defined.

(** ** One video track on the connection *)




















(** ** Closing the dialog without the hang-up button

    The dialog's own close control calls [onClose] alone (line 159).  The
    teardown that then runs is the [cleanup] of the render in which the
    dialog was opened, where [localStream] and [peerConnection] were still
    null: the component forgets its stream, the tracks stay live and the
    connection open.  They are released when the same modal is opened
    again, by the teardown of the render that closed it. *)
Example dialog_closed_keeps_devices :
  let c := started_call true in
  let c1 := handle (SetOpen false) c in
  let c2 := handle (SetOpen true) c1 in
  localStream (st (me c1)) = None /\
  is_live (env c1) 0 = true /\ is_live (env c1) 1 = true /\
  is_open (env c1) 0 = true /\
  is_live (env c2) 0 = false /\ is_live (env c2) 1 = false /\
  is_open (env c2) 0 = false.
Proof. vm_compute. auto 10. Qed.

(** ** A successful acquisition *)

Lemma insert_at_end {A} (l : list A) (x y : A) :
  <[length l := y]> (l ++ [x]) = l ++ [y].
Proof.
  replace (length l) with (length l + 0) by lia.
  rewrite insert_app_r. reflexivity.
Qed.

Lemma alter_at_end {A} (f : A -> A) (l : list A) (x : A) :
  alter f (length l) (l ++ [x]) = l ++ [f x].
Proof.
  replace (length l) with (length l + 0) by lia.
  rewrite alter_app_r. reflexivity.
Qed.

Lemma media_settled_success (c : Call) (v : bool) (rest : list (bool * bool)) :
  awaiting (me c) = (v, true) :: rest ->
  device_ok (env c) = true ->
  handle MediaSettled c =
  mkCall (connected_env (env c) v)
         (mkComponent (isOpen (me c)) (isVideoCall (me c))
                      (connected_st (env c) v (st (me c)))
                      (effect_render (me c)) rest).
Proof.
  destruct c as [[ts ps d sc tr ob] [o iv s er aw]]. simpl.
  intros -> ->. unfold media_settled, getUserMedia_settle. simpl.
  unfold initializeCall_resume. simpl.
  erewrite addTrack_fresh;
    [|simpl; apply list_lookup_middle; reflexivity|reflexivity
     |apply not_elem_of_nil].
  simpl. rewrite insert_at_end. destruct v; simpl.
  - erewrite addTrack_fresh;
      [|simpl; apply list_lookup_middle; reflexivity|reflexivity|].
    2:{ simpl. rewrite list_elem_of_singleton. intros [= H]. lia. }
    simpl. rewrite insert_at_end, alter_at_end.
    cbv -[app length]. rewrite <- ?app_assoc. reflexivity.
  - rewrite alter_at_end.
    cbv -[app length]. rewrite <- ?app_assoc. reflexivity.
Qed.

Lemma connected_env_audio (b : Browser) (v : bool) :
  getAudioTracks (connected_env b v) (acquired_stream b v)
  = [length (tracks b)] /\
  getVideoTracks (connected_env b v) (acquired_stream b v)
  = (if v then [S (length (tracks b))] else []) /\
  track_enabled (connected_env b v) (length (tracks b)) = true /\
  forall t, t ∈ stream_tracks (acquired_stream b v) ->
            is_live (connected_env b v) t = true.
Proof.
  unfold getAudioTracks, getVideoTracks, has_kind, track_enabled, is_live,
    connected_env, acquired_stream. simpl.
  rewrite list_lookup_middle by reflexivity. simpl.
  destruct v; simpl.
  - rewrite lookup_app_r by lia.
    replace (S (length (tracks b)) - length (tracks b)) with 1 by lia.
    simpl. repeat split. intros t Ht.
    apply elem_of_cons in Ht as [->|Ht].
    + rewrite list_lookup_middle by reflexivity. reflexivity.
    + apply list_elem_of_singleton in Ht as ->.
      rewrite lookup_app_r by lia.
      replace (S (length (tracks b)) - length (tracks b)) with 1 by lia.
      reflexivity.
  - repeat split. intros t Ht. apply list_elem_of_singleton in Ht as ->.
    rewrite list_lookup_middle by reflexivity. reflexivity.
Qed.

(** X1.  When a pending acquisition for a call of kind [v] succeeds, the
    component stores the stream of the new tracks and a new connection.  The
    connection is open, is configured with the two STUN servers, has one
    sender per track of the stream in the stream's order (so one video
    sender exactly for a video call) and both callbacks assigned.  The
    tracks are live, and the connections that existed are as they were. *)
Theorem call_established (c : Call) (v : bool) (rest : list (bool * bool)) :
  awaiting (me c) = (v, true) :: rest ->
  device_ok (env c) = true ->
  let n := length (tracks (env c)) in
  let p := length (pcs (env c)) in
  let c' := handle MediaSettled c in
  localStream (st (me c')) = Some (mkStream (n :: if v then [S n] else [])) /\
  peerConnection (st (me c')) = Some p /\
  pcs (env c') !! p =
    Some (mkPC stun_servers (Some n :: if v then [Some (S n)] else [])
               false true true None []) /\
  video_senders (env c') p = (if v then 1 else 0) /\
  (forall t, t ∈ n :: (if v then [S n] else []) ->
             is_live (env c') t = true) /\
  (forall q pc, pcs (env c) !! q = Some pc -> pcs (env c') !! q = Some pc) /\
  awaiting (me c') = rest.
Proof.
  intros Haw Hdev n p c'. subst c'.
  rewrite (media_settled_success c v rest Haw Hdev). simpl.
  split; [reflexivity|]. split; [reflexivity|].
  split. { rewrite list_lookup_middle by reflexivity. destruct v; reflexivity. }
  split.
  { unfold video_senders. simpl.
    rewrite list_lookup_middle by reflexivity. simpl.
    unfold is_video_sender, has_kind. simpl.
    rewrite list_lookup_middle by reflexivity. simpl.
    destruct v; simpl; [|reflexivity].
    rewrite lookup_app_r by lia.
    replace (S (length (tracks (env c))) - length (tracks (env c))) with 1
      by lia. reflexivity. }
  split. { apply (connected_env_audio (env c) v). }
  split; [|reflexivity].
  intros q pc Hq. apply lookup_app_l_Some. exact Hq.
Qed.

Lemma call_established_witness :
  let c := handle (SetOpen true)
             (mkCall (new_browser true true) (mount true)) in
  let c' := handle MediaSettled c in
  localStream (st (me c')) = Some (mkStream [0; 1]) /\
  peerConnection (st (me c')) = Some 0 /\
  pcs (env c') !! 0 =
    Some (mkPC stun_servers [Some 0; Some 1] false true true None []) /\
  video_senders (env c') 0 = 1 /\
  (forall t, t ∈ [0; 1] -> is_live (env c') t = true) /\
  (forall q pc, pcs (env c) !! q = Some pc -> pcs (env c') !! q = Some pc) /\
  awaiting (me c') = [].
Proof.
  apply (call_established
           (handle (SetOpen true)
              (mkCall (new_browser true true) (mount true))) true []);
    reflexivity.
Defined.

(** ** What hanging up and opening leave in the component *)

Lemma endCall_component (r : ModalState) (c : Call) :
  let c' := endCall r c in
  isOpen (me c') = false /\
  isVideoCall (me c') = isVideoCall (me c) /\
  awaiting (me c') = awaiting (me c) /\
  flags (st (me c')) = flags (st (me c)) /\
  localStream (st (me c')) = None /\
  remoteStream (st (me c')) = None /\
  peerConnection (st (me c')) = None /\
  device_ok (env c') = device_ok (env c) /\
  screen_ok (env c') = screen_ok (env c) /\
  length (tracks (env c')) = length (tracks (env c)) /\
  length (pcs (env c')) = length (pcs (env c)).
Proof.
  unfold endCall, onClose, set_isOpen. simpl.
  fold (cleanup_env r (env c)).
  destruct (cleanup_env_frame r (env c)) as (D & S & _ & T & P).
  destruct (isOpen (me c)) eqn:Ho; simpl.
  - fold (cleanup_env r (env c)).
    fold (cleanup_env (effect_render (me c)) (cleanup_env r (env c))).
    destruct (cleanup_env_frame (effect_render (me c)) (cleanup_env r (env c)))
      as (D' & S' & _ & T' & P').
    rewrite D', S', T', P'. auto 12.
  - rewrite Ho. fold (cleanup_env r (env c)). auto 12.
Qed.

Lemma open_component (c : Call) :
  isOpen (me c) = false ->
  let c' := handle (SetOpen true) c in
  isOpen (me c') = true /\
  isVideoCall (me c') = isVideoCall (me c) /\
  awaiting (me c') = awaiting (me c) ++ [(isVideoCall (me c), true)] /\
  flags (st (me c')) = flags (st (me c)) /\
  remoteStream (st (me c')) = None /\
  effect_render (me c') = st (me c) /\
  device_ok (env c') = device_ok (env c) /\
  screen_ok (env c') = screen_ok (env c).
Proof.
  intros Ho. simpl. unfold set_isOpen. rewrite Ho. simpl.
  fold (cleanup_env (effect_render (me c)) (env c)).
  destruct (cleanup_env_frame (effect_render (me c)) (env c))
    as (D & S & _). rewrite D, S. auto 12.
Qed.

(** ** The first remote track *)

(** X2.  Once the acquisition has succeeded the component is connecting.
    The connection's [track] event stores the first stream of the event as
    [remoteStream], which makes the call active, and touches nothing in the
    browser.  An event that carries no stream stores no stream, and the call
    stays connecting. *)
Theorem remote_track_makes_active (c : Call) (v : bool) (s : MediaStream)
    (more : list MediaStream) :
  awaiting (me c) = [(v, true)] ->
  device_ok (env c) = true ->
  remoteStream (st (me c)) = None ->
  let p := length (pcs (env c)) in
  let c1 := handle MediaSettled c in
  let c2 := handle (TrackEvent p (s :: more)) c1 in
  phase c1 = Connecting /\
  phase c2 = Active /\
  remoteStream (st (me c2)) = Some s /\
  env c2 = env c1 /\
  localStream (st (me c2)) = localStream (st (me c1)) /\
  peerConnection (st (me c2)) = peerConnection (st (me c1)) /\
  phase (handle (TrackEvent p []) c1) = Connecting.
Proof.
  intros Haw Hdev Hrem p c1 c2. subst c1 c2.
  rewrite (media_settled_success c v [] Haw Hdev).
  unfold handle, fire_track, phase. simpl.
  rewrite list_lookup_middle by reflexivity. simpl. rewrite Hrem.
  auto 10.
Qed.

Lemma remote_track_makes_active_witness :
  let c := handle (SetOpen true)
             (mkCall (new_browser true true) (mount false)) in
  let c1 := handle MediaSettled c in
  let c2 := handle (TrackEvent 0 [mkStream [7]]) c1 in
  phase c1 = Connecting /\
  phase c2 = Active /\
  remoteStream (st (me c2)) = Some (mkStream [7]) /\
  env c2 = env c1 /\
  localStream (st (me c2)) = localStream (st (me c1)) /\
  peerConnection (st (me c2)) = peerConnection (st (me c1)) /\
  phase (handle (TrackEvent 0 []) c1) = Connecting.
Proof.
  apply (remote_track_makes_active
           (handle (SetOpen true)
              (mkCall (new_browser true true) (mount false)))
           false (mkStream [7]) []); reflexivity.
Defined.

(** ** Hanging up while the acquisition is in flight *)

(** X3.  The user hangs up before [getUserMedia] has settled.  [cleanup]
    runs and the dialog closes, but the suspended [initializeCall] is not
    cancelled: when the device is granted it stores
    the stream and creates the connection all the same.  The component then
    holds live tracks and an open connection behind a closed dialog. *)
Theorem hangup_does_not_cancel_acquisition (c : Call) (v : bool)
    (rest : list (bool * bool)) :
  awaiting (me c) = (v, true) :: rest ->
  device_ok (env c) = true ->
  let c1 := handle ClickEnd c in
  let c2 := handle MediaSettled c1 in
  let n := length (tracks (env c)) in
  let p := length (pcs (env c)) in
  isOpen (me c1) = false /\
  awaiting (me c1) = (v, true) :: rest /\
  isOpen (me c2) = false /\
  localStream (st (me c2)) = Some (mkStream (n :: if v then [S n] else [])) /\
  peerConnection (st (me c2)) = Some p /\
  is_open (env c2) p = true /\
  is_live (env c2) n = true /\
  holds_capture (env c2) (me c2) = true.
Proof.
  intros Haw Hdev c1 c2 n p.
  destruct (endCall_component (st (me c)) c)
    as (Ho & _ & Haw1 & _ & _ & _ & _ & Hd1 & _ & Ht1 & Hp1).
  fold (click endCall c) in Ho, Haw1, Hd1, Ht1, Hp1.
  change (click endCall c) with c1 in *.
  rewrite Haw in Haw1. rewrite Hdev in Hd1.
  assert (localStream (st (me c2))
          = Some (mkStream (length (tracks (env c1))
                            :: if v then [S (length (tracks (env c1)))]
                               else [])) /\
          peerConnection (st (me c2)) = Some (length (pcs (env c1))) /\
          pcs (env c2) !! length (pcs (env c1))
          = Some (mkPC stun_servers
                       (Some (length (tracks (env c1)))
                        :: if v then [Some (S (length (tracks (env c1))))]
                           else [])
                       false true true None []) /\
          (forall t, t ∈ length (tracks (env c1))
                         :: (if v then [S (length (tracks (env c1)))]
                             else []) ->
                     is_live (env c2) t = true))
    as (Hs & Hpc & Hlook & Hlive).
  { subst c2. rewrite (media_settled_success c1 v rest Haw1 Hd1). simpl.
    split; [reflexivity|]. split; [reflexivity|].
    split; [rewrite list_lookup_middle by reflexivity;
            destruct v; reflexivity|].
    apply (connected_env_audio (env c1) v). }
  rewrite Ht1 in Hs, Hlive.
  rewrite Hp1 in Hpc, Hlook. fold n in Hs, Hlive. fold p in Hpc, Hlook.
  assert (isOpen (me c2) = false) as Ho2.
  { subst c2. rewrite (media_settled_success c1 v rest Haw1 Hd1). exact Ho. }
  assert (is_live (env c2) n = true) as Hn.
  { apply Hlive. apply list_elem_of_here. }
  split; [exact Ho|]. split; [exact Haw1|]. split; [exact Ho2|].
  split; [exact Hs|]. split; [exact Hpc|].
  split. { unfold is_open. rewrite Hlook. reflexivity. }
  split; [exact Hn|].
  unfold holds_capture, render_tracks. rewrite Hs. simpl. rewrite Hn.
  reflexivity.
Qed.

Lemma hangup_does_not_cancel_acquisition_witness :
  let c := handle (SetOpen true)
             (mkCall (new_browser true true) (mount true)) in
  let c1 := handle ClickEnd c in
  let c2 := handle MediaSettled c1 in
  isOpen (me c1) = false /\
  awaiting (me c1) = [(true, true)] /\
  isOpen (me c2) = false /\
  localStream (st (me c2)) = Some (mkStream [0; 1]) /\
  peerConnection (st (me c2)) = Some 0 /\
  is_open (env c2) 0 = true /\
  is_live (env c2) 0 = true /\
  holds_capture (env c2) (me c2) = true.
Proof.
  apply (hangup_does_not_cancel_acquisition
           (handle (SetOpen true)
              (mkCall (new_browser true true) (mount true))) true []);
    reflexivity.
Defined.

(** ** Closing the dialog by its own control *)

(** X4.  The dialog is open on a call that holds a live track [t] and an
    open connection [p], and the render in which it was opened had no stream
    and no connection.  Closing the dialog by its own control ([onClose]
    without [cleanup]) leaves the browser exactly as it is: [t] stays live
    and [p] open, while the component forgets both.  A hang-up click can no
    longer release them.  Opening the same modal again does: the teardown of
    the render that closed the dialog releases [t] once and closes [p]
    once. *)
Theorem dialog_close_keeps_devices (c : Call) (s : MediaStream) (t p : nat) :
  isOpen (me c) = true ->
  localStream (effect_render (me c)) = None ->
  peerConnection (effect_render (me c)) = None ->
  localStream (st (me c)) = Some s ->
  t ∈ stream_tracks s ->
  is_live (env c) t = true ->
  peerConnection (st (me c)) = Some p ->
  is_open (env c) p = true ->
  let c1 := handle (SetOpen false) c in
  let c2 := handle (SetOpen true) c1 in
  env c1 = env c /\
  localStream (st (me c1)) = None /\
  peerConnection (st (me c1)) = None /\
  env (handle ClickEnd c1) = env c /\
  is_live (env c2) t = false /\
  released (env c2) t = S (released (env c) t) /\
  is_open (env c2) p = false /\
  closings (env c2) p = S (closings (env c) p).
Proof.
  intros Ho Hel Hep Hs Ht Hlive Hp Hopen c1 c2.
  assert (c1 = with_effect_render (st (me c))
                 (cleanup (effect_render (me c)) (with_isOpen false c))) as E1.
  { subst c1. simpl. unfold set_isOpen. rewrite Ho. reflexivity. }
  assert (env c1 = env c) as Henv.
  { rewrite E1. simpl. rewrite Hel, Hep. reflexivity. }
  assert (localStream (st (me c1)) = None /\
          peerConnection (st (me c1)) = None /\ isOpen (me c1) = false /\
          effect_render (me c1) = st (me c)) as (Hl1 & Hp1 & Ho1 & Her1).
  { rewrite E1. simpl. auto. }
  split; [exact Henv|]. split; [exact Hl1|]. split; [exact Hp1|].
  split.
  { unfold handle, click. rewrite endCall_when_closed by exact Ho1.
    rewrite cleanup_env_eq. unfold cleanup_env. rewrite Hl1, Hp1. exact Henv. }
  assert (env c2 = emit [GetUserMedia (isVideoCall (me c1)) true]
                        (cleanup_env (st (me c)) (env c))) as E2.
  { subst c2. simpl. unfold set_isOpen. rewrite Ho1. simpl.
    rewrite Her1, Henv. reflexivity. }
  destruct (cleanup_env_released (st (me c)) t (env c)) as [R L].
  destruct (cleanup_env_closings (st (me c)) p (env c)) as [C O].
  unfold render_tracks in R, L. rewrite Hs in R, L. rewrite Hp in C, O.
  rewrite bool_decide_eq_true_2 in R, L by exact Ht.
  rewrite bool_decide_eq_true_2 in C, O by reflexivity.
  rewrite Hlive in R, L. rewrite Hopen in C, O. simpl in R, L, C, O.
  rewrite E2. split; [exact L|].
  split. { rewrite released_emit, R. count_effects. lia. }
  split; [exact O|].
  rewrite closings_emit, C. count_effects. lia.
Qed.

Lemma dialog_close_keeps_devices_witness :
  let c := started_call true in
  let c1 := handle (SetOpen false) c in
  let c2 := handle (SetOpen true) c1 in
  env c1 = env c /\
  localStream (st (me c1)) = None /\
  peerConnection (st (me c1)) = None /\
  env (handle ClickEnd c1) = env c /\
  is_live (env c2) 1 = false /\
  released (env c2) 1 = S (released (env c) 1) /\
  is_open (env c2) 0 = false /\
  closings (env c2) 0 = S (closings (env c) 0).
Proof.
  apply (dialog_close_keeps_devices (started_call true) (mkStream [0; 1]) 1 0).
  - reflexivity.
  - reflexivity.
  - reflexivity.
  - reflexivity.
  - vm_compute. apply list_elem_of_In. simpl. auto.
  - reflexivity.
  - reflexivity.
  - reflexivity.
Defined.

(** ** The flags across two calls *)

(** X5.  [cleanup] clears the streams and the connection but not
    [isMuted], [isVideoEnabled] and [isScreenSharing].  After a hang-up and
    a new call in the same modal the three flags are what they were, while
    the new audio track is enabled: a user who hung up muted sees the mute
    indicator on a call whose microphone is on. *)
Theorem flags_survive_hangup (c : Call) :
  awaiting (me c) = [] ->
  device_ok (env c) = true ->
  let c' := run [ClickEnd; SetOpen true; MediaSettled] c in
  flags (st (me c')) = flags (st (me c)) /\
  exists (s : MediaStream) (a : nat),
    localStream (st (me c')) = Some s /\
    head (getAudioTracks (env c') s) = Some a /\
    track_enabled (env c') a = true /\
    (isMuted (st (me c)) = true ->
     isMuted (st (me c')) <> negb (track_enabled (env c') a)).
Proof.
  intros Haw Hdev c'.
  destruct (endCall_component (st (me c)) c)
    as (Ho1 & Hv1 & Haw1 & Hf1 & _ & _ & _ & Hd1 & _).
  fold (click endCall c) in Ho1, Hv1, Haw1, Hf1, Hd1.
  set (c1 := click endCall c) in *.
  destruct (open_component c1 Ho1)
    as (_ & _ & Haw2 & Hf2 & _ & _ & Hd2 & _).
  set (c2 := handle (SetOpen true) c1) in *.
  rewrite Haw1, Haw in Haw2. simpl in Haw2.
  rewrite Hd1, Hdev in Hd2.
  assert (c' = handle MediaSettled c2) as E by reflexivity.
  rewrite E, (media_settled_success c2 _ [] Haw2 Hd2). simpl.
  assert (flags (connected_st (env c2) (isVideoCall (me c1)) (st (me c2)))
          = flags (st (me c))) as Hf.
  { unfold flags, connected_st. simpl. unfold flags in Hf1, Hf2.
    congruence. }
  split; [exact Hf|].
  destruct (connected_env_audio (env c2) (isVideoCall (me c1)))
    as (Ha & _ & He & _).
  exists (acquired_stream (env c2) (isVideoCall (me c1))),
         (length (tracks (env c2))).
  split; [reflexivity|]. split; [rewrite Ha; reflexivity|].
  split; [exact He|].
  intros Hm. rewrite He. simpl. unfold flags in Hf.
  injection Hf as Hm' _ _. simpl in Hm'. rewrite Hm', Hm. discriminate.
Qed.

Lemma flags_survive_hangup_witness :
  let c := state_of (click toggleMute (started_call true)) in
  let c' := run [ClickEnd; SetOpen true; MediaSettled] c in
  flags (st (me c')) = flags (st (me c)) /\
  exists (s : MediaStream) (a : nat),
    localStream (st (me c')) = Some s /\
    head (getAudioTracks (env c') s) = Some a /\
    track_enabled (env c') a = true /\
    (isMuted (st (me c)) = true ->
     isMuted (st (me c')) <> negb (track_enabled (env c') a)).
Proof.
  apply (flags_survive_hangup
           (state_of (click toggleMute (started_call true)))); reflexivity.
Defined.

(** ** Every handler is a sequence of browser operations *)

Lemma steps_refl (b : Browser) : steps b b.
Proof. apply rtc_refl. Qed.

Lemma steps_trans (b1 b2 b3 : Browser) :
  steps b1 b2 -> steps b2 b3 -> steps b1 b3.
Proof. apply rtc_trans. Qed.

Lemma steps_one (b b' : Browser) : prim b b' -> steps b b'.
Proof. apply rtc_once. Qed.

Lemma stop_all_steps (ts : list nat) (b : Browser) : steps b (stop_all ts b).
Proof.
  revert b. induction ts as [|t ts IH]; intros b; [apply steps_refl|].
  unfold stop_all in *. simpl.
  eapply steps_trans; [apply steps_one, prim_stop|apply IH].
Qed.

Lemma cleanup_env_steps (r : ModalState) (b : Browser) :
  steps b (cleanup_env r b).
Proof.
  unfold cleanup_env.
  eapply steps_trans with
    (b2 := match localStream r with
           | Some s => stop_all (stream_tracks s) b
           | None => b
           end).
  - destruct (localStream r); [apply stop_all_steps|apply steps_refl].
  - destruct (peerConnection r);
      [apply steps_one, prim_close|apply steps_refl].
Qed.

Lemma set_isOpen_steps (o : bool) (c : Call) :
  steps (env c) (env (set_isOpen o c)).
Proof.
  unfold set_isOpen. case_bool_decide; [apply steps_refl|].
  destruct o; simpl; fold (cleanup_env (effect_render (me c)) (env c)).
  - eapply steps_trans; [apply cleanup_env_steps|apply steps_one, prim_emit].
  - apply cleanup_env_steps.
Qed.

Lemma addTracks_steps (p : nat) (ts : list nat) (b : Browser) :
  steps b (addTracks p ts b).1.
Proof.
  revert b. induction ts as [|t ts IH]; intros b; [apply steps_refl|].
  simpl. pose proof (prim_add p t b) as H.
  destruct (addTrack p t b) as [b' [e|]]; simpl in *;
    [apply steps_one; exact H|].
  eapply steps_trans; [apply steps_one; exact H|apply IH].
Qed.

Lemma initializeCall_resume_steps (o : JsError + MediaStream) (c : Call) :
  steps (env c) (env (initializeCall_resume o c)).
Proof.
  unfold initializeCall_resume.
  destruct o as [e|stream]; [apply steps_one, prim_emit|]. simpl.
  eapply steps_trans; [apply steps_one, (prim_new (env c))|]. simpl.
  match goal with |- context [addTracks ?p ?l ?b] =>
    pose proof (addTracks_steps p l b) as H;
    destruct (addTracks p l b) as [b3 [e|]] end; simpl in *.
  - eapply steps_trans; [exact H|apply steps_one, prim_emit].
  - eapply steps_trans; [exact H|apply steps_one, prim_callbacks].
Qed.

Lemma media_settled_steps (c : Call) : steps (env c) (env (media_settled c)).
Proof.
  unfold media_settled. destruct (awaiting (me c)) as [|[v a] rest];
    [apply steps_refl|].
  pose proof (prim_settle v a (env c)) as H.
  destruct (getUserMedia_settle v a (env c)) as [b o]. simpl in H.
  eapply steps_trans; [apply steps_one; exact H|].
  apply (initializeCall_resume_steps o (with_awaiting rest (with_env b c))).
Qed.

Lemma restore_camera_steps (t : option nat) (s : option SenderRef)
    (b : Browser) :
  steps b (restore_camera t s b).
Proof.
  unfold restore_camera. destruct t; [|apply steps_refl].
  destruct s; [apply steps_one, prim_replace|apply steps_refl].
Qed.

Lemma toggleScreenShare_steps (r : ModalState) (c : Call) :
  steps (env c) (env (toggleScreenShare r c)).
Proof.
  unfold toggleScreenShare. destruct (isScreenSharing r); simpl.
  - apply restore_camera_steps.
  - pose proof (prim_display (env c)) as H.
    destruct (getDisplayMedia (env c)) as [b1 o]. simpl in H.
    eapply steps_trans; [apply steps_one; exact H|].
    destruct o as [e|screenStream]; [apply steps_one, prim_emit|].
    set (b2 := match find_video_sender b1 (peerConnection r) with
               | Some s => replaceTrack s (head (getVideoTracks b1 screenStream)) b1
               | None => b1
               end).
    assert (steps b1 b2) as H2.
    { subst b2. destruct (find_video_sender b1 (peerConnection r));
        [apply steps_one, prim_replace|apply steps_refl]. }
    eapply steps_trans; [exact H2|].
    destruct (head (getVideoTracks b1 screenStream));
      [apply steps_one, prim_onended|apply steps_one, prim_emit].
Qed.

Lemma track_ended_steps (t : nat) (c : Call) :
  steps (env c) (env (track_ended t c)).
Proof.
  unfold track_ended. destruct (tracks (env c) !! t) as [tr|] eqn:Ht;
    [|apply steps_refl].
  destruct (readyState tr); [|apply steps_refl].
  pose proof (prim_source_ended t tr (env c) Ht) as H.
  destruct (onended tr) as [h|]; [|apply steps_one; exact H].
  eapply steps_trans; [apply steps_one; exact H|].
  unfold screen_onended. simpl. apply restore_camera_steps.
Qed.

Lemma handle_steps (ev : Event) (c : Call) :
  steps (env c) (env (handle ev c)).
Proof.
  destruct ev; simpl.
  - apply set_isOpen_steps.
  - apply media_settled_steps.
  - unfold fire_track. destruct (pcs (env c) !! p) as [pc|];
      [destruct (ontrack pc)|]; apply steps_refl.
  - unfold fire_icecandidate. destruct (pcs (env c) !! p) as [pc|];
      [|apply steps_refl].
    destruct (onicecandidate pc); [|apply steps_refl].
    destruct cand; [apply steps_one, prim_emit|apply steps_refl].
  - unfold click, toggleMute. destruct (localStream (st (me c))) as [s|];
      [|apply steps_refl].
    destruct (head (getAudioTracks (env c) s));
      [apply steps_one, prim_flip|apply steps_refl].
  - unfold click, toggleVideo. destruct (localStream (st (me c))) as [s|];
      [|apply steps_refl].
    destruct (head (getVideoTracks (env c) s));
      [apply steps_one, prim_flip|apply steps_refl].
  - apply toggleScreenShare_steps.
  - unfold click, endCall, onClose.
    eapply steps_trans; [|apply set_isOpen_steps].
    rewrite cleanup_env_eq. apply cleanup_env_steps.
  - apply track_ended_steps.
  - apply steps_one, prim_permissions.
  - apply steps_refl.
Qed.

Lemma run_steps (evs : list Event) (c : Call) :
  steps (env c) (env (run evs c)).
Proof.
  revert c. induction evs as [|ev evs IH]; intros c; [apply steps_refl|].
  unfold run in *. simpl.
  eapply steps_trans; [apply handle_steps|apply IH].
Qed.

(** ** What no handler does *)

Lemma prim_outbox (b b' : Browser) : prim b b' -> outbox b' = outbox b.
Proof.
  destruct 1; try reflexivity.
  - apply track_stop_frame.
  - apply pc_close_frame.
  - unfold getUserMedia_settle. destruct (device_ok b); reflexivity.
  - unfold getDisplayMedia. destruct (screen_ok b); reflexivity.
  - apply addTrack_tracks.
  - apply replaceTrack_tracks.
Qed.

Lemma steps_outbox (b b' : Browser) : steps b b' -> outbox b' = outbox b.
Proof.
  induction 1 as [|b1 b2 b3 H _ IH]; [reflexivity|].
  rewrite IH. apply prim_outbox. exact H.
Qed.

Lemma config_kept_same (b b' : Browser) : pcs b' = pcs b -> config_kept b b'.
Proof. intros E p pc' H. left. exists pc'. rewrite <- E. auto. Qed.

Lemma config_kept_insert (b : Browser) (p : nat) (pc pc' : PeerConnection)
    (b' : Browser) :
  pcs b !! p = Some pc -> pc_config pc' = pc_config pc ->
  pcs b' = <[p := pc']> (pcs b) -> config_kept b b'.
Proof.
  intros Hp Hc E q pcq Hq. left. rewrite E in Hq.
  destruct (decide (p = q)) as [<-|Hne].
  - rewrite list_lookup_insert_eq in Hq by (eapply lookup_lt_Some; exact Hp).
    injection Hq as <-. eauto.
  - rewrite list_lookup_insert_ne in Hq by exact Hne. eauto.
Qed.

Lemma prim_config_kept (b b' : Browser) : prim b b' -> config_kept b b'.
Proof.
  destruct 1; try (apply config_kept_same; reflexivity).
  - apply config_kept_same. apply track_stop_frame.
  - unfold pc_close. destruct (pcs b !! p) as [c|] eqn:Hp;
      [|apply config_kept_same; reflexivity].
    destruct (closed c); [apply config_kept_same; reflexivity|].
    apply (config_kept_insert b p c (set_closed true c)); auto.
  - apply config_kept_same. unfold getUserMedia_settle.
    destruct (device_ok b); reflexivity.
  - apply config_kept_same. unfold getDisplayMedia.
    destruct (screen_ok b); reflexivity.
  - intros q pcq Hq. simpl in Hq.
    apply lookup_app_Some in Hq as [Hq|[_ Hq]]; [left; eauto|].
    right. apply list_elem_of_lookup_2, list_elem_of_singleton in Hq.
    subst pcq. reflexivity.
  - unfold addTrack. destruct (pcs b !! p) as [c|] eqn:Hp;
      [|apply config_kept_same; reflexivity].
    destruct (closed c); [apply config_kept_same; reflexivity|].
    case_bool_decide; [apply config_kept_same; reflexivity|].
    apply (config_kept_insert b p c (set_senders (senders c ++ [Some t]) c));
      auto.
  - unfold replaceTrack. destruct (pcs b !! sr_pc r) as [c|] eqn:Hp;
      [|apply config_kept_same; reflexivity].
    destruct (closed c); [apply config_kept_same; reflexivity|].
    case_bool_decide; [|apply config_kept_same; reflexivity].
    apply (config_kept_insert b (sr_pc r) c
             (set_senders (<[sr_idx r := t]> (senders c)) c)); auto.
  - intros q pcq Hq. left. simpl in Hq.
    destruct (decide (p = q)) as [<-|Hne].
    + rewrite list_lookup_alter_eq in Hq.
      destruct (pcs b !! p) as [pc|]; [|discriminate].
      injection Hq as <-. eauto.
    + rewrite list_lookup_alter_ne in Hq by exact Hne. eauto.
Qed.

Lemma prim_no_remote (b b' : Browser) :
  prim b b' -> no_remote b /\ stun_only b -> no_remote b' /\ stun_only b'.
Proof.
  intros H [N S]. pose proof (prim_config_kept b b' H) as K.
  split; intros p pc' Hp; destruct (K p pc' Hp) as [(pc & Hpc & E)|E];
    unfold pc_config in E; injection E as E1 E2 E3.
  - destruct (N p pc Hpc). split; congruence.
  - auto.
  - rewrite E1. exact (S p pc Hpc).
  - exact E1.
Qed.

Lemma steps_no_remote (b b' : Browser) :
  steps b b' -> no_remote b /\ stun_only b -> no_remote b' /\ stun_only b'.
Proof.
  induction 1 as [|b1 b2 b3 H _ IH]; [auto|].
  intros H1. apply IH. apply (prim_no_remote b1 b2 H H1).
Qed.

(** ** Inbound signaling *)

Lemma reachable_no_remote (c : Call) :
  reachable c -> no_remote (env c) /\ stun_only (env c).
Proof.
  induction 1 as [d s v|ev c _ IH].
  - split; intros p pc H; discriminate.
  - apply (steps_no_remote _ _ (handle_steps ev c)). exact IH.
Qed.

(** What a handler does to [remoteStream]: it leaves it, clears it, or, for
    the connection's [track] event, stores the first stream of the event. *)
Lemma handle_remoteStream (ev : Event) (c : Call) :
  remoteStream (st (me (handle ev c))) = remoteStream (st (me c)) \/
  remoteStream (st (me (handle ev c))) = None \/
  exists p streams,
    ev = TrackEvent p streams /\
    remoteStream (st (me (handle ev c))) = head streams.
Proof.
  destruct ev.
  - simpl. unfold set_isOpen. case_bool_decide; [left; reflexivity|].
    right. left. destruct o; reflexivity.
  - destruct (awaiting (me c)) as [|[v a] rest] eqn:Haw.
    { simpl. unfold media_settled. rewrite Haw. auto. }
    left. unfold handle, media_settled. rewrite Haw.
    destruct (getUserMedia_settle v a (env c)) as [b o].
    unfold initializeCall_resume. destruct o as [e|s]; [reflexivity|].
    simpl.
    match goal with |- context [addTracks ?p ?l ?b] =>
      destruct (addTracks p l b) as [b3 [e|]] end; reflexivity.
  - simpl. unfold fire_track. destruct (pcs (env c) !! p) as [pc|];
      [|left; reflexivity].
    destruct (ontrack pc); [|left; reflexivity].
    right. right. exists p, streams. split; reflexivity.
  - left. simpl. unfold fire_icecandidate.
    destruct (pcs (env c) !! p) as [pc|]; [|reflexivity].
    destruct (onicecandidate pc); [|reflexivity].
    destruct cand; reflexivity.
  - left. simpl. unfold click, toggleMute.
    destruct (localStream (st (me c))) as [s|]; [|reflexivity].
    destruct (head (getAudioTracks (env c) s)); reflexivity.
  - left. simpl. unfold click, toggleVideo.
    destruct (localStream (st (me c))) as [s|]; [|reflexivity].
    destruct (head (getVideoTracks (env c) s)); reflexivity.
  - left. simpl. unfold click, toggleScreenShare.
    destruct (isScreenSharing (st (me c))); simpl; [reflexivity|].
    destruct (getDisplayMedia (env c)) as [b1 [e|screenStream]];
      [reflexivity|].
    destruct (head (getVideoTracks b1 screenStream)); reflexivity.
  - right. left. simpl. unfold click, endCall, onClose, set_isOpen.
    case_bool_decide; reflexivity.
  - left. simpl. unfold track_ended.
    destruct (tracks (env c) !! t) as [tr|]; [|reflexivity].
    destruct (readyState tr); [|reflexivity].
    destruct (onended tr); reflexivity.
  - left. reflexivity.
  - left. reflexivity.
Qed.

(** The claim of C3 does not hold.  Take the started video call and the
    candidate ["candidate:0"] meant for its connection.  Whatever happens
    to the component from there on, in whatever order (and a delivery can
    reach the component only through something that happens to it), the
    candidate is never applied to the connection and no remote description
    is ever set on it. *)
Lemma early_candidate_never_applied :
  ~ exists evs : list Event,
      let c := run evs (started_call true) in
      candidate_applied "candidate:0" 0 (env c) \/
      exists pc, pcs (env c) !! 0 = Some pc /\ remoteDescription pc <> None.
Proof.
  intros [evs H].
  assert (reachable (run evs (started_call true))) as Hr.
  { apply reachable_run. apply reachable_run. constructor. }
  destruct (reachable_no_remote _ Hr) as [N _].
  destruct H as [(pc & Hp & Hk)|(pc & Hp & Hd)];
    destruct (N 0 pc Hp) as [Hd' Hk'].
  - rewrite Hk' in Hk. apply not_elem_of_nil in Hk. exact Hk.
  - contradiction.
Qed.

(** C3 as amended.  In every state the component can reach, no connection
    has a remote description or a remote candidate: no handler of the
    component sets a description or applies a candidate, so a candidate is
    applied neither when it comes before the description nor when it comes
    after it.  A remote stream is stored, which is what makes the call
    active, only by the connection's [track] callback. *)
Theorem inbound_candidates_never_applied (c : Call) (ev : Event) :
  reachable c ->
  (forall p pc, pcs (env c) !! p = Some pc ->
                remoteDescription pc = None /\ remoteCandidates pc = []) /\
  (forall k p, ~ candidate_applied k p (env c)) /\
  (forall s, remoteStream (st (me (handle ev c))) = Some s ->
             remoteStream (st (me c)) = Some s \/
             exists p more, ev = TrackEvent p (s :: more)).
Proof.
  intros Hr. destruct (reachable_no_remote c Hr) as [N _].
  split; [exact N|]. split.
  - intros k p (pc & Hp & Hk). destruct (N p pc Hp) as [_ E].
    rewrite E in Hk. apply not_elem_of_nil in Hk. exact Hk.
  - intros s Hs.
    destruct (handle_remoteStream ev c) as [E|[E|(p & streams & -> & E)]];
      rewrite E in Hs.
    + left. exact Hs.
    + discriminate.
    + right. destruct streams as [|s0 more]; [discriminate|].
      injection Hs as ->. eauto.
Qed.

Lemma inbound_candidates_never_applied_witness :
  let c := started_call true in
  let ev := TrackEvent 0 [mkStream []] in
  (forall p pc, pcs (env c) !! p = Some pc ->
                remoteDescription pc = None /\ remoteCandidates pc = []) /\
  (forall k p, ~ candidate_applied k p (env c)) /\
  (forall s, remoteStream (st (me (handle ev c))) = Some s ->
             remoteStream (st (me c)) = Some s \/
             exists p more, ev = TrackEvent p (s :: more)).
Proof.
  apply (inbound_candidates_never_applied (started_call true)
           (TrackEvent 0 [mkStream []])).
  apply reachable_run. constructor.
Defined.

(** X6.  In every state the component can reach, nothing has been sent,
    every connection is configured with the two STUN servers and nothing
    else, and no connection has a remote description or a remote candidate:
    the component never creates, sends or applies a session description. *)
Theorem never_negotiates (c : Call) :
  reachable c ->
  outbox (env c) = [] /\ no_remote (env c) /\ stun_only (env c).
Proof.
  induction 1 as [d s v|ev c _ (IHo & IHn & IHs)].
  - split; [reflexivity|]. split; intros p pc H; discriminate.
  - pose proof (handle_steps ev c) as H.
    split; [rewrite (steps_outbox _ _ H); exact IHo|].
    apply (steps_no_remote _ _ H). auto.
Qed.

Lemma never_negotiates_witness :
  let c := run [ClickShare; IceCandidate 0 (Some "candidate:0");
                Signal (offer "v=0"); TrackEvent 0 [mkStream [9]]]
               (started_call true) in
  outbox (env c) = [] /\ no_remote (env c) /\ stun_only (env c).
Proof.
  apply (never_negotiates
           (run [ClickShare; IceCandidate 0 (Some "candidate:0");
                 Signal (offer "v=0"); TrackEvent 0 [mkStream [9]]]
                (started_call true))).
  apply reachable_run. apply reachable_run. constructor.
Defined.

(** ** The shape of the local stream *)

Lemma prim_kinds (b b' : Browser) (k : TrackKind) (t : nat) :
  prim b b' -> has_kind b k t = true -> has_kind b' k t = true.
Proof.
  intros H Hk. pose proof (has_kind_lt b k t Hk) as Hlt.
  assert (forall b2, grows b b2 -> has_kind b2 k t = true) as G.
  { intros b2 G. rewrite (has_kind_grows b b2 k t G Hlt). exact Hk. }
  destruct H.
  - apply G, grows_emit.
  - apply G, track_stop_grows.
  - apply G, pc_close_grows.
  - apply G, getUserMedia_settle_grows.
  - apply G, getDisplayMedia_grows.
  - apply G, newPeerConnection_grows.
  - rewrite (has_kind_same_tracks b); [exact Hk|apply addTrack_tracks].
  - rewrite (has_kind_same_tracks b); [exact Hk|apply replaceTrack_tracks].
  - apply G, flip_enabled_grows.
  - unfold has_kind in *. simpl.
    destruct (decide (t0 = t)) as [->|Hne].
    + rewrite list_lookup_alter_eq. destruct (tracks b !! t); [exact Hk|done].
    + rewrite list_lookup_alter_ne by exact Hne. exact Hk.
  - apply G, grows_pc_alter. reflexivity.
  - apply G. apply (grows_track_update b t0 tr); auto.
  - apply G. apply (grows_stores b b); [apply grows_refl|reflexivity..].
Qed.

Lemma steps_kinds (b b' : Browser) (k : TrackKind) (t : nat) :
  steps b b' -> has_kind b k t = true -> has_kind b' k t = true.
Proof.
  induction 1 as [|b1 b2 b3 H _ IH]; [auto|].
  intros Hk. apply IH. apply (prim_kinds b1 b2 k t H Hk).
Qed.

Lemma media_settled_failure (c : Call) (v a : bool)
    (rest : list (bool * bool)) :
  awaiting (me c) = (v, a) :: rest ->
  device_ok (env c) = false ->
  handle MediaSettled c =
  initializeCall_catch NotAllowedError (with_awaiting rest c).
Proof.
  destruct c as [b m]. simpl. intros Haw Hd.
  unfold media_settled, getUserMedia_settle. simpl. rewrite Haw, Hd.
  destruct b. reflexivity.
Qed.

Lemma toggleScreenShare_component (r : ModalState) (c : Call) :
  let c' := toggleScreenShare r c in
  localStream (st (me c')) = localStream (st (me c)) /\
  peerConnection (st (me c')) = peerConnection (st (me c)) /\
  awaiting (me c') = awaiting (me c) /\
  isVideoCall (me c') = isVideoCall (me c) /\
  effect_render (me c') = effect_render (me c) /\
  isOpen (me c') = isOpen (me c).
Proof.
  unfold toggleScreenShare. destruct (isScreenSharing r); simpl; [done|].
  destruct (getDisplayMedia (env c)) as [b1 [e|s]]; simpl; [done|].
  destruct (head (getVideoTracks b1 s)); simpl; done.
Qed.

Lemma track_ended_component (t : nat) (c : Call) :
  let c' := track_ended t c in
  localStream (st (me c')) = localStream (st (me c)) /\
  peerConnection (st (me c')) = peerConnection (st (me c)) /\
  awaiting (me c') = awaiting (me c) /\
  isVideoCall (me c') = isVideoCall (me c) /\
  effect_render (me c') = effect_render (me c) /\
  isOpen (me c') = isOpen (me c).
Proof.
  unfold track_ended. destruct (tracks (env c) !! t) as [tr|]; [|done].
  destruct (readyState tr); [|done]. destruct (onended tr); done.
Qed.

Lemma stream_shape_steps (c c' : Call) :
  steps (env c) (env c') ->
  isVideoCall (me c') = isVideoCall (me c) ->
  awaiting (me c') = awaiting (me c) ->
  localStream (st (me c')) = localStream (st (me c)) ->
  stream_shape c -> stream_shape c'.
Proof.
  intros Hsteps Hv Ha Hl [A S]. split.
  - rewrite Hv, Ha. exact A.
  - intros s Hs. rewrite Hl in Hs. destruct (S s Hs) as (n & E & Ka & Kv).
    exists n. rewrite Hv. split; [exact E|].
    split; [apply (steps_kinds _ _ _ _ Hsteps Ka)|].
    intros Hiv. apply (steps_kinds _ _ _ _ Hsteps). auto.
Qed.

Lemma handle_stream_shape (ev : Event) (c : Call) :
  stream_shape c -> stream_shape (handle ev c).
Proof.
  intros Hsh. pose proof (handle_steps ev c) as Hsteps.
  destruct ev.
  - (* SetOpen *)
    simpl in *. unfold set_isOpen in *.
    case_bool_decide; [exact Hsh|]. destruct Hsh as [A S].
    destruct o; (split; [|intros s Hs; discriminate]); simpl.
    + apply Forall_app. split; [exact A|]. repeat constructor.
    + exact A.
  - (* MediaSettled *)
    destruct (awaiting (me c)) as [|[v a] rest] eqn:Haw.
    { simpl in *. unfold media_settled in *. rewrite Haw in *. exact Hsh. }
    destruct Hsh as [A S]. rewrite Haw in A.
    apply Forall_cons in A as [E A]. injection E as -> ->.
    destruct (device_ok (env c)) eqn:Hd.
    + rewrite (media_settled_success c _ rest Haw Hd).
      split; [exact A|]. simpl. intros s [= <-].
      exists (length (tracks (env c))). split; [reflexivity|].
      destruct (connected_env_audio (env c) (isVideoCall (me c)))
        as (Ha & Hv & _).
      split.
      * apply (head_filter_holds (has_kind _ audio)
                 (stream_tracks (acquired_stream (env c) (isVideoCall (me c))))).
        fold (getAudioTracks (connected_env (env c) (isVideoCall (me c)))
                (acquired_stream (env c) (isVideoCall (me c)))).
        rewrite Ha. reflexivity.
      * intros Hiv. rewrite Hiv in Hv.
        apply (head_filter_holds (has_kind _ video)
                 (stream_tracks (acquired_stream (env c) (isVideoCall (me c))))).
        fold (getVideoTracks (connected_env (env c) (isVideoCall (me c)))
                (acquired_stream (env c) (isVideoCall (me c)))).
        rewrite Hiv, Hv. reflexivity.
    + rewrite (media_settled_failure c _ _ rest Haw Hd) in *.
      split; [exact A|]. simpl. intros s Hs.
      destruct (S s Hs) as (n & E & Ka & Kv). exists n. auto.
  - simpl in *. unfold fire_track in *.
    destruct (pcs (env c) !! p) as [pc|]; [|exact Hsh].
    destruct (ontrack pc); [|exact Hsh].
    apply (stream_shape_steps c); auto.
  - simpl in *. unfold fire_icecandidate in *.
    destruct (pcs (env c) !! p) as [pc|]; [|exact Hsh].
    destruct (onicecandidate pc); [|exact Hsh].
    destruct cand; [|exact Hsh]. apply (stream_shape_steps c); auto.
  - simpl in *. unfold click, toggleMute in *.
    destruct (localStream (st (me c))) as [s|] eqn:Hs; [|exact Hsh].
    destruct (head (getAudioTracks (env c) s)); [|exact Hsh].
    apply (stream_shape_steps c); auto.
  - simpl in *. unfold click, toggleVideo in *.
    destruct (localStream (st (me c))) as [s|] eqn:Hs; [|exact Hsh].
    destruct (head (getVideoTracks (env c) s)); [|exact Hsh].
    apply (stream_shape_steps c); auto.
  - destruct (toggleScreenShare_component (st (me c)) c)
      as (Hl & _ & Ha & Hv & _).
    apply (stream_shape_steps c); auto.
  - destruct (endCall_component (st (me c)) c)
      as (_ & Hv & Ha & _ & Hl & _).
    destruct Hsh as [A S]. split.
    + simpl. unfold click. rewrite Hv, Ha. exact A.
    + simpl. unfold click. intros s Hs. congruence.
  - destruct (track_ended_component t c) as (Hl & _ & Ha & Hv & _).
    apply (stream_shape_steps c); auto.
  - apply (stream_shape_steps c); auto.
  - exact Hsh.
Qed.

Lemma reachable_stream_shape (c : Call) : reachable c -> stream_shape c.
Proof.
  induction 1 as [d s v|ev c _ IH].
  - split; [constructor|]. intros s0 H. discriminate.
  - apply handle_stream_shape. exact IH.
Qed.

(** X7.  In every reachable state the handler of every button the
    component renders returns normally: the mute toggle always finds its
    audio track, and the video toggle, rendered for a video call only, finds
    its video track.  For an audio call that holds a stream the video
    toggle, which has no button, would throw a [TypeError] and change
    nothing. *)
Theorem rendered_buttons_do_not_throw (c : Call) :
  reachable c ->
  (exists c', click toggleMute c = Ok c') /\
  (ClickVideo ∈ buttons (me c) -> exists c', click toggleVideo c = Ok c') /\
  (ClickVideo ∉ buttons (me c) -> localStream (st (me c)) <> None ->
   click toggleVideo c = Throw TypeError c).
Proof.
  intros Hr. destruct (reachable_stream_shape c Hr) as [_ S].
  unfold click, toggleMute, toggleVideo, buttons.
  destruct (localStream (st (me c))) as [s|] eqn:Hs.
  - destruct (S s eq_refl) as (n & E & Ka & Kv).
    unfold getAudioTracks, getVideoTracks. rewrite E.
    assert (has_kind (env c) video n = false) as Kn.
    { unfold has_kind in *. destruct (tracks (env c) !! n); [|reflexivity].
      case_bool_decide as Ha; [|discriminate].
      rewrite Ha. reflexivity. }
    simpl. rewrite Ka, Kn. simpl.
    split; [eauto|].
    destruct (isVideoCall (me c)); simpl.
    + rewrite (Kv eq_refl). simpl. split; [eauto|].
      intros Hn. exfalso. apply Hn. apply elem_of_cons. right. apply list_elem_of_here.
    + split; [|reflexivity]. intros Hin. exfalso.
      apply list_elem_of_In in Hin. simpl in Hin.
      destruct Hin as [H|[H|H]]; [discriminate..|contradiction].
  - split; [eauto|]. split; [eauto|]. intros _ H. congruence.
Qed.

Lemma rendered_buttons_do_not_throw_witness :
  let c := run [ClickShare; ClickMute] (started_call false) in
  (exists c', click toggleMute c = Ok c') /\
  (ClickVideo ∈ buttons (me c) -> exists c', click toggleVideo c = Ok c') /\
  (ClickVideo ∉ buttons (me c) -> localStream (st (me c)) <> None ->
   click toggleVideo c = Throw TypeError c).
Proof.
  apply (rendered_buttons_do_not_throw
           (run [ClickShare; ClickMute] (started_call false))).
  apply reachable_run. apply reachable_run. constructor.
Defined.

(** ** Tracks the component does not stop *)

Lemma is_live_same_tracks (b b' : Browser) (t : nat) :
  tracks b' = tracks b -> is_live b' t = is_live b t.
Proof. intros E. unfold is_live. rewrite E. reflexivity. Qed.

Lemma is_live_app (b b' : Browser) (l : list Track) (t : nat) :
  tracks b' = tracks b ++ l -> is_live b t = true -> is_live b' t = true.
Proof.
  intros E. unfold is_live. rewrite E.
  destruct (tracks b !! t) as [tr|] eqn:Ht; [|discriminate].
  rewrite (lookup_app_l_Some _ _ _ _ Ht). auto.
Qed.

Lemma is_live_alter (b b' : Browser) (f : Track -> Track) (t0 t : nat) :
  (forall tr, readyState (f tr) = readyState tr) ->
  tracks b' = alter f t0 (tracks b) -> is_live b' t = is_live b t.
Proof.
  intros Hf E. unfold is_live. rewrite E.
  destruct (decide (t0 = t)) as [->|Hne].
  - rewrite list_lookup_alter_eq. destruct (tracks b !! t); simpl;
      [rewrite Hf|]; reflexivity.
  - rewrite list_lookup_alter_ne by exact Hne. reflexivity.
Qed.

Lemma is_live_flip_enabled (b : Browser) (a t : nat) :
  is_live (flip_enabled a b) t = is_live b t.
Proof.
  apply (is_live_alter b _ (fun tr => set_enabled (negb (enabled tr)) tr) a t);
    reflexivity.
Qed.

Lemma cleanup_env_unowned (r : ModalState) (b : Browser) (t : nat) :
  t ∉ render_tracks r -> is_live (cleanup_env r b) t = is_live b t.
Proof.
  intros H. rewrite (proj2 (cleanup_env_released r t b)).
  rewrite bool_decide_eq_false_2 by exact H. apply andb_true_r.
Qed.

Lemma set_isOpen_env (o : bool) (c : Call) :
  env (set_isOpen o c) = env c \/
  (isOpen (me c) <> o /\
   tracks (env (set_isOpen o c))
   = tracks (cleanup_env (effect_render (me c)) (env c))).
Proof.
  unfold set_isOpen. case_bool_decide; [left; reflexivity|].
  right. split; [assumption|]. destruct o; reflexivity.
Qed.

Lemma set_isOpen_keeps_live (o : bool) (c : Call) (t : nat) :
  t ∉ render_tracks (effect_render (me c)) ->
  is_live (env (set_isOpen o c)) t = is_live (env c) t.
Proof.
  intros H. destruct (set_isOpen_env o c) as [->|[_ E]]; [reflexivity|].
  rewrite (is_live_same_tracks _ _ t E). apply cleanup_env_unowned. exact H.
Qed.

Lemma toggleScreenShare_keeps_live (r : ModalState) (c : Call) (t : nat) :
  is_live (env c) t = true -> is_live (env (toggleScreenShare r c)) t = true.
Proof.
  intros Hl. unfold toggleScreenShare. destruct (isScreenSharing r); simpl.
  - rewrite (is_live_same_tracks (env c)); [exact Hl|].
    apply restore_camera_tracks.
  - assert (is_live (getDisplayMedia (env c)).1 t = true) as H1.
    { unfold getDisplayMedia. destruct (screen_ok (env c)); simpl;
        [|exact Hl].
      apply (is_live_app (env c) _ [fresh_track video]); [reflexivity|exact Hl]. }
    destruct (getDisplayMedia (env c)) as [b1 o]. simpl in H1.
    destruct o as [e|screenStream]; [exact H1|].
    set (b2 := match find_video_sender b1 (peerConnection r) with
               | Some s => replaceTrack s (head (getVideoTracks b1 screenStream)) b1
               | None => b1
               end).
    assert (is_live b2 t = true) as H2.
    { subst b2. destruct (find_video_sender b1 (peerConnection r));
        [|exact H1].
      rewrite (is_live_same_tracks b1); [exact H1|].
      apply replaceTrack_tracks. }
    destruct (head (getVideoTracks b1 screenStream)); simpl; [|exact H2].
    match goal with
    | |- is_live (set_tracks (alter ?f _ _) _) _ = _ =>
        rewrite (is_live_alter b2 _ f n t); [exact H2| |reflexivity]
    end.
    reflexivity.
Qed.

Lemma handle_keeps_live (ev : Event) (c : Call) (t : nat) :
  is_live (env c) t = true -> unowned c t -> ev <> TrackEnded t ->
  is_live (env (handle ev c)) t = true.
Proof.
  intros Hl [Us Ue] Hev. destruct ev; simpl.
  - rewrite set_isOpen_keeps_live; assumption.
  - apply media_settled_live. exact Hl.
  - unfold fire_track. destruct (pcs (env c) !! p) as [pc|];
      [destruct (ontrack pc)|]; exact Hl.
  - unfold fire_icecandidate. destruct (pcs (env c) !! p) as [pc|];
      [|exact Hl].
    destruct (onicecandidate pc); [|exact Hl]. destruct cand; exact Hl.
  - unfold click, toggleMute. destruct (localStream (st (me c))) as [s|];
      [|exact Hl].
    destruct (head (getAudioTracks (env c) s)); [|exact Hl]. simpl.
    rewrite is_live_flip_enabled. exact Hl.
  - unfold click, toggleVideo. destruct (localStream (st (me c))) as [s|];
      [|exact Hl].
    destruct (head (getVideoTracks (env c) s)); [|exact Hl]. simpl.
    rewrite is_live_flip_enabled. exact Hl.
  - apply toggleScreenShare_keeps_live. exact Hl.
  - unfold click, endCall, onClose.
    rewrite set_isOpen_keeps_live by exact Ue.
    rewrite cleanup_env_eq, cleanup_env_unowned by exact Us. exact Hl.
  - assert (t0 <> t) as Hne by congruence.
    unfold track_ended. destruct (tracks (env c) !! t0) as [tr|] eqn:Ht;
      [|exact Hl].
    destruct (readyState tr); [|exact Hl].
    assert (is_live (set_tracks (<[t0:=set_readyState ended tr]>
                                   (tracks (env c))) (env c)) t = true) as H1.
    { unfold is_live in *. simpl.
      rewrite list_lookup_insert_ne by exact Hne. exact Hl. }
    destruct (onended tr) as [h|]; [|exact H1].
    unfold screen_onended. simpl.
    rewrite (is_live_same_tracks
               (set_tracks (<[t0:=set_readyState ended tr]> (tracks (env c)))
                           (env c))); [exact H1|].
    apply restore_camera_tracks.
  - exact Hl.
  - exact Hl.
Qed.

Lemma prim_length (b b' : Browser) :
  prim b b' -> length (tracks b) <= length (tracks b').
Proof.
  intros H. destruct (length (tracks b)) as [|n] eqn:E; [lia|].
  assert (n < length (tracks b)) as Hn by lia.
  destruct (lookup_lt_is_Some_2 _ _ Hn) as [tr Htr].
  assert (has_kind b (kind tr) n = true) as Hk.
  { unfold has_kind. rewrite Htr. apply bool_decide_eq_true_2. reflexivity. }
  apply (prim_kinds b b' _ _ H), has_kind_lt in Hk. lia.
Qed.

Lemma steps_length (b b' : Browser) :
  steps b b' -> length (tracks b) <= length (tracks b').
Proof.
  induction 1 as [|b1 b2 b3 H _ IH]; [lia|].
  apply prim_length in H. lia.
Qed.

Lemma handle_unowned (ev : Event) (c : Call) (t : nat) :
  t < length (tracks (env c)) -> unowned c t -> unowned (handle ev c) t.
Proof.
  intros Hlt [Us Ue]. unfold unowned, render_tracks in *. destruct ev.
  - simpl. unfold set_isOpen. case_bool_decide; [auto|].
    destruct o; simpl; (split; [apply not_elem_of_nil|exact Us]).
  - destruct (awaiting (me c)) as [|[v a] rest] eqn:Haw.
    { simpl. unfold media_settled. rewrite Haw. auto. }
    destruct (device_ok (env c)) eqn:Hd.
    + unfold handle, media_settled, getUserMedia_settle.
      rewrite Haw, Hd. cbn -[initializeCall_resume].
      rewrite initializeCall_resume_stream.
      assert (effect_render
                (me (initializeCall_resume
                       (inr (mkStream (seq (length (tracks (env c)))
                          (length ((if a then [fresh_track audio] else []) ++
                                   (if v then [fresh_track video] else []))))))
                       (with_awaiting rest
                          (with_env
                             (set_tracks
                                (tracks (env c) ++
                                 (if a then [fresh_track audio] else []) ++
                                 (if v then [fresh_track video] else []))
                                (env c)) c))))
              = effect_render (me c)) as ->.
      { unfold initializeCall_resume. simpl.
        match goal with |- context [addTracks ?p ?l ?b] =>
          destruct (addTracks p l b) as [b3 [e|]] end; reflexivity. }
      split; [|exact Ue]. simpl. intros Hin. apply elem_of_seq in Hin. lia.
    + rewrite (media_settled_failure c v a rest Haw Hd). simpl. auto.
  - simpl. unfold fire_track. destruct (pcs (env c) !! p) as [pc|];
      [destruct (ontrack pc)|]; simpl; auto.
  - simpl. unfold fire_icecandidate. destruct (pcs (env c) !! p) as [pc|];
      [destruct (onicecandidate pc); [destruct cand|]|]; simpl; auto.
  - simpl. unfold click, toggleMute.
    destruct (localStream (st (me c))) as [s|] eqn:Hs;
      [|simpl; rewrite Hs; auto].
    destruct (head (getAudioTracks (env c) s)); simpl; rewrite Hs; auto.
  - simpl. unfold click, toggleVideo.
    destruct (localStream (st (me c))) as [s|] eqn:Hs;
      [|simpl; rewrite Hs; auto].
    destruct (head (getVideoTracks (env c) s)); simpl; rewrite Hs; auto.
  - destruct (toggleScreenShare_component (st (me c)) c)
      as (Hl & _ & _ & _ & He & _).
    simpl. unfold click. rewrite Hl, He. auto.
  - simpl. unfold click, endCall, onClose, set_isOpen.
    case_bool_decide; simpl; [|split; apply not_elem_of_nil].
    split; [apply not_elem_of_nil|exact Ue].
  - destruct (track_ended_component t0 c) as (Hl & _ & _ & _ & He & _).
    simpl. rewrite Hl, He. auto.
  - simpl. auto.
  - simpl. auto.
Qed.

(** A live track that the component does not own stays live, whatever
    happens, until its own source ends. *)
Lemma unowned_track_stays_live (evs : list Event) (c : Call) (t : nat) :
  is_live (env c) t = true -> unowned c t -> TrackEnded t ∉ evs ->
  is_live (env (run evs c)) t = true.
Proof.
  revert c. induction evs as [|ev evs IH]; intros c Hl Hu Hn; [exact Hl|].
  apply not_elem_of_cons in Hn as [Hne Hn].
  unfold run in *. simpl. apply IH; [|  |exact Hn].
  - apply handle_keeps_live; [exact Hl|exact Hu|congruence].
  - apply handle_unowned; [|exact Hu].
    unfold is_live in Hl. destruct (tracks (env c) !! t) eqn:E;
      [|discriminate]. eapply lookup_lt_Some. exact E.
Qed.

Lemma handle_effect_render (ev : Event) (c : Call) :
  localStream (effect_render (me (handle ev c)))
  = localStream (effect_render (me c)) \/
  localStream (effect_render (me (handle ev c))) = localStream (st (me c)) \/
  localStream (effect_render (me (handle ev c))) = None.
Proof.
  destruct ev.
  - simpl. unfold set_isOpen. case_bool_decide; [auto|].
    destruct o; simpl; auto.
  - destruct (awaiting (me c)) as [|[v a] rest] eqn:Haw.
    { simpl. unfold media_settled. rewrite Haw. auto. }
    left. unfold handle, media_settled. rewrite Haw.
    destruct (getUserMedia_settle v a (env c)) as [b o].
    unfold initializeCall_resume. destruct o as [e|s]; [reflexivity|].
    simpl.
    match goal with |- context [addTracks ?p ?l ?b] =>
      destruct (addTracks p l b) as [b3 [e|]] end; reflexivity.
  - simpl. unfold fire_track. destruct (pcs (env c) !! p) as [pc|];
      [destruct (ontrack pc)|]; auto.
  - simpl. unfold fire_icecandidate. destruct (pcs (env c) !! p) as [pc|];
      [destruct (onicecandidate pc); [destruct cand|]|]; auto.
  - simpl. unfold click, toggleMute.
    destruct (localStream (st (me c))) as [s|]; [|auto].
    destruct (head (getAudioTracks (env c) s)); auto.
  - simpl. unfold click, toggleVideo.
    destruct (localStream (st (me c))) as [s|]; [|auto].
    destruct (head (getVideoTracks (env c) s)); auto.
  - left. destruct (toggleScreenShare_component (st (me c)) c)
      as (_ & _ & _ & _ & He & _).
    simpl. unfold click. rewrite He. reflexivity.
  - simpl. unfold click, endCall, onClose, set_isOpen.
    case_bool_decide; simpl; auto.
  - left. destruct (track_ended_component t c) as (_ & _ & _ & _ & He & _).
    simpl. rewrite He. reflexivity.
  - auto.
  - auto.
Qed.

Lemma reachable_effect_render_ok (c : Call) :
  reachable c ->
  stream_ok (env c) (localStream (effect_render (me c))).
Proof.
  induction 1 as [d s v|ev c Hr IH]; [intros s0 H; discriminate|].
  pose proof (steps_length _ _ (handle_steps ev c)) as Hlen.
  destruct (reachable_ok c Hr) as [_ Hst].
  intros s0 Hs0.
  destruct (handle_effect_render ev c) as [E|[E|E]]; rewrite E in Hs0.
  - eapply Forall_impl; [exact (IH s0 Hs0)|]. simpl. intros. lia.
  - eapply Forall_impl; [exact (Hst s0 Hs0)|]. simpl. intros. lia.
  - discriminate.
Qed.

(** X8.  The component never stops the screen capture.  After a click
    has started sharing, the screen track stays live through everything
    that can happen to the component (a second click that stops sharing, a
    hang-up, the dialog closing and a new call) until the capture is ended
    from outside the component. *)
Theorem screen_capture_is_never_stopped (c : Call) (evs : list Event) :
  reachable c ->
  isScreenSharing (st (me c)) = false ->
  screen_ok (env c) = true ->
  let screen := length (tracks (env c)) in
  TrackEnded screen ∉ evs ->
  has_kind (env (handle ClickShare c)) video screen = true /\
  is_live (env (handle ClickShare c)) screen = true /\
  is_live (env (run evs (handle ClickShare c))) screen = true.
Proof.
  intros Hr Hsh Hscreen screen Hn.
  destruct (reachable_ok c Hr) as [_ Hst].
  pose proof (reachable_effect_render_ok c Hr) as Her.
  assert (tracks (env (handle ClickShare c)) !! screen
          = Some (mkTrack video true live
                    (Some (mkEndedHandler (localStream (st (me c)))
                       (find_video_sender
                          (getDisplayMedia (env c)).1
                          (peerConnection (st (me c)))))))) as Ht.
  { simpl. unfold click, toggleScreenShare. rewrite Hsh. simpl.
    unfold getDisplayMedia. rewrite Hscreen. simpl.
    unfold getVideoTracks, has_kind. simpl.
    rewrite list_lookup_middle by reflexivity. simpl.
    destruct (find_video_sender _ (peerConnection (st (me c)))) as [r|];
      simpl; rewrite ?(proj1 (replaceTrack_tracks _ _ _)); simpl;
      rewrite list_lookup_alter_eq, list_lookup_middle by reflexivity;
      reflexivity. }
  assert (is_live (env (handle ClickShare c)) screen = true) as Hl.
  { unfold is_live. rewrite Ht. reflexivity. }
  split. { unfold has_kind. rewrite Ht. reflexivity. }
  split; [exact Hl|].
  apply unowned_track_stays_live; [exact Hl| |exact Hn].
  destruct (toggleScreenShare_component (st (me c)) c)
    as (Hls & _ & _ & _ & Hes & _).
  unfold unowned, render_tracks. simpl. unfold click. rewrite Hls, Hes.
  split.
  - destruct (localStream (st (me c))) as [s|] eqn:Hs;
      [|apply not_elem_of_nil].
    intros Hin. specialize (Hst s eq_refl). rewrite Forall_forall in Hst.
    specialize (Hst _ Hin). unfold screen in Hst. lia.
  - destruct (localStream (effect_render (me c))) as [s|] eqn:Hs;
      [|apply not_elem_of_nil].
    intros Hin. specialize (Her s eq_refl). rewrite Forall_forall in Her.
    specialize (Her _ Hin). unfold screen in Her. lia.
Qed.

Lemma screen_capture_is_never_stopped_witness :
  let c := started_call true in
  let evs := [ClickShare; ClickEnd; SetOpen true; MediaSettled; ClickEnd] in
  has_kind (env (handle ClickShare c)) video 2 = true /\
  is_live (env (handle ClickShare c)) 2 = true /\
  is_live (env (run evs (handle ClickShare c))) 2 = true.
Proof.
  apply (screen_capture_is_never_stopped (started_call true)
           [ClickShare; ClickEnd; SetOpen true; MediaSettled; ClickEnd]).
  - apply reachable_run. constructor.
  - reflexivity.
  - reflexivity.
  - vm_compute. intros H. apply list_elem_of_In in H. simpl in H.
    repeat destruct H as [H|H]; try discriminate. exact H.
Defined.

(** ** Exactly one video track, and when it produces video *)





(** ** The video toggle *)

Lemma getVideoTracks_flip_enabled (b : Browser) (a : nat) (s : MediaStream) :
  getVideoTracks (flip_enabled a b) s = getVideoTracks b s.
Proof.
  unfold getVideoTracks. apply List.filter_ext. intros t.
  apply has_kind_flip_enabled.
Qed.

Lemma track_enabled_flip_eq (b : Browser) (k : TrackKind) (a : nat) :
  has_kind b k a = true ->
  track_enabled (flip_enabled a b) a = negb (track_enabled b a).
Proof.
  unfold has_kind, track_enabled, flip_enabled. simpl.
  rewrite list_lookup_alter_eq.
  destruct (tracks b !! a); [reflexivity|discriminate].
Qed.

Lemma track_enabled_flip_ne (b : Browser) (a t : nat) :
  a <> t -> track_enabled (flip_enabled a b) t = track_enabled b t.
Proof.
  intros H. unfold track_enabled, flip_enabled. simpl.
  rewrite list_lookup_alter_ne by exact H. reflexivity.
Qed.

(** X9.  With a local stream that has a video track, a click on the
    video button flips the [enabled] flag of the stream's first video track
    and of no other track, and sets [isVideoEnabled] to the new flag; two
    clicks bring the flag back.  The toggle acts on the camera track of the
    local stream even while a screen track is on the sender, so it does not
    switch off a shared screen. *)
Theorem video_toggle_round_trip (c : Call) (s : MediaStream) (v : nat) :
  localStream (st (me c)) = Some s ->
  head (getVideoTracks (env c) s) = Some v ->
  exists c1 c2 : Call,
    click toggleVideo c = Ok c1 /\
    click toggleVideo c1 = Ok c2 /\
    track_enabled (env c1) v = negb (track_enabled (env c) v) /\
    isVideoEnabled (st (me c1)) = track_enabled (env c1) v /\
    (forall t, t <> v -> track_enabled (env c1) t = track_enabled (env c) t) /\
    track_enabled (env c2) v = track_enabled (env c) v /\
    isVideoEnabled (st (me c2)) = track_enabled (env c2) v.
Proof.
  intros Hs Hv.
  pose proof (head_filter_holds _ _ _ Hv) as Hk.
  unfold click, toggleVideo. rewrite Hs, Hv.
  eexists. eexists. split; [reflexivity|]. simpl.
  rewrite Hs, getVideoTracks_flip_enabled, Hv. simpl.
  split; [reflexivity|]. simpl.
  rewrite !(track_enabled_flip_eq _ video)
    by (rewrite ?has_kind_flip_enabled; exact Hk).
  rewrite !negb_involutive.
  split; [reflexivity|]. split; [reflexivity|].
  split; [|auto].
  intros t Hne. apply track_enabled_flip_ne. congruence.
Qed.

Lemma video_toggle_round_trip_witness :
  let c := handle ClickShare (started_call true) in
  exists c1 c2 : Call,
    click toggleVideo c = Ok c1 /\
    click toggleVideo c1 = Ok c2 /\
    track_enabled (env c1) 1 = negb (track_enabled (env c) 1) /\
    isVideoEnabled (st (me c1)) = track_enabled (env c1) 1 /\
    (forall t, t <> 1 -> track_enabled (env c1) t = track_enabled (env c) t) /\
    track_enabled (env c2) 1 = track_enabled (env c) 1 /\
    isVideoEnabled (st (me c2)) = track_enabled (env c2) 1.
Proof.
  apply (video_toggle_round_trip (handle ClickShare (started_call true))
           (mkStream [0; 1]) 1); reflexivity.
Defined.

(** X10.  The mute and video toggles act on a flag and on nothing else:
    they call nothing that is logged, leave every connection and its senders
    as they are, and end no track, so the microphone and the camera stay
    captured while muted or switched off. *)
Theorem toggles_keep_capture (c : Call) (ev : Event) :
  ev = ClickMute \/ ev = ClickVideo ->
  let c' := handle ev c in
  pcs (env c') = pcs (env c) /\
  trace (env c') = trace (env c) /\
  outbox (env c') = outbox (env c) /\
  (forall t, is_live (env c') t = is_live (env c) t) /\
  (forall t, released (env c') t = released (env c) t) /\
  localStream (st (me c')) = localStream (st (me c)) /\
  peerConnection (st (me c')) = peerConnection (st (me c)).
Proof.
  intros [-> | ->]; simpl; unfold click, toggleMute, toggleVideo;
    destruct (localStream (st (me c))) as [s|] eqn:Hs; simpl;
    try (rewrite Hs; auto 10; fail).
  - destruct (head (getAudioTracks (env c) s)); simpl; rewrite Hs;
      [|auto 10].
    repeat split; try reflexivity.
    intros t. apply is_live_flip_enabled.
  - destruct (head (getVideoTracks (env c) s)); simpl; rewrite Hs;
      [|auto 10].
    repeat split; try reflexivity.
    intros t. apply is_live_flip_enabled.
Qed.

Lemma toggles_keep_capture_witness :
  let c := started_call true in
  let c' := handle ClickMute c in
  pcs (env c') = pcs (env c) /\
  trace (env c') = trace (env c) /\
  outbox (env c') = outbox (env c) /\
  (forall t, is_live (env c') t = is_live (env c) t) /\
  (forall t, released (env c') t = released (env c) t) /\
  localStream (st (me c')) = localStream (st (me c)) /\
  peerConnection (st (me c')) = peerConnection (st (me c)).
Proof.
  apply (toggles_keep_capture (started_call true) ClickMute).
  left. reflexivity.
Defined.

(** ** After a hang-up *)

(** X11.  After a click on the hang-up button the component holds
    nothing: the dialog is closed, the three references are null, every
    track of the stream it had is ended and the connection it had is closed.
    With no acquisition in flight it is idle again. *)
Theorem hangup_releases_everything (c : Call) :
  let c' := handle ClickEnd c in
  isOpen (me c') = false /\
  localStream (st (me c')) = None /\
  remoteStream (st (me c')) = None /\
  peerConnection (st (me c')) = None /\
  (forall t, t ∈ render_tracks (st (me c)) -> is_live (env c') t = false) /\
  (forall p, peerConnection (st (me c)) = Some p ->
             is_open (env c') p = false) /\
  holds_capture (env c') (me c') = false /\
  (awaiting (me c) = [] -> phase c' = Idle).
Proof.
  destruct (endCall_component (st (me c)) c)
    as (Ho & _ & Haw & _ & Hl & Hr & Hp & _).
  fold (click endCall c) in Ho, Haw, Hl, Hr, Hp. simpl.
  split; [exact Ho|]. split; [exact Hl|]. split; [exact Hr|].
  split; [exact Hp|].
  assert (env (click endCall c)
          = (if isOpen (me c)
             then cleanup_env (effect_render (me c))
                              (cleanup_env (st (me c)) (env c))
             else cleanup_env (st (me c)) (env c))) as E.
  { unfold click, endCall, onClose. rewrite set_isOpen_false_env. simpl.
    reflexivity. }
  split.
  { intros t Ht. rewrite E.
    assert (is_live (cleanup_env (st (me c)) (env c)) t = false) as H1.
    { rewrite (proj2 (cleanup_env_released _ _ _)).
      rewrite bool_decide_eq_true_2 by exact Ht. apply andb_false_r. }
    destruct (isOpen (me c)); [|exact H1].
    apply (cleanup_env_ended _ _ _ H1). }
  split.
  { intros p Hpc. rewrite E.
    assert (is_open (cleanup_env (st (me c)) (env c)) p = false) as H1.
    { rewrite (proj2 (cleanup_env_closings _ _ _)).
      rewrite bool_decide_eq_true_2 by exact Hpc. apply andb_false_r. }
    destruct (isOpen (me c)); [|exact H1].
    apply (cleanup_env_closed _ _ _ H1). }
  split.
  { unfold holds_capture, render_tracks. rewrite Hl. reflexivity. }
  intros Hnil. unfold phase. rewrite Haw, Hnil, Hr, Hp, Hl, Ho. reflexivity.
Qed.

Lemma hangup_releases_everything_witness :
  let c := started_call true in
  let c' := handle ClickEnd c in
  isOpen (me c') = false /\
  localStream (st (me c')) = None /\
  remoteStream (st (me c')) = None /\
  peerConnection (st (me c')) = None /\
  (forall t, t ∈ render_tracks (st (me c)) -> is_live (env c') t = false) /\
  (forall p, peerConnection (st (me c)) = Some p ->
             is_open (env c') p = false) /\
  holds_capture (env c') (me c') = false /\
  (awaiting (me c) = [] -> phase c' = Idle).
Proof. apply (hangup_releases_everything (started_call true)). Defined.

(** ** The message form *)

Lemma trimStart_no_leading (s : JsString) : no_leading_space (trimStart s).
Proof.
  induction s as [|u l IH]; simpl; [exact I|].
  destruct (is_space u) eqn:E; [exact IH|exact E].
Qed.

Lemma trimStart_id (s : JsString) : no_leading_space s -> trimStart s = s.
Proof. destruct s as [|u l]; simpl; [reflexivity|]. intros ->. reflexivity. Qed.

Lemma trimEnd_cons_keep (u : N) (l : JsString) :
  is_space u = false -> trimEnd (u :: l) = u :: trimEnd l.
Proof. intros E. simpl. rewrite E. destruct (trimEnd l); reflexivity. Qed.

Lemma trimEnd_no_leading (s : JsString) :
  no_leading_space s -> no_leading_space (trimEnd s).
Proof.
  destruct s as [|u l]; [exact id|]. simpl. intros E.
  rewrite E. destruct (trimEnd l); exact E.
Qed.

Lemma trimEnd_idem (s : JsString) : trimEnd (trimEnd s) = trimEnd s.
Proof.
  induction s as [|u l IH]; [reflexivity|]. simpl.
  destruct (trimEnd l) as [|u' l'] eqn:E.
  - destruct (is_space u) eqn:Eu; [reflexivity|]. simpl. rewrite Eu.
    reflexivity.
  - change (trimEnd (u :: u' :: l')) with
      (match trimEnd (u' :: l') with
       | [] => if is_space u then [] else [u]
       | l2 => u :: l2
       end).
    rewrite IH. reflexivity.
Qed.

Lemma trim_idem (s : JsString) : trim (trim s) = trim s.
Proof.
  unfold trim.
  rewrite (trimStart_id (trimEnd (trimStart s)))
    by apply trimEnd_no_leading, trimStart_no_leading.
  apply trimEnd_idem.
Qed.

Lemma no_leading_app (l k : JsString) :
  l <> [] -> no_leading_space l -> no_leading_space (l ++ k).
Proof. destruct l; [congruence|]. simpl. auto. Qed.

Lemma trimEnd_no_trailing (s : JsString) :
  no_leading_space (rev (trimEnd s)).
Proof.
  induction s as [|u l IH]; [exact I|]. simpl.
  destruct (trimEnd l) as [|u' l'] eqn:E.
  - destruct (is_space u) eqn:Eu; [exact I|exact Eu].
  - change (no_leading_space (rev (u' :: l') ++ [u])).
    apply no_leading_app; [|exact IH].
    simpl. intros H. apply app_eq_nil in H as [_ H]. discriminate.
Qed.

Lemma code_points_le (s : JsString) :
  code_points s <= length s /\
  forall u, code_points (u :: s) <= S (length s).
Proof.
  induction s as [|l s [IH1 IH2]].
  - split; [reflexivity|]. intros u. reflexivity.
  - split; [apply IH2|]. intros u.
    change (code_points (u :: l :: s))
      with (if is_high_surrogate u && is_low_surrogate l
            then S (code_points s) else S (code_points (l :: s))).
    specialize (IH2 l). simpl length.
    destruct (is_high_surrogate u && is_low_surrogate l); lia.
Qed.

Lemma code_points_pos (s : JsString) : s <> [] -> 0 < code_points s.
Proof.
  destruct s as [|u [|l s]]; [contradiction| |]; intros _.
  - simpl. lia.
  - change (code_points (u :: l :: s))
      with (if is_high_surrogate u && is_low_surrogate l
            then S (code_points s) else S (code_points (l :: s))).
    destruct (is_high_surrogate u && is_low_surrogate l); lia.
Qed.

Lemma units_within_check (s : JsString) :
  s <> [] -> (N.of_nat (length s) <= 5000)%N -> message_length_check s.
Proof.
  intros Hne Hle. unfold message_length_check.
  pose proof (proj1 (code_points_le s)). pose proof (code_points_pos s Hne).
  lia.
Qed.

Lemma safeParse_spec (draft : JsString) :
  let t := trim draft in
  (t = [] /\ safeParse draft = inl ["Message cannot be empty"]) \/
  (t <> [] /\ (N.of_nat (length t) <= 5000)%N /\ safeParse draft = inr t) \/
  (t <> [] /\ (5000 < N.of_nat (length t))%N /\
   safeParse draft = inl ["Message too long (max 5000 characters)"]).
Proof.
  unfold safeParse, schema_issues. simpl.
  destruct (trim draft) as [|u l] eqn:E.
  - left. simpl. auto.
  - right.
    destruct (N.ltb_spec (N.of_nat (length (u :: l))) 1) as [H1|H1];
      [simpl in H1; lia|].
    destruct (N.ltb_spec 5000 (N.of_nat (length (u :: l)))) as [H2|H2].
    + right. auto.
    + left. auto.
Qed.

(** X12.  A message that [messageSchema] accepts is the draft with the
    white space at both ends removed; it has at least one and at most 5000
    code units, and so satisfies the length constraint of the messages
    table, which counts characters; and it is accepted unchanged when
    validated again. *)
Theorem accepted_message (draft content : JsString) :
  safeParse draft = inr content ->
  content = trim draft /\
  (1 <= N.of_nat (length content) <= 5000)%N /\
  message_length_check content /\
  no_leading_space content /\
  no_leading_space (rev content) /\
  safeParse content = inr content.
Proof.
  intros P.
  destruct (safeParse_spec draft) as [[E P']|[(E & L & P')|(E & L & P')]];
    rewrite P' in P; [discriminate| |discriminate].
  injection P as <-. split; [reflexivity|].
  assert (trim draft <> []) as Hne by exact E.
  split. { destruct (trim draft); [contradiction|]. simpl length in *. lia. }
  split; [apply units_within_check; assumption|].
  split; [apply trimEnd_no_leading, trimStart_no_leading|].
  split; [apply trimEnd_no_trailing|].
  destruct (safeParse_spec (trim draft))
    as [[E2 P2]|[(E2 & L2 & P2)|(E2 & L2 & P2)]]; rewrite trim_idem in *.
  - contradiction.
  - exact P2.
  - lia.
Qed.

Lemma accepted_message_witness :
  safeParse [32; 104; 105; 10]%N = inr [104; 105]%N /\
  [104; 105]%N = trim [32; 104; 105; 10]%N /\
  (1 <= N.of_nat (length [104; 105]%N) <= 5000)%N /\
  message_length_check [104; 105]%N /\
  no_leading_space [104; 105]%N /\
  no_leading_space (rev [104; 105]%N) /\
  safeParse [104; 105]%N = inr [104; 105]%N.
Proof.
  split; [reflexivity|].
  apply (accepted_message [32; 104; 105; 10]%N [104; 105]%N). reflexivity.
Defined.

Lemma inserted_request (r : Request) (w : ChatWindow) :
  inserted (requests (request r w)) =
  inserted (requests w) ++
  match r with InsertMessage c => [c] | _ => [] end.
Proof.
  unfold inserted. simpl. rewrite omap_app. destruct r; reflexivity.
Qed.

(** X13.  The send button and the schema agree on the empty message.
    With the button disabled a submission inserts nothing and shows
    "Message cannot be empty".  With the button enabled that refusal cannot
    occur: the trimmed draft is inserted when it has at most 5000 code
    units, and otherwise nothing is inserted and "Message too long" is
    shown. *)
Theorem send_button_and_schema (w : ChatWindow) :
  (send_disabled w = true ->
   sendMessage w =
   request (ShowToast (mkToast "Invalid message" "Message cannot be empty"
                               "destructive")) w) /\
  (send_disabled w = false ->
   (N.of_nat (length (trim (newMessage w))) <= 5000)%N ->
   requests (sendMessage w) =
   requests w ++ [InsertMessage (trim (newMessage w))]) /\
  (send_disabled w = false ->
   (5000 < N.of_nat (length (trim (newMessage w))))%N ->
   sendMessage w =
   request (ShowToast (mkToast "Invalid message"
                               "Message too long (max 5000 characters)"
                               "destructive")) w).
Proof.
  unfold send_disabled, sendMessage.
  destruct (safeParse_spec (newMessage w))
    as [[E P]|[(E & L & P)|(E & L & P)]]; rewrite P; simpl.
  - split; [reflexivity|]. split; intros H; apply bool_decide_eq_false in H;
      contradiction.
  - split; [intros H; apply bool_decide_eq_true in H; contradiction|].
    split; [|intros _ H; lia]. reflexivity.
  - split; [intros H; apply bool_decide_eq_true in H; contradiction|].
    split; [intros _ H; lia|]. reflexivity.
Qed.

Lemma send_button_and_schema_witness :
  let w := handleInputChange [32; 32]%N chat_window in
  send_disabled w = true /\
  sendMessage w =
  request (ShowToast (mkToast "Invalid message" "Message cannot be empty"
                              "destructive")) w.
Proof.
  split; [reflexivity|].
  apply (send_button_and_schema (handleInputChange [32; 32]%N chat_window)).
  reflexivity.
Defined.

Lemma chat_handle_inserted (ev : ChatEvent) (w : ChatWindow) :
  exists new,
    inserted (requests (chat_handle ev w)) = inserted (requests w) ++ new /\
    Forall (fun c => message_length_check c /\ trim c = c) new.
Proof.
  destruct ev as [v| |ok|]; simpl.
  - exists []. split; [|constructor]. rewrite app_nil_r.
    unfold handleInputChange. destruct (cwTyping w); simpl; [reflexivity|].
    unfold inserted. rewrite omap_app. simpl. apply app_nil_r.
  - unfold sendMessage.
    destruct (safeParse (newMessage w)) as [issues|content] eqn:P.
    + exists []. rewrite inserted_request, app_nil_r.
      split; [reflexivity|constructor].
    + destruct (safeParse_spec (newMessage w))
        as [[E P']|[(E & L & P')|(E & L & P')]];
        rewrite P' in P; [discriminate| |discriminate].
      injection P as <-. exists [trim (newMessage w)]. split.
      * simpl. unfold inserted. rewrite omap_app. reflexivity.
      * constructor; [|constructor].
        split; [apply units_within_check; assumption|apply trim_idem].
  - exists []. rewrite app_nil_r. split; [|constructor].
    unfold insert_settled. destruct (sending w); [reflexivity|].
    destruct ok; unfold updateTypingStatus; rewrite inserted_request;
      simpl; apply app_nil_r.
  - exists []. rewrite app_nil_r. split; [|constructor].
    unfold timeout_fired. destruct (timeout_pending w); [|reflexivity].
    unfold updateTypingStatus. rewrite inserted_request. simpl.
    apply app_nil_r.
Qed.

(** X14.  Whatever the user types and submits, and whatever the backend
    answers, every message the component asks the backend to insert is
    trimmed and has between 1 and 5000 code units. *)
Theorem only_valid_messages_inserted (evs : list ChatEvent) (w : ChatWindow) :
  exists new,
    inserted (requests (chat_run evs w)) = inserted (requests w) ++ new /\
    Forall (fun c => message_length_check c /\ trim c = c) new.
Proof.
  revert w. induction evs as [|ev evs IH]; intros w.
  - exists []. rewrite app_nil_r. split; [reflexivity|constructor].
  - unfold chat_run in *. simpl.
    destruct (chat_handle_inserted ev w) as (n1 & E1 & F1).
    destruct (IH (chat_handle ev w)) as (n2 & E2 & F2).
    exists (n1 ++ n2). rewrite E2, E1, app_assoc.
    split; [reflexivity|]. apply Forall_app. auto.
Qed.

(** ** The typing indicator *)

Lemma no_repeated_snoc (l : list bool) (b : bool) :
  no_repeated_typing l -> (b = true -> last l <> Some true) ->
  no_repeated_typing (l ++ [b]).
Proof.
  induction l as [|x l IH]; intros Hl Hb; [destruct b; exact I|].
  destruct l as [|y l].
  - simpl. destruct x, b; simpl; try exact I.
    apply (Hb eq_refl). reflexivity.
  - assert (no_repeated_typing ((y :: l) ++ [b])) as H.
    { apply IH; [destruct x, y; simpl in Hl; tauto|].
      intros E. rewrite last_cons_cons in Hb. auto. }
    destruct x, y; simpl in *; tauto.
Qed.

Lemma typing_reports_request (r : Request) (w : ChatWindow) :
  typing_reports (requests (request r w)) =
  typing_reports (requests w) ++
  match r with UpsertTyping b => [b] | _ => [] end.
Proof.
  unfold typing_reports. simpl. rewrite omap_app. destruct r; reflexivity.
Qed.

Lemma chat_handle_typing_inv (ev : ChatEvent) (w : ChatWindow) :
  typing_inv w -> typing_inv (chat_handle ev w).
Proof.
  intros (T & N & L). destruct ev as [v| |ok|]; simpl.
  - unfold handleInputChange, typing_inv. destruct (cwTyping w) eqn:E; simpl.
    + auto.
    + unfold typing_reports. rewrite omap_app. simpl.
      split; [auto|]. split; [|auto].
      apply no_repeated_snoc; [exact N|]. intros _ H.
      specialize (L H). discriminate.
  - unfold sendMessage.
    destruct (safeParse (newMessage w)) as [issues|content].
    + unfold typing_inv. rewrite typing_reports_request, app_nil_r.
      simpl. auto.
    + unfold typing_inv. simpl. unfold typing_reports. rewrite omap_app.
      simpl. rewrite app_nil_r. auto.
  - unfold insert_settled. destruct (sending w); [split; auto|].
    destruct ok; unfold typing_inv, updateTypingStatus;
      rewrite typing_reports_request; simpl.
    * split; [discriminate|].
      split; [apply no_repeated_snoc; [exact N|discriminate]|].
      rewrite last_snoc. discriminate.
    * rewrite app_nil_r. auto.
  - unfold timeout_fired. destruct (timeout_pending w) eqn:E.
    2:{ split; [|auto]. intros H. rewrite E. exact (T H). }
    unfold typing_inv, updateTypingStatus.
    rewrite typing_reports_request. simpl.
    split; [discriminate|].
    split; [apply no_repeated_snoc; [exact N|discriminate]|].
    rewrite last_snoc. discriminate.
Qed.

(** X15.  From the mounted component, whatever is typed and submitted,
    whatever the backend answers to the inserts and whenever the timeout
    fires: while [isTyping] is set a timeout is
    pending that will clear it; typing is never reported to the backend
    twice in a row, so only the first keystroke of a burst is reported; and
    whenever the last report says typing, [isTyping] is set, so that report
    will be followed by one that says not typing. *)
Theorem typing_indicator_is_reset (evs : list ChatEvent) :
  typing_inv (chat_run evs chat_window).
Proof.
  assert (forall w, typing_inv w -> typing_inv (chat_run evs w)) as H.
  { induction evs as [|ev evs IH]; intros w Hw; [exact Hw|].
    unfold chat_run in *. simpl. apply IH, chat_handle_typing_inv, Hw. }
  apply H. unfold typing_inv. simpl. split; [discriminate|].
  split; [exact I|discriminate].
Qed.

(** ** Submitting twice *)

(** X16.  The draft is cleared only when the insert has succeeded, and
    the form is not blocked in between: a valid draft submitted a second
    time before the backend has answered is inserted a second time, and
    both inserts are then awaited. *)
Theorem double_submit_inserts_twice (w : ChatWindow) (content : JsString) :
  safeParse (newMessage w) = inr content ->
  let w' := chat_run [Submit; Submit] w in
  requests w' = requests w ++ [InsertMessage content; InsertMessage content] /\
  newMessage w' = newMessage w /\
  sending w' = S (S (sending w)).
Proof.
  intros P. unfold chat_run. simpl.
  assert (sendMessage w =
          mkChatWindow (newMessage w) (cwTyping w) (timeout_pending w)
                       (S (sending w))
                       (requests w ++ [InsertMessage content])) as E.
  { unfold sendMessage. rewrite P. reflexivity. }
  rewrite E. unfold sendMessage. simpl. rewrite P. simpl.
  rewrite <- app_assoc. auto.
Qed.

Lemma double_submit_inserts_twice_witness :
  let w := handleInputChange [104; 105]%N chat_window in
  let w' := chat_run [Submit; Submit] w in
  requests w' =
  requests w ++ [InsertMessage [104; 105]%N; InsertMessage [104; 105]%N] /\
  newMessage w' = newMessage w /\
  sending w' = S (S (sending w)).
Proof.
  apply (double_submit_inserts_twice
           (handleInputChange [104; 105]%N chat_window) [104; 105]%N).
  reflexivity.
Defined.
